(** * pyioflash: SortedDict collections, block adjacency and halo filling

    A shallow embedding of [pyioflash/simulation/collections.py],
    [pyioflash/simulation/utility.py], [pyioflash/simulation/geometry.py]
    (neighbor construction) and [pyioflash/simulation/support.py]
    (guard and boundary cell filling), with the properties stated for them.

    Python floats are modelled by [Q] (the properties at stake are about
    ordering, equality and index arithmetic, not rounding); Python ints by
    [Z]; dicts by association lists in insertion order; numpy arrays by a
    shape and a total function on index tuples. *)

From Stdlib Require Import String.
From Stdlib Require Import List ZArith QArith Bool Lia Arith.
From Stdlib Require Import Sorted Permutation SetoidList SetoidPermutation.
Import ListNotations.
Set Warnings "-register-all".

(** ** Python runtime: exceptions, results and a state/exception monad *)

Inductive pyexc : Type :=
| ValueError_at (k : Q) (pos : nat)   (* 'Nonunique key provided; {key} @ index {pos}' *)
| ValueError_nonunique                (* 'Nonunique key, location mismatch; ...' *)
| ValueError_broadcast                (* numpy: could not broadcast input array *)
| ValueError_slice_step               (* slice step cannot be zero *)
| ValueError_mismatch_at (pos : nat)  (* 'Nonunique key, location mismatch; identical key @ {pos}' *)
| ValueError_negative_dims            (* numpy: negative dimensions are not allowed *)
| ValueError_zero_size                (* numpy: zero-size array to reduction operation *)
| ValueError_inhomogeneous            (* numpy.array: the requested array has an inhomogeneous shape *)
| ValueError_negative_samples         (* numpy.linspace: number of samples must be non-negative *)
| Exception_field_not_found           (* Exception('requested field not found!') *)
| KeyError
| IndexError
| TypeError
| AttributeError
| StopIteration.

Inductive res (A : Type) : Type :=
| Ok (a : A)
| Exc (e : pyexc).
Arguments Ok {A} a.
Arguments Exc {A} e.

Definition rbind {A B} (r : res A) (k : A -> res B) : res B :=
  match r with Ok a => k a | Exc e => Exc e end.

Notation "x <-? r ;; k" := (rbind r (fun x => k))
  (at level 61, r at next level, right associativity).

(** In-place mutation of one Python object (a [SortedDict] or a numpy
    array) is threaded as explicit state; a raised exception keeps the
    state reached when it was raised. *)
Definition stM (S A : Type) : Type := S -> S * res A.

Definition sret {S A} (a : A) : stM S A := fun s => (s, Ok a).
Definition sraise {S A} (e : pyexc) : stM S A := fun s => (s, Exc e).
Definition sbind {S A B} (m : stM S A) (k : A -> stM S B) : stM S B :=
  fun s => match m s with
           | (s', Ok a) => k a s'
           | (s', Exc e) => (s', Exc e)
           end.
Definition slift {S A} (r : res A) : stM S A :=
  fun s => (s, r).
Definition sget {S} : stM S S := fun s => (s, Ok s).
Definition sput {S} (s : S) : stM S unit := fun _ => (s, Ok tt).

Notation "x <- m ;; k" := (sbind m (fun x => k))
  (at level 61, m at next level, right associativity).
Notation "m ;;; k" := (sbind m (fun _ => k))
  (at level 61, right associativity).

Fixpoint mapM {A B} (f : A -> res B) (l : list A) : res (list B) :=
  match l with
  | [] => Ok []
  | x :: xs => y <-? f x ;; ys <-? mapM f xs ;; Ok (y :: ys)
  end.

(** [for x in l: body(x)] *)
Fixpoint sfor {S A} (l : list A) (body : A -> stM S unit) : stM S unit :=
  match l with
  | [] => sret tt
  | x :: xs => body x ;;; sfor xs body
  end.

Definition swhen {S} (c : bool) (m : stM S unit) : stM S unit :=
  if c then m else sret tt.

(** [enumerate(l)] *)
Definition enumerate {A} (l : list A) : list (nat * A) :=
  combine (seq 0 (length l)) l.

(** ** Python slices (CPython [PySlice_Unpack] and [PySlice_AdjustIndices]) *)

Definition slice_adjust (len step : Z) (o : option Z) (dflt : Z) : Z :=
  match o with
  | None => dflt
  | Some v =>
      if v <? 0 then
        (if v + len <? 0 then (if step <? 0 then -1 else 0) else v + len)
      else if len <=? v then (if step <? 0 then len - 1 else len)
      else v
  end%Z.

Fixpoint srange (fuel : nat) (i stop step : Z) : list Z :=
  match fuel with
  | O => []
  | S f =>
      if ((0 <? step) && (i <? stop)) || ((step <? 0) && (stop <? i))
      then i :: srange f (i + step) stop step
      else []
  end%Z.

(** The positions selected by [start:stop:step] on a sequence of length [n]. *)
Definition slice_indices (n : nat) (start stop step : option Z) : res (list nat) :=
  let st := match step with None => 1%Z | Some s => s end in
  if (st =? 0)%Z then Exc ValueError_slice_step else
  let len := Z.of_nat n in
  let a := slice_adjust len st start (if st <? 0 then len - 1 else 0)%Z in
  let b := slice_adjust len st stop (if st <? 0 then -1 else len)%Z in
  Ok (map Z.to_nat (srange (S n) a b st)).

(** Integer subscript of a sequence of length [n] (negative counts from the end). *)
Definition py_index (n : nat) (i : Z) : res nat :=
  let len := Z.of_nat n in
  if (i <? 0)%Z then (if (i + len <? 0)%Z then Exc IndexError else Ok (Z.to_nat (i + len)))
  else if (len <=? i)%Z then Exc IndexError else Ok (Z.to_nat i).

Definition list_get {A} (l : list A) (i : Z) : res A :=
  p <-? py_index (length l) i ;;
  match nth_error l p with Some x => Ok x | None => Exc IndexError end.

(** [l[start:stop:step]] *)
Definition list_slice {A} (l : list A) (start stop step : option Z) : res (list A) :=
  ix <-? slice_indices (length l) start stop step ;;
  mapM (fun p => match nth_error l p with Some x => Ok x | None => Exc IndexError end) ix.

(** [next(filter(predictor, iterable))] : utility._first_true *)
Definition first_true {A} (pred : A -> bool) (l : list A) : res A :=
  match find pred l with Some x => Ok x | None => Exc StopIteration end.

(** ** collections.py : SortedDict *)

(** Attribute values of the records: a Python float, a numpy scalar (what
    [data.max()] or a row of an HDF5 table gives), or a sequence (a list or
    a numpy array, both indexable by position). *)
Inductive pyval : Type :=
| PNum (q : Q)
| PNp (q : Q)
| PSeq (l : list pyval).

(** A record placed in a SortedDict: its float [key] and its named
    attributes (the data classes of types.py set them with [setattr]). *)
Record rec : Type := mkRec {
  key : Q;
  attrs : list (string * pyval)
}.

(** [SortedDict._data], [SortedDict._keys] (an OrderedDict, in insertion
    order), [SortedDict._is_valid], and whether the attribute [_keys]
    exists at all ([__init__] does not set it; [__make_valid__], [clear] and
    [from_sorted] do, and nothing deletes it). [_is_valid] only becomes true
    together with [_keys], so after [__make_valid__] the table exists: the
    operations that call it first keep the attribute set. Only
    [setdefault], which does not re-sort, can meet a collection without it. *)
Record SD : Type := mkSD {
  sd_data : list rec;
  sd_keys : list (Q * nat);
  sd_valid : bool;
  sd_has_keys : bool
}.

Definition Qltb (a b : Q) : bool := negb (Qle_bool b a).

(** OrderedDict operations on float keys (hash equality of floats is [==]). *)
Definition od_get (d : list (Q * nat)) (k : Q) : option nat :=
  match find (fun p => Qeq_bool (fst p) k) d with
  | Some p => Some (snd p)
  | None => None
  end.

Definition od_mem (d : list (Q * nat)) (k : Q) : bool :=
  existsb (fun p => Qeq_bool (fst p) k) d.

(** [d[k] = v]: an existing key keeps its place and its stored key object,
    a new key goes to the end. *)
Definition od_set (d : list (Q * nat)) (k : Q) (v : nat) : list (Q * nat) :=
  if od_mem d k
  then map (fun p => if Qeq_bool (fst p) k then (fst p, v) else p) d
  else d ++ [(k, v)].

(** [list.sort(key=lambda item: item.key)]: a stable sort (insertion sort
    placing an element before the later ones of equal key). *)
Fixpoint insert_by_key (x : rec) (l : list rec) : list rec :=
  match l with
  | [] => [x]
  | y :: ys => if Qle_bool (key x) (key y) then x :: y :: ys else y :: insert_by_key x ys
  end.

Fixpoint sort_by_key (l : list rec) : list rec :=
  match l with
  | [] => []
  | x :: xs => insert_by_key x (sort_by_key xs)
  end.

(** [__init__]: [_keys] is not set until the first [__make_valid__]. *)
Definition sd_init (l : list rec) : SD := mkSD l [] false false.

(** [__make_keys__]: [OrderedDict([(item.key, i) for i, item in enumerate(self._data)])] *)
Definition make_keys (l : list rec) : list (Q * nat) :=
  fold_left (fun acc ir => od_set acc (key (snd ir)) (fst ir)) (enumerate l) [].

(** [__make_valid__] (with [force = False]). *)
Definition make_valid : stM SD unit :=
  fun s =>
    if sd_valid s then (s, Ok tt)
    else let d := sort_by_key (sd_data s) in (mkSD d (make_keys d) true true, Ok tt).

(** [from_sorted] *)
Definition from_sorted (l : list rec) : SD := mkSD l (make_keys l) true true.

(** [append] *)
Definition append (value : rec) : stM SD unit :=
  make_valid ;;;
  fun s =>
    match od_get (sd_keys s) (key value) with
    | Some p => (s, Exc (ValueError_at (key value) p))
    | None =>
        let valid :=
          match sd_data s, rev (sd_keys s) with
          | _ :: _, (last, _) :: _ => if Qltb (key value) last then false else sd_valid s
          | _, _ => sd_valid s
          end in
        let data := sd_data s ++ [value] in
        (mkSD data (od_set (sd_keys s) (key value) (length data - 1)) valid true, Ok tt)
    end.

(** utility._set_is_unique (no mask): no member of [sequence] is in [source]. *)
Definition set_is_unique (source : list (Q * nat)) (sequence : list Q) : bool :=
  match first_true (fun k => od_mem source k) sequence with
  | Ok _ => false
  | Exc _ => true
  end.

(** [clear()]: an empty list, an empty OrderedDict, and valid. *)
Definition clear : stM SD unit :=
  fun _ => (mkSD [] [] true true, Ok tt).

(** [extend] *)
Definition extend (iterable : list rec) : stM SD unit :=
  make_valid ;;;
  fun s =>
    if negb (set_is_unique (sd_keys s) (map key iterable))
    then (s, Exc ValueError_nonunique)
    else (mkSD (sd_data s ++ iterable) (sd_keys s) false true, Ok tt).

(** [__add__]: returns a new collection; [self] only loses its valid flag. *)
Definition concat (other : list rec) : stM SD SD :=
  make_valid ;;;
  fun s =>
    if negb (set_is_unique (sd_keys s) (map key other))
    then (s, Exc ValueError_nonunique)
    else (mkSD (sd_data s) (sd_keys s) false true, Ok (sd_init (sd_data s ++ other))).

(** [__iter__] : the read-through of the collection. *)
Definition iter : stM SD (list rec) :=
  make_valid ;;; fun s => (s, Ok (sd_data s)).

(** [keys()] *)
Definition keys : stM SD (list Q) :=
  make_valid ;;; fun s => (s, Ok (map fst (sd_keys s))).

(** Python numbers used as subscripts or slice bounds. *)
Inductive pynum : Type :=
| NInt (z : Z)
| NFloat (q : Q).

Definition num_Q (n : pynum) : Q :=
  match n with NInt z => inject_Z z | NFloat q => q end.

Definition is_float (o : option pynum) : bool :=
  match o with Some (NFloat _) => true | _ => false end.

Definition int_bound (o : option pynum) : res (option Z) :=
  match o with
  | None => Ok None
  | Some (NInt z) => Ok (Some z)
  | Some (NFloat _) => Exc TypeError
  end.

(** The subscripts of [__getitem__]. *)
Inductive subscript : Type :=
| KFloat (q : Q)
| KInt (z : Z)
| KSlice (start stop : option pynum) (step : option Z)
| KStr (s : string).

(** [__getitem__] *)
Definition getitem (k : subscript) : stM SD SD :=
  make_valid ;;;
  fun s =>
    match k with
    | KFloat q =>
        (s, p <-? first_true (fun x => Qle_bool q (fst x)) (sd_keys s) ;;
            match nth_error (sd_data s) (snd p) with
            | Some r => Ok (from_sorted [r])
            | None => Exc IndexError
            end)
    | KInt z => (s, r <-? list_get (sd_data s) z ;; Ok (from_sorted [r]))
    | KSlice lo hi step =>
        if is_float lo || is_float hi then
          (s, start <-? match lo with
                        | None => Ok 0%nat
                        | Some l => p <-? first_true (fun x => Qle_bool (num_Q l) (fst x)) (sd_keys s) ;;
                                    Ok (snd p)
                        end ;;
              stop <-? match hi with
                       | None => Ok (length (sd_data s))
                       | Some h => p <-? first_true (fun x => Qle_bool (fst x) (num_Q h)) (rev (sd_keys s)) ;;
                                   Ok (S (snd p))
                       end ;;
              l <-? list_slice (sd_data s) (Some (Z.of_nat start)) (Some (Z.of_nat stop)) step ;;
              Ok (from_sorted l))
        else
          (s, a <-? int_bound lo ;; b <-? int_bound hi ;;
              l <-? list_slice (sd_data s) a b step ;; Ok (from_sorted l))
    | KStr _ => (s, Exc TypeError)
    end.

(** ** collections.py : the other SortedDict methods *)

(** [l.pop(i)] on a Python list: the item removed and the list left. *)
Definition list_pop {A} (l : list A) (i : Z) : res (A * list A) :=
  p <-? py_index (length l) i ;;
  match nth_error l p with
  | Some x => Ok (x, firstn p l ++ skipn (S p) l)
  | None => Exc IndexError
  end.

(** [l[i] = v] on a Python list. *)
Definition list_set {A} (l : list A) (i : Z) (v : A) : res (list A) :=
  p <-? py_index (length l) i ;;
  match nth_error l p with
  | Some _ => Ok (firstn p l ++ v :: skipn (S p) l)
  | None => Exc IndexError
  end.

(** [l[start:stop] = v] on a Python list (CPython [list_ass_slice]: the
    bounds are clamped and a stop before the start is moved to it). *)
Definition list_setslice {A} (l : list A) (start stop : option Z) (v : list A) : res (list A) :=
  let len := Z.of_nat (length l) in
  let a := slice_adjust len 1 start 0 in
  let b := slice_adjust len 1 stop len in
  let b' := Z.max a b in
  Ok (firstn (Z.to_nat a) l ++ v ++ skipn (Z.to_nat b') l).

(** [get(key, defualt)]: the [KeyError] of the table lookup gives the
    default; an [IndexError] of the data lookup would propagate. *)
Definition get {A} (k : Q) (defualt : A) : stM SD (rec + A) :=
  make_valid ;;;
  fun s =>
    match od_get (sd_keys s) k with
    | Some p => (s, r <-? list_get (sd_data s) (Z.of_nat p) ;; Ok (inl r))
    | None => (s, Ok (inr defualt))
    end.

(** What [pop] returns: the record removed by position, the float key
    given (returned, not its record, when that record is removed), or the
    default. *)
Inductive popped (A : Type) : Type :=
| PopRec (r : rec)
| PopKey (k : Q)
| PopDefault (a : A).
Arguments PopRec {A} r.
Arguments PopKey {A} k.
Arguments PopDefault {A} a.

(** [pop(key=-1, default=None)]; [None] stands for the Python [None]. *)
Definition pop {A} (k : pynum) (default : option A) : stM SD (popped A) :=
  make_valid ;;;
  fun s =>
    match k with
    | NInt i =>
        match list_pop (sd_data s) i with
        | Ok (r, rest) => (mkSD rest (sd_keys s) false true, Ok (PopRec r))
        | Exc e => (mkSD (sd_data s) (sd_keys s) false true, Exc e)
        end
    | NFloat q =>
        if od_mem (sd_keys s) q then
          match od_get (sd_keys s) q with
          | Some p =>
              match list_pop (sd_data s) (Z.of_nat p) with
              | Ok (_, rest) => (mkSD rest (sd_keys s) false true, Ok (PopKey q))
              | Exc e => (mkSD (sd_data s) (sd_keys s) false true, Exc e)
              end
          | None => (s, Exc KeyError)
          end
        else
          match default with
          | Some a => (s, Ok (PopDefault a))
          | None => (s, Exc KeyError)
          end
    end.

(** [popitem()]: [(self._keys.popitem()[0], self._data.pop())], the
    OrderedDict giving up its last entry. *)
Definition popitem : stM SD (Q * rec) :=
  make_valid ;;;
  fun s =>
    match sd_data s with
    | [] => (s, Exc KeyError)
    | _ :: _ =>
        match rev (sd_keys s) with
        | [] => (s, Exc KeyError)
        | (k, _) :: rk =>
            match list_pop (sd_data s) (-1) with
            | Ok (r, rest) => (mkSD rest (rev rk) (sd_valid s) true, Ok (k, r))
            | Exc e => (mkSD (sd_data s) (rev rk) (sd_valid s) true, Exc e)
            end
        end
    end.

Definition is_value_error (e : pyexc) : bool :=
  match e with
  | ValueError_at _ _ | ValueError_nonunique | ValueError_broadcast
  | ValueError_slice_step | ValueError_mismatch_at _
  | ValueError_negative_dims | ValueError_zero_size | ValueError_inhomogeneous
  | ValueError_negative_samples => true
  | _ => false
  end.

(** [setdefault(key, default)]: no [__make_valid__] first, and only a
    [ValueError] gives the default. It reads the key table as the last
    [__make_valid__] left it; a collection never re-sorted has no [_keys]
    attribute ([AttributeError]). *)
Definition setdefault {A} (k : Q) (default : A) : stM SD (rec + A) :=
  fun s =>
    let r := if negb (sd_has_keys s) then Exc AttributeError else
             match od_get (sd_keys s) k with
             | Some p => x <-? list_get (sd_data s) (Z.of_nat p) ;; Ok (inl x)
             | None => Exc KeyError
             end in
    match r with
    | Ok v => (s, Ok v)
    | Exc e => if is_value_error e then (s, Ok (inr default)) else (s, Exc e)
    end.

(** [__setitem__] with a float key [sd[key] = value]. *)
Definition setitem_float (k : Q) (value : rec) : stM SD unit :=
  make_valid ;;;
  fun s =>
    if od_mem (sd_keys s) (key value) then
      match od_get (sd_keys s) k with
      | Some p =>
          match list_set (sd_data s) (Z.of_nat p) value with
          | Ok d => (mkSD d (sd_keys s) (sd_valid s) true, Ok tt)
          | Exc e => (s, Exc e)
          end
      | None => (s, Exc KeyError)
      end
    else append value s.

(** [__setitem__] with an int key [sd[i] = value]. *)
Definition setitem_int (i : Z) (value : rec) : stM SD unit :=
  make_valid ;;;
  fun s =>
    let clash :=
      if od_mem (sd_keys s) (key value) then
        match od_get (sd_keys s) (key value) with
        | Some p => if Z.eqb i (Z.of_nat p) then None else Some p
        | None => None
        end
      else None in
    match clash with
    | Some p => (s, Exc (ValueError_mismatch_at p))
    | None =>
        match list_set (sd_data s) i value with
        | Ok d => (mkSD d (sd_keys s) false true, Ok tt)
        | Exc e => (s, Exc e)
        end
    end.

(** utility._set_is_unique on a set of floats. *)
Definition set_is_unique_q (source : list Q) (sequence : list Q) : bool :=
  match first_true (fun k => existsb (Qeq_bool k) source) sequence with
  | Ok _ => false
  | Exc _ => true
  end.

(** [__setitem__] with a slice whose start is not a float
    [sd[start:stop] = value] (the step is not used). *)
Definition setitem_slice_int (start stop : option Z) (value : list rec) : stM SD unit :=
  make_valid ;;;
  fun s =>
    match list_slice (sd_data s) None start None, list_slice (sd_data s) stop None None with
    | Ok lo, Ok hi =>
        let masked := map key lo ++ map key hi in
        if set_is_unique_q masked (map key value) then
          match list_setslice (sd_data s) start stop value with
          | Ok d => (mkSD d (sd_keys s) false true, Ok tt)
          | Exc e => (s, Exc e)
          end
        else (s, Exc ValueError_nonunique)
    | Exc e, _ => (s, Exc e)
    | _, Exc e => (s, Exc e)
    end.

(** [update(iterable)]: [self[item.key] = item] for each item. *)
Definition update (iterable : list rec) : stM SD unit :=
  make_valid ;;; sfor iterable (fun item => setitem_float (key item) item).

(** [copy()]: a new collection over the (re-sorted) data. *)
Definition sd_copy : stM SD SD :=
  make_valid ;;; fun s => (s, Ok (sd_init (sd_data s))).

(** A dict with float keys: [d[k] = v]. *)
Definition qd_set {V} (d : list (Q * V)) (k : Q) (v : V) : list (Q * V) :=
  if existsb (fun p => Qeq_bool (fst p) k) d
  then map (fun p => if Qeq_bool (fst p) k then (fst p, v) else p) d
  else d ++ [(k, v)].

(** [items()]: [{item[0] : self._data[item[1]] for item in self._keys.items()}.items()] *)
Definition items : stM SD (list (Q * rec)) :=
  make_valid ;;;
  fun s =>
    (s, pairs <-? mapM (fun kp => r <-? list_get (sd_data s) (Z.of_nat (snd kp)) ;; Ok (fst kp, r))
                       (sd_keys s) ;;
        Ok (fold_left (fun acc kr => qd_set acc (fst kr) (snd kr)) pairs [])).

(** ** collections.py : transpose views *)

(** [getattr(obj, name)] on a record. *)
Definition getattr (r : rec) (n : string) : res pyval :=
  match find (fun p => String.eqb (fst p) n) (attrs r) with
  | Some p => Ok (snd p)
  | None => Exc AttributeError
  end.

(** utility._filter_transpose: on [AttributeError] it retries with
    [obj[n]]; the record data classes define [__getitem__] as [getattr]
    (types.py), so the retry walks the same records in the same order and
    raises the same [AttributeError] at the same record. *)
Definition filter_transpose (source : list rec) (names : list string) : res (list (list pyval)) :=
  match mapM (fun n => mapM (fun obj => getattr obj n) source) names with
  | Exc AttributeError => mapM (fun n => mapM (fun obj => getattr obj n) source) names
  | r => r
  end.

(** Subscript [v[i]] of an attribute value: a Python float is not
    subscriptable ([TypeError]), a numpy scalar has no index
    ([IndexError: invalid index to scalar variable]). *)
Definition pysub (v : pyval) (i : Z) : res pyval :=
  match v with
  | PNum _ => Exc TypeError
  | PNp _ => Exc IndexError
  | PSeq l => list_get l i
  end.

(** [Filterable.__getitem__] with an integer: [[item[keys] for item in self]]. *)
Definition filterable_getitem_int (self : pyval) (i : Z) : res pyval :=
  match self with
  | PSeq items => r <-? mapM (fun it => pysub it i) items ;; Ok (PSeq r)
  | PNum _ | PNp _ => Exc TypeError
  end.

(** The shape numpy gives a nested value: a scalar has shape [()], a
    sequence whose items all have one shape [sh] has shape [(len,) + sh];
    items of different shapes make it ragged ([None]). *)
Fixpoint np_shape (v : pyval) : option (list nat) :=
  match v with
  | PNum _ | PNp _ => Some []
  | PSeq l =>
      let fix shapes (l : list pyval) : list (option (list nat)) :=
        match l with
        | [] => []
        | x :: xs => np_shape x :: shapes xs
        end in
      match shapes l with
      | [] => Some [length l]
      | Some sh :: rest =>
          if forallb (fun o => match o with
                               | Some sh' => if list_eq_dec Nat.eq_dec sh sh' then true else false
                               | None => false
                               end) rest
          then Some (length l :: sh) else None
      | None :: _ => None
      end
  end.

(** The items of a numpy float array: numbers become numpy scalars. *)
Fixpoint np_conv (v : pyval) : pyval :=
  match v with
  | PNum q | PNp q => PNp q
  | PSeq l => PSeq (map np_conv l)
  end.

(** [numpy.array(l)] for a list of values: a ragged list raises
    [ValueError] (numpy 1.24 and later). *)
Definition np_array (l : list pyval) : res pyval :=
  match np_shape (PSeq l) with
  | Some _ => Ok (np_conv (PSeq l))
  | None => Exc ValueError_inhomogeneous
  end.

(** [_return_map] of the two view classes. [TransposableAsArray] gives
    [map(numpy.array, source)], which the [FilterableList] constructor
    consumes at once. *)
Definition return_map_array (source : list (list pyval)) : res pyval :=
  r <-? mapM np_array source ;; Ok (PSeq r).

Definition return_map_single (source : list (list pyval)) : res pyval :=
  r <-? list_get source 0 ;; Ok (PSeq r).

(** Result of [BaseTransposable.__getitem__]: a collection (from the
    SortedDict [__getitem__]) or a [FilterableList]. *)
Inductive view_result : Type :=
| VSeries (s : SD)
| VList (v : pyval).

(** [BaseTransposable.__getitem__] with a single attribute name. *)
Definition view_getitem_name (return_map : list (list pyval) -> res pyval) (name : string)
  : stM SD view_result :=
  fun s0 =>
    match getitem (KStr name) s0 with
    | (s1, Ok r) => (s1, Ok (VSeries r))
    | (s1, Exc TypeError) =>
        match iter s1 with
        | (s2, Ok src) =>
            (s2, rtn <-? filter_transpose src [name] ;; v <-? return_map rtn ;; Ok (VList v))
        | (s2, Exc e) => (s2, Exc e)
        end
    | (s1, Exc e) => (s1, Exc e)
    end.

Definition view_as_array (name : string) : stM SD view_result :=
  view_getitem_name return_map_array name.

Definition view_as_single (name : string) : stM SD view_result :=
  view_getitem_name return_map_single name.

(** [view[name][i]] *)
Definition view_index (view : stM SD view_result) (i : Z) : stM SD pyval :=
  r <- view ;;
  match r with
  | VList v => slift (filterable_getitem_int v i)
  | VSeries _ => sraise TypeError
  end.

(** ** geometry.py : GeometryData._get_neighbors *)

Definition face_names : list string :=
  ["left"; "right"; "front"; "back"; "up"; "down"]%string.

(** [[{names[face] : block for face, block in enumerate(struct[:2*dim]) if block >= 0}
      for struct in tree]]; a dict literal built in slot order. *)
Definition dict_of_pairs (l : list (string * Z)) : list (string * Z) :=
  fold_left (fun acc kv =>
               if existsb (fun p => String.eqb (fst p) (fst kv)) acc
               then map (fun p => if String.eqb (fst p) (fst kv) then (fst p, snd kv) else p) acc
               else acc ++ [kv]) l [].

Definition get_neighbors (tree : list (list Z)) (dim : Z) : res (list (list (string * Z))) :=
  mapM (fun struct =>
          sl <-? list_slice struct None (Some (2 * dim)%Z) None ;;
          pairs <-? mapM (fun fb => n <-? list_get face_names (Z.of_nat (fst fb)) ;; Ok (n, snd fb))
                         (filter (fun fb => (0 <=? snd fb)%Z) (enumerate sl)) ;;
          Ok (dict_of_pairs pairs))
       tree.

Definition dget {A} (d : list (string * A)) (k : string) : option A :=
  match find (fun p => String.eqb (fst p) k) d with
  | Some p => Some (snd p)
  | None => None
  end.

(** ** numpy arrays: basic indexing, broadcasting and slice assignment *)

(** An array: its shape and its value at every index tuple (only the tuples
    inside the shape are meaningful). *)
Record ndarray : Type := mkArr {
  shape : list nat;
  cell : list nat -> Q
}.

(** One component of a subscript tuple: an integer or a slice. *)
Inductive index : Type :=
| IInt (i : Z)
| ISl (start stop step : option Z).

(** A subscript resolved against a shape: a fixed position (the axis is
    dropped) or the list of selected positions. *)
Inductive sel : Type :=
| SInt (n : nat)
| SSl (l : list nat).

(** Trailing axes without a subscript are selected whole; more subscripts
    than axes is an [IndexError]. *)
Fixpoint resolve (sh : list nat) (ix : list index) : res (list sel) :=
  match sh, ix with
  | _, [] => Ok (map (fun n => SSl (seq 0 n)) sh)
  | [], _ :: _ => Exc IndexError
  | n :: sh', IInt i :: ix' => p <-? py_index n i ;; r <-? resolve sh' ix' ;; Ok (SInt p :: r)
  | n :: sh', ISl a b c :: ix' => l <-? slice_indices n a b c ;; r <-? resolve sh' ix' ;; Ok (SSl l :: r)
  end.

Fixpoint sel_shape (sels : list sel) : list nat :=
  match sels with
  | [] => []
  | SInt _ :: r => sel_shape r
  | SSl l :: r => length l :: sel_shape r
  end.

(** The cell of the base array behind an index tuple of the view. *)
Fixpoint sel_cell (sels : list sel) (idx : list nat) : list nat :=
  match sels with
  | [] => []
  | SInt n :: r => n :: sel_cell r idx
  | SSl l :: r =>
      match idx with
      | j :: idx' => nth j l 0%nat :: sel_cell r idx'
      | [] => 0%nat :: sel_cell r []
      end
  end.

Definition view (a : ndarray) (sels : list sel) : ndarray :=
  mkArr (sel_shape sels) (fun idx => cell a (sel_cell sels idx)).

(** [a[ix]] *)
Definition getv (a : ndarray) (ix : list index) : res ndarray :=
  sels <-? resolve (shape a) ix ;; Ok (view a sels).

Fixpoint pos_in (x : nat) (l : list nat) : option nat :=
  match l with
  | [] => None
  | y :: ys => if Nat.eqb x y then Some 0%nat else option_map S (pos_in x ys)
  end.

(** The index tuple of the view at which a base cell is selected, if any. *)
Fixpoint sel_locate (sels : list sel) (c : list nat) : option (list nat) :=
  match sels, c with
  | [], [] => Some []
  | SInt n :: r, x :: c' => if Nat.eqb x n then sel_locate r c' else None
  | SSl l :: r, x :: c' =>
      match pos_in x l with
      | Some p => option_map (cons p) (sel_locate r c')
      | None => None
      end
  | _, _ => None
  end.

(** Broadcasting, on shapes listed from the last axis: an axis of length 1
    stretches to any length. *)
Fixpoint bshape_rev (xs ys : list nat) : option (list nat) :=
  match xs, ys with
  | [], _ => Some ys
  | _, [] => Some xs
  | x :: xs', y :: ys' =>
      if Nat.eqb x y then option_map (cons x) (bshape_rev xs' ys')
      else if Nat.eqb x 1 then option_map (cons y) (bshape_rev xs' ys')
      else if Nat.eqb y 1 then option_map (cons x) (bshape_rev xs' ys')
      else None
  end.

(** Index, in an operand of shape [vs], read for the index [ti] of the
    broadcast shape [ts] (all listed from the last axis). *)
Fixpoint bidx_rev (vs ts ti : list nat) : list nat :=
  match vs with
  | [] => []
  | v :: vs' =>
      match ts, ti with
      | _ :: ts', i :: ti' => (if Nat.eqb v 1 then 0%nat else i) :: bidx_rev vs' ts' ti'
      | _, _ => 0%nat :: bidx_rev vs' [] []
      end
  end.

Definition bidx (vs ts ti : list nat) : list nat :=
  rev (bidx_rev (rev vs) (rev ts) (rev ti)).

(** Assignment [a[sels] = v] needs [v] to broadcast to the target shape. *)
Fixpoint bcast_to_rev (vs ts : list nat) : bool :=
  match vs, ts with
  | [], _ => true
  | v :: vs', [] => Nat.eqb v 1 && bcast_to_rev vs' []
  | v :: vs', t :: ts' => (Nat.eqb v t || Nat.eqb v 1) && bcast_to_rev vs' ts'
  end.

Definition setv (a : ndarray) (sels : list sel) (v : ndarray) : res ndarray :=
  let ts := sel_shape sels in
  if bcast_to_rev (rev (shape v)) (rev ts) then
    Ok (mkArr (shape a)
              (fun c => match sel_locate sels c with
                        | Some p => cell v (bidx (shape v) ts p)
                        | None => cell a c
                        end))
  else Exc ValueError_broadcast.

(** Elementwise arithmetic with broadcasting. *)
Definition binop (f : Q -> Q -> Q) (a b : ndarray) : res ndarray :=
  match bshape_rev (rev (shape a)) (rev (shape b)) with
  | Some rs =>
      let s := rev rs in
      Ok (mkArr s (fun i => f (cell a (bidx (shape a) s i)) (cell b (bidx (shape b) s i))))
  | None => Exc ValueError_broadcast
  end.

Definition scalar (q : Q) : ndarray := mkArr [] (fun _ => q).

(** Reading and assigning the field array [data], mutated in place. *)
Definition rd (ix : list index) : stM ndarray ndarray :=
  fun d => (d, getv d ix).

Definition wr (ix : list index) (v : ndarray) : stM ndarray unit :=
  fun d => match (sels <-? resolve (shape d) ix ;; setv d sels v) with
           | Ok d' => (d', Ok tt)
           | Exc e => (d, Exc e)
           end.

(** Slices written in support.py, for [g = int(blk_guards / 2)]. *)
Definition s_mid (g : Z) : index := ISl (Some g) (Some (- g)%Z) None.             (* g:-g *)
Definition s_hi (g : Z) : index := ISl (Some (- g)%Z) None None.                 (* -g: *)
Definition s_lo (g : Z) : index := ISl None (Some g) None.                      (* :g *)
Definition s_first (g : Z) : index := ISl (Some g) (Some (2 * g)%Z) None.         (* g:2*g *)
Definition s_last (g : Z) : index := ISl (Some (-2 * g)%Z) (Some (- g)%Z) None.     (* -2*g:-g *)
Definition s_all : index := ISl None None None.                                 (* : *)

(** ** support.py : guard and boundary cell filling *)

Local Open Scope string_scope.

(** The members of GeometryData read by support.py. *)
Record geometry : Type := mkGeom {
  blk_guards : Z;
  blk_neighbors : list (list (string * Z));
  grd_dim : Z;
  grd_bndcnds : list (string * list (string * string));
  grd_bndvals : list (string * list (string * Q));
  grd_mesh_x : ndarray                     (* GeometryData._grd_mesh_x *)
}.

Definition guards (geom : geometry) : Z := Z.quot (blk_guards geom) 2.

(** [k in d] for a dict with string keys, and [d[k]]. *)
Definition dmem {A} (d : list (string * A)) (k : string) : bool :=
  existsb (fun p => String.eqb (fst p) k) d.

Definition dkey {S A} (d : list (string * A)) (k : string) : stM S A :=
  match dget d k with Some v => sret v | None => sraise KeyError end.

(** [struct[i]] *)
Definition lkey {S A} (l : list A) (i : Z) : stM S A := slift (list_get l i).

Definition in_set (s : string) (l : list string) : bool :=
  existsb (String.eqb s) l.

Definition bndcnd {S} (geom : geometry) (fld face : string) : stM S string :=
  f <- dkey (grd_bndcnds geom) fld ;; dkey f face.

Definition bndval {S} (geom : geometry) (fld face : string) : stM S Q :=
  f <- dkey (grd_bndvals geom) fld ;; dkey f face.

(** [data[block, tgt...] = data[src_block, src...]] *)
Definition copy (block : Z) (tgt : list index) (src_block : Z) (src : list index)
  : stM ndarray unit :=
  v <- rd (IInt src_block :: src) ;; wr (IInt block :: tgt) v.

(** [struct[faces[f1]][f2]] *)
Definition diag (struct : list (list (string * Z))) (faces : list (string * Z)) (f1 f2 : string)
  : stM ndarray Z :=
  n <- dkey faces f1 ;; fs <- lkey struct n ;; dkey fs f2.

(** The body of the [for block, faces in enumerate(struct)] loop of
    support._guard_cells_from_data. *)
Definition guard_cells_block (geom : geometry) (bf : nat * list (string * Z)) : stM ndarray unit :=
  let g := guards geom in
  let struct := blk_neighbors geom in
  let I := s_mid g in
  let H := s_hi g in
  let L := s_lo g in
  let A := s_first g in
  let B := s_last g in
  let b := Z.of_nat (fst bf) in
  let faces := snd bf in
  let has := dmem faces in
  (* x-direction (left, right) *)
  swhen (has "right") (n <- dkey faces "right" ;; copy b [I; I; H] n [I; I; A]) ;;;
  swhen (has "left") (n <- dkey faces "left" ;; copy b [I; I; L] n [I; I; B]) ;;;
  (* y-direction (for, aft) *)
  swhen (has "front") (n <- dkey faces "front" ;; copy b [I; H; I] n [I; A; I]) ;;;
  swhen (has "back") (n <- dkey faces "back" ;; copy b [I; L; I] n [I; B; I]) ;;;
  (* z-direction (up, down) *)
  swhen (has "up") (n <- dkey faces "up" ;; copy b [H; I; I] n [A; I; I]) ;;;
  swhen (has "down") (n <- dkey faces "down" ;; copy b [L; I; I] n [B; I; I]) ;;;
  (* xy-directions *)
  swhen (has "right" && has "front")
    (n <- diag struct faces "right" "front" ;; copy b [I; H; H] n [I; A; A]) ;;;
  swhen (has "left" && has "front")
    (n <- diag struct faces "left" "front" ;; copy b [I; H; L] n [I; A; B]) ;;;
  swhen (has "right" && has "back")
    (n <- diag struct faces "right" "back" ;; copy b [I; L; H] n [I; B; A]) ;;;
  swhen (has "left" && has "back")
    (n <- diag struct faces "left" "back" ;; copy b [I; L; L] n [I; B; B]) ;;;
  swhen (Z.eqb (grd_dim geom) 3) (
    (* xyz-directions, up *)
    swhen (has "right" && has "front" && has "up")
      (n <- diag struct faces "right" "front" ;; copy b [H; H; H] n [A; A; A]) ;;;
    swhen (has "left" && has "front" && has "up")
      (n <- diag struct faces "left" "front" ;; copy b [H; H; L] n [A; A; B]) ;;;
    swhen (has "right" && has "back" && has "up")
      (n <- diag struct faces "right" "back" ;; copy b [H; L; H] n [A; B; A]) ;;;
    swhen (has "left" && has "back" && has "up")
      (n <- diag struct faces "left" "back" ;; copy b [H; L; L] n [A; B; B]) ;;;
    (* xyz-directions, down *)
    swhen (has "right" && has "front" && has "down")
      (n <- diag struct faces "right" "front" ;; copy b [L; H; H] n [B; A; A]) ;;;
    swhen (has "left" && has "front" && has "down")
      (n <- diag struct faces "left" "front" ;; copy b [L; H; L] n [B; A; B]) ;;;
    swhen (has "right" && has "back" && has "down")
      (n <- diag struct faces "right" "back" ;; copy b [L; L; H] n [B; B; A]) ;;;
    swhen (has "left" && has "back" && has "down")
      (n <- diag struct faces "left" "back" ;; copy b [L; L; L] n [B; B; B])).

(** support._guard_cells_from_data *)
Definition guard_cells_from_data (geom : geometry) : stM ndarray unit :=
  sfor (enumerate (blk_neighbors geom)) (guard_cells_block geom).

(** One face of support._bound_cells_from_data_velc: [tgt] is the guard
    slab, [mirror] the interior cells reflected into it, and [nn_tgt],
    [nn_src] the target and source of the neumann branch for the velocity
    component normal to the face ([normal]). The [print] calls of the right
    face are output only and are left out. *)
Definition velc_face (geom : geometry) (field : string) (block : Z)
  (faces : list (string * Z)) (face normal : string)
  (tgt mirror nn_tgt nn_src : list index) : stM ndarray unit :=
  swhen (negb (dmem faces face)) (
    bc <- bndcnd geom "velc" face ;;
    if in_set bc ["noslip_ins"; "NOSLIP_INS"] then wr (IInt block :: tgt) (scalar 0)
    else if in_set bc ["slip_ins"; "SLIP_INS"] then
      (if String.eqb field normal then wr (IInt block :: tgt) (scalar 0)
       else copy block tgt block mirror)
    else if in_set bc ["neumann"; "NEUMANN"; "neumann_ins"; "NEUMANN_INS"] then
      (if String.eqb field normal then copy block nn_tgt block nn_src
       else copy block tgt block mirror)
    else sret tt).

Definition rev_sl (a b : Z) : index := ISl (Some a) (Some b) (Some (-1)%Z).

(** support._bound_cells_from_data_velc *)
Definition bound_cells_from_data_velc (geom : geometry) (field : string) : stM ndarray unit :=
  let g := guards geom in
  let I := s_mid g in
  let H := s_hi g in
  let L := s_lo g in
  sfor (enumerate (blk_neighbors geom)) (fun bf =>
    let b := Z.of_nat (fst bf) in
    let faces := snd bf in
    (* x-direction (left, right) *)
    velc_face geom field b faces "right" "fcx2"
      [I; I; H] [I; I; rev_sl (-g-1) (-2*g-1)]
      [I; I; H] [I; I; rev_sl (-g-2) (-2*g-2)] ;;;
    velc_face geom field b faces "left" "fcx2"
      [I; I; L] [I; I; rev_sl (2*g-1) (g-1)]
      [I; I; ISl None (Some (g-1)%Z) None] [I; I; rev_sl (2*g-2) (g-1)] ;;;
    (* y-direction (front, back) *)
    velc_face geom field b faces "front" "fcy2"
      [I; H; I] [I; rev_sl (-g-1) (-2*g-1); I]
      [I; H; I] [I; rev_sl (-g-2) (-2*g-2); I] ;;;
    velc_face geom field b faces "back" "fcy2"
      [I; L; I] [I; rev_sl (2*g-1) (g-1); I]
      [I; ISl None (Some (g-1)%Z) None; I] [I; rev_sl (2*g-2) (g-1); I] ;;;
    swhen (Z.eqb (grd_dim geom) 3) (
      (* z-direction (up, down) *)
      velc_face geom field b faces "up" "fcz2"
        [H; I; I] [rev_sl (-g-1) (-2*g-1); I; I]
        [H; I; I] [rev_sl (-g-2) (-2*g-2); I; I] ;;;
      velc_face geom field b faces "down" "fcz2"
        [L; I; I] [rev_sl (2*g-1) (g-1); I; I]
        [ISl None (Some (g-1)%Z) None; I; I] [rev_sl (2*g-2) (g-1); I; I])).

(** support._bound_cells_from_data_temp *)
Definition bound_cells_from_data_temp (geom : geometry) : stM ndarray unit :=
  let g := guards geom in
  let x := grd_mesh_x geom in
  let I := s_mid g in
  let H := s_hi g in
  let M := rev_sl (-g-1) (-2*g+1) in      (* -g-1:-2*g+1:-1 *)
  sfor (enumerate (blk_neighbors geom)) (fun bf =>
    let b := Z.of_nat (fst bf) in
    let faces := snd bf in
    (* x-direction (left, right) *)
    swhen (negb (dmem faces "right")) (
      bc <- bndcnd geom "temp" "right" ;;
      if in_set bc ["dirichlet_ht"; "DIRICHLET_HT"] then
        bv <- bndval geom "temp" "right" ;;
        m <- rd [IInt b; I; I; M] ;;
        v <- slift (binop Qminus (scalar (2 * bv)) m) ;;
        wr [IInt b; I; I; H] v
      else if in_set bc ["neumann_ht"; "neumann_ht"] then
        x1 <- slift (getv x [IInt b; I; I; H]) ;;
        x2 <- slift (getv x [IInt b; I; I; M]) ;;
        dx <- slift (binop Qminus x1 x2) ;;
        bv <- bndval geom "temp" "right" ;;
        t <- slift (binop Qmult dx (scalar bv)) ;;
        m <- rd [IInt b; I; I; M] ;;
        v <- slift (binop Qplus t m) ;;
        wr [IInt b; I; I; H] v
      else sret tt)).

(** [range(g)] *)
Definition range (g : Z) : list Z := map Z.of_nat (seq 0 (Z.to_nat g)).

Definition ax_x (i : Z) : list index := [s_all; s_all; IInt i].
Definition ax_y (i : Z) : list index := [s_all; IInt i; s_all].
Definition ax_z (i : Z) : list index := [IInt i; s_all; s_all].

(** support._bound_cells_from_data_grid *)
Definition bound_cells_from_data_grid (geom : geometry) (field : string) : stM ndarray unit :=
  let g := guards geom in
  (* l = numpy.linspace(1, g, g): a negative number of samples is refused *)
  swhen (g <? 0)%Z (sraise ValueError_negative_samples) ;;;
  sfor (enumerate (blk_neighbors geom)) (fun bf =>
    let b := Z.of_nat (fst bf) in
    let faces := snd bf in
    (* x-direction (left, right) *)
    swhen (negb (dmem faces "right")) (sfor (range g) (fun i =>
      (* data[b,:,:,-i-1] = data[b,:,:,-g-1] + (data[b,:,:,-g-1] - data[b,:,:,-g-2]) * (g - i) *)
      a <- rd (IInt b :: ax_x (-g-1)) ;; a2 <- rd (IInt b :: ax_x (-g-2)) ;;
      d <- slift (binop Qminus a a2) ;; t <- slift (binop Qmult d (scalar (inject_Z (g - i)))) ;;
      v <- slift (binop Qplus a t) ;; wr (IInt b :: ax_x (-i-1)) v)) ;;;
    swhen (negb (dmem faces "left")) (sfor (range g) (fun i =>
      (* data[b,:,:,i] = data[b,:,:,g] - (data[b,:,:,g+1] - data[b,:,:,g]) * (g - i) *)
      a <- rd (IInt b :: ax_x g) ;; a2 <- rd (IInt b :: ax_x (g+1)) ;;
      d <- slift (binop Qminus a2 a) ;; t <- slift (binop Qmult d (scalar (inject_Z (g - i)))) ;;
      v <- slift (binop Qminus a t) ;; wr (IInt b :: ax_x i) v)) ;;;
    (* y-direction (front, back) *)
    swhen (negb (dmem faces "front")) (sfor (range g) (fun i =>
      a <- rd (IInt b :: ax_y (-g-1)) ;; a2 <- rd (IInt b :: ax_y (-g-2)) ;;
      d <- slift (binop Qminus a a2) ;; t <- slift (binop Qmult d (scalar (inject_Z (g - i)))) ;;
      v <- slift (binop Qplus a t) ;; wr (IInt b :: ax_y (-i-1)) v)) ;;;
    swhen (negb (dmem faces "back")) (sfor (range g) (fun i =>
      a <- rd (IInt b :: ax_y g) ;; a2 <- rd (IInt b :: ax_y (g+1)) ;;
      d <- slift (binop Qminus a2 a) ;; t <- slift (binop Qmult d (scalar (inject_Z (g - i)))) ;;
      v <- slift (binop Qminus a t) ;; wr (IInt b :: ax_y i) v)) ;;;
    swhen (Z.eqb (grd_dim geom) 3) (
      (* z-direction (up, down) *)
      swhen (negb (dmem faces "up")) (sfor (range g) (fun i =>
        a <- rd (IInt b :: ax_z (-g-1)) ;; a2 <- rd (IInt b :: ax_z (-g-2)) ;;
        d <- slift (binop Qminus a a2) ;; t <- slift (binop Qmult d (scalar (inject_Z (g - i)))) ;;
        v <- slift (binop Qplus a t) ;; wr (IInt b :: ax_z (-i-1)) v)) ;;;
      swhen (negb (dmem faces "down")) (sfor (range g) (fun i =>
        a <- rd (IInt b :: ax_z g) ;; a2 <- rd (IInt b :: ax_z (g+1)) ;;
        d <- slift (binop Qminus a2 a) ;; t <- slift (binop Qmult d (scalar (inject_Z (g - i)))) ;;
        v <- slift (binop Qminus a t) ;; wr (IInt b :: ax_z i) v)))).

(** support._bound_cells_from_data_metric (the back face has the source's
    doubled loop). *)
Definition bound_cells_from_data_metric (geom : geometry) (field : string) : stM ndarray unit :=
  let g := guards geom in
  sfor (enumerate (blk_neighbors geom)) (fun bf =>
    let b := Z.of_nat (fst bf) in
    let faces := snd bf in
    (* x-direction (left, right) *)
    swhen (negb (dmem faces "right"))
      (sfor (range g) (fun i => copy b (ax_x (-i-1)) b (ax_x (-g-1)))) ;;;
    swhen (negb (dmem faces "left"))
      (sfor (range g) (fun i => copy b (ax_x i) b (ax_x g))) ;;;
    (* y-direction (front, back) *)
    swhen (negb (dmem faces "front"))
      (sfor (range g) (fun i => copy b (ax_y (-i-1)) b (ax_y (-g-1)))) ;;;
    swhen (negb (dmem faces "back"))
      (sfor (range g) (fun _ => sfor (range g) (fun i => copy b (ax_y i) b (ax_y g)))) ;;;
    swhen (Z.eqb (grd_dim geom) 3) (
      (* z-direction (up, down) *)
      swhen (negb (dmem faces "up"))
        (sfor (range g) (fun i => copy b (ax_z (-i-1)) b (ax_z (-g-1)))) ;;;
      swhen (negb (dmem faces "down"))
        (sfor (range g) (fun i => copy b (ax_z i) b (ax_z g))))).

Definition velc_fields : list string := ["fcx2"; "fcy2"; "fcz2"].
Definition grid_fields : list string :=
  ["xxxl"; "xxxc"; "xxxr"; "yyyl"; "yyyc"; "yyyr"; "zzzl"; "zzzc"; "zzzr"].
Definition metric_fields : list string :=
  ["ddxl"; "ddxc"; "ddxr"; "ddyl"; "ddyc"; "ddyr"; "ddzl"; "ddzc"; "ddzr"].

(** support._bound_cells_from_data *)
Definition bound_cells_from_data (geom : geometry) (field : string) : stM ndarray unit :=
  if in_set field velc_fields then bound_cells_from_data_velc geom field
  else if String.eqb field "temp" then bound_cells_from_data_temp geom
  else if in_set field grid_fields then bound_cells_from_data_grid geom field
  else if in_set field metric_fields then bound_cells_from_data_metric geom field
  else sret tt.

(** ** fields.py : loading a field group, and its getter and setter *)

(** [FieldData._fill_guard] (and [GeometryData._fill_guard], the same body). *)
Definition fill_guard (geom : geometry) (field : string) : stM ndarray unit :=
  guard_cells_from_data geom ;;; bound_cells_from_data geom field.

(** [numpy.zeros(shape, dtype=float)] *)
Definition zeros (sh : list nat) : ndarray := mkArr sh (fun _ => 0%Q).

(** [vel_map[group]] of [_init_process], for [g = int(self._guards / 2)]. *)
Definition vel_map (g : Z) (group : string) : option (list Z) :=
  if String.eqb group "fcx2" then Some [2 * g; 2 * g; 1 * g]%Z
  else if String.eqb group "fcy2" then Some [2 * g; 1 * g; 2 * g]%Z
  else if String.eqb group "fcz2" then Some [1 * g; 2 * g; 2 * g]%Z
  else None.

(** The shape of the array allocated for [file[group]] of shape [sh]:
    [shape[0]] first, then each further length plus 2 (cell centred) or
    plus [vel_map[group][i]] (face centred); [numpy.zeros] refuses a
    negative length. *)
Definition pad_shape (group : string) (g : Z) (sh : list nat) : res (list nat) :=
  match sh with
  | [] => Exc IndexError
  | n0 :: rest =>
      if negb (in_set group velc_fields) then Ok (n0 :: map (fun l => l + 2)%nat rest)
      else
        match vel_map g group with
        | None => Exc KeyError
        | Some vm =>
            ext <-? mapM (fun '(i, l) => a <-? list_get vm (Z.of_nat i) ;; Ok (Z.of_nat l + a)%Z)
                         (enumerate rest) ;;
            if forallb (fun z => 0 <=? z)%Z ext then Ok (n0 :: map Z.to_nat ext)
            else Exc ValueError_negative_dims
      end
  end.

(** [data[:, g:-g, g:-g, g:-g]] *)
Definition interior_ix (g : Z) : list index := [s_all; s_mid g; s_mid g; s_mid g].

(** [g-1:-g] *)
Definition s_face (g : Z) : index := ISl (Some (g - 1)%Z) (Some (- g)%Z) None.

(** The subscript the dataset is assigned to. *)
Definition load_target (g : Z) (group : string) : option (list index) :=
  if negb (in_set group velc_fields) then Some (interior_ix g)
  else if String.eqb group "fcx2" then Some [s_all; s_mid g; s_mid g; s_face g]
  else if String.eqb group "fcy2" then Some [s_all; s_mid g; s_face g; s_mid g]
  else if String.eqb group "fcz2" then Some [s_all; s_face g; s_mid g; s_mid g]
  else None.

(** [a.max()] (or [a.min()]) raises on an empty array. *)
Definition check_nonempty (a : ndarray) : res unit :=
  if existsb (Nat.eqb 0) (shape a) then Exc ValueError_zero_size else Ok tt.

(** One pass of the loop of [FieldData._init_process] over [self._groups]:
    the array stored as [self._<group>] for the dataset [file[group]]
    (the extrema computed after it only raise or not). *)
Definition load_group (geom : geometry) (group : string) (file : ndarray) : res ndarray :=
  let g := guards geom in
  sh <-? pad_shape group g (shape file) ;;
  match load_target g group with
  | None => Exc Exception_field_not_found
  | Some tgt =>
      match (wr tgt file ;;; fill_guard geom group) (zeros sh) with
      | (_, Exc e) => Exc e
      | (data, Ok _) =>
          _ <-? check_nonempty data ;;
          inner <-? getv data (interior_ix g) ;;
          _ <-? check_nonempty inner ;;
          Ok data
      end
  end.

(** [FieldData._get_attr]: [self._guards] is [geometry.blk_guards], and
    [data] the array [getattr(self, attr)]. *)
Definition get_attr (self_guards : Z) (data : ndarray) : res ndarray :=
  getv data (interior_ix (Z.quot self_guards 2)).

(** [FieldData._set_attr], assigning in place to [getattr(self, attr)]. *)
Definition set_attr (self_guards : Z) (value : ndarray) : stM ndarray unit :=
  wr (interior_ix (Z.quot self_guards 2)) value.

Local Close Scope string_scope.

(** ** Notions used in the statements *)

(** [geometry.grd_bndcnds[fld][face]], when both keys exist. *)
Definition bc_lookup (geom : geometry) (fld face : string) : option string :=
  match dget (grd_bndcnds geom) fld with Some f => dget f face | None => None end.

(** The boundary-condition strings the velocity branch acts on. *)
Definition velc_recognized : list string :=
  ["noslip_ins"; "NOSLIP_INS"; "slip_ins"; "SLIP_INS";
   "neumann"; "NEUMANN"; "neumann_ins"; "NEUMANN_INS"]%string.

(** The boundary-condition strings the temperature branch acts on. *)
Definition temp_recognized : list string := ["dirichlet_ht"; "DIRICHLET_HT"; "neumann_ht"]%string.

(** The key table [__make_keys__] builds when no two keys are equal:
    each key with its position. *)
Fixpoint idx_from (n : nat) (l : list rec) : list (Q * nat) :=
  match l with
  | [] => []
  | r :: rs => (key r, n) :: idx_from (S n) rs
  end.

Definition key_le (a b : rec) : Prop := (key a <= key b)%Q.

(** No two records have equal keys (Python [==] on floats). *)
Definition keys_distinct (l : list rec) : Prop := NoDupA Qeq (map key l).

(** What a collection flagged valid keeps: its data sorted by key, and the
    key table built from that data. *)
Definition sd_inv (s : SD) : Prop :=
  sd_valid s = true -> Sorted key_le (sd_data s) /\ sd_keys s = make_keys (sd_data s).

(** A decision procedure for [keys_distinct] on concrete data. *)
Fixpoint distinctb (l : list Q) : bool :=
  match l with
  | [] => true
  | k :: ks => negb (existsb (Qeq_bool k) ks) && distinctb ks
  end.

(** The state [__make_valid__] leaves; every read-through sees its data. *)
Definition validated (s : SD) : SD := fst (make_valid s).

(** [lo <= r.key] and [r.key <= hi], a missing bound being no constraint. *)
Definition lo_ok (lo : option Q) (r : rec) : bool :=
  match lo with None => true | Some a => Qle_bool a (key r) end.

Definition hi_ok (hi : option Q) (r : rec) : bool :=
  match hi with None => true | Some b => Qle_bool (key r) b end.

Definition in_closed (lo hi : option Q) (r : rec) : bool := lo_ok lo r && hi_ok hi r.

(** Some key is [>= lo] (if [lo] is given) and some key is [<= hi] (if [hi]
    is given). *)
Definition bounds_met (lo hi : option Q) (l : list rec) : bool :=
  match lo with None => true | Some a => existsb (fun r => Qle_bool a (key r)) l end &&
  match hi with None => true | Some b => existsb (fun r => Qle_bool (key r) b) l end.

(** [m] keeps the shape [sh] of the array it starts from, and changes only
    cells satisfying [T] (also when it raises). *)
Definition frames {A} (T : list nat -> Prop) (sh : list nat) (m : stM ndarray A) : Prop :=
  forall d, shape d = sh ->
    shape (fst (m d)) = sh /\ forall c, ~ T c -> cell (fst (m d)) c = cell d c.

(** The cells of the right-face guard slab [data[b, g:-g, g:-g, -g:]] of a
    block [b] whose adjacency entry has no right neighbor. *)
Definition temp_slab_cell (geom : geometry) (sh : list nat) (c : list nat) : Prop :=
  exists b faces sels,
    nth_error (blk_neighbors geom) b = Some faces /\ dmem faces "right"%string = false /\
    resolve sh [IInt (Z.of_nat b); s_mid (guards geom); s_mid (guards geom); s_hi (guards geom)]
      = Ok sels /\
    sel_locate sels c <> None.

(** Where a coordinate lies along an axis of extent [n] that has [G] guard
    cells at each end: the lower guards [:G], the interior [G:-G] or the
    upper guards [-G:]. *)
Inductive axcls : Type := Lo | Mid | Hi.

Definition axcls_eqb (a b : axcls) : bool :=
  match a, b with
  | Lo, Lo | Mid, Mid | Hi, Hi => true
  | _, _ => false
  end.

Definition cls (n G v : nat) : axcls :=
  if Nat.ltb v G then Lo else if Nat.ltb (v + G) n then Mid else Hi.

(** The guard slab of a block on face [F], by the position of its
    (z, y, x) coordinates: [right] is [g:-g, g:-g, -g:], [left] is
    [g:-g, g:-g, :g], and so on. *)
Definition face_pat (F : string) : option (axcls * axcls * axcls) :=
  if String.eqb F "right" then Some (Mid, Mid, Hi)
  else if String.eqb F "left" then Some (Mid, Mid, Lo)
  else if String.eqb F "front" then Some (Mid, Hi, Mid)
  else if String.eqb F "back" then Some (Mid, Lo, Mid)
  else if String.eqb F "up" then Some (Hi, Mid, Mid)
  else if String.eqb F "down" then Some (Lo, Mid, Mid)
  else None.

(** The coordinate, in the neighbor, of the interior edge layer facing a
    guard coordinate: upper guards face the first interior layers
    [G:2G] of the neighbor, lower guards its last ones [-2G:-G]. *)
Definition src_coord (n G : nat) (k : axcls) (v : nat) : nat :=
  match k with
  | Hi => v + 2 * G - n
  | Lo => v + n - 2 * G
  | Mid => v
  end.

(** [c] is a cell of the guard slab on face [F] of a block of extent
    [sh3 = [nz; ny; nx]]. *)
Definition face_slab (G : nat) (sh3 : list nat) (F : string) (c : list nat) : bool :=
  match sh3, c, face_pat F with
  | [nz; ny; nx], [z; y; x], Some (kz, ky, kx) =>
      Nat.ltb z nz && Nat.ltb y ny && Nat.ltb x nx &&
      axcls_eqb (cls nz G z) kz && axcls_eqb (cls ny G y) ky && axcls_eqb (cls nx G x) kx
  | _, _, _ => false
  end.

(** The cell of the neighbor's interior edge slab facing the guard cell [c]. *)
Definition face_source (G : nat) (sh3 : list nat) (F : string) (c : list nat) : list nat :=
  match sh3, c, face_pat F with
  | [nz; ny; nx], [z; y; x], Some (kz, ky, kx) =>
      [src_coord nz G kz z; src_coord ny G ky y; src_coord nx G kx x]
  | _, _, _ => c
  end.

(** Every block has its four x and y neighbors and every neighbor id is a
    block of the layout; this holds when no face is a physical boundary. *)
Definition layout_ok (struct : list (list (string * Z))) : bool :=
  forallb (fun faces =>
    forallb (dmem faces) ["left"; "right"; "front"; "back"]%string &&
    forallb (fun kv => (0 <=? snd kv)%Z && (snd kv <? Z.of_nat (length struct))%Z) faces) struct.

(** [m] returns normally from any array of shape [sh], keeps the shape and
    changes only cells satisfying [T]. *)
Definition safe {A} (T : list nat -> Prop) (sh : list nat) (m : stM ndarray A) : Prop :=
  forall d, shape d = sh -> exists a d', m d = (d', Ok a) /\ shape d' = sh /\
    forall c, ~ T c -> cell d' c = cell d c.

(** [m], run normally from shape [sh], establishes [Q]; or preserves it. *)
Definition est {A} (sh : list nat) (Q : ndarray -> Prop) (m : stM ndarray A) : Prop :=
  forall d a d', shape d = sh -> m d = (d', Ok a) -> Q d'.

Definition pres {A} (sh : list nat) (Q : ndarray -> Prop) (m : stM ndarray A) : Prop :=
  forall d a d', shape d = sh -> Q d -> m d = (d', Ok a) -> Q d'.

(** The five slices of support.py, [:g], [g:-g], [-g:], [g:2*g] and
    [-2*g:-g], with the positions they select on an axis of extent [n]. *)
Inductive skind : Type := KL | KI | KH | KA | KB.

Definition kidx (G : nat) (k : skind) : index :=
  match k with
  | KL => s_lo (Z.of_nat G)
  | KI => s_mid (Z.of_nat G)
  | KH => s_hi (Z.of_nat G)
  | KA => s_first (Z.of_nat G)
  | KB => s_last (Z.of_nat G)
  end.

Definition klist (n G : nat) (k : skind) : list nat :=
  match k with
  | KL => seq 0 G
  | KI => seq G (n - 2 * G)
  | KH => seq (n - G) G
  | KA => seq G G
  | KB => seq (n - 2 * G) G
  end.

Definition kcls (k : skind) : axcls :=
  match k with KL => Lo | KH => Hi | _ => Mid end.

(** The target and source slices of one axis of a face copy. *)
Definition pair_ok (kt ks : skind) : bool :=
  match kt, ks with
  | KI, KI | KH, KA | KL, KB => true
  | _, _ => false
  end.

Definition interior3 (kz ky kx : axcls) : bool :=
  axcls_eqb kz Mid && axcls_eqb ky Mid && axcls_eqb kx Mid.

(** Cells [b, z, y, x] of the region with the given axis positions. *)
Definition T_pat (nz ny nx G b : nat) (kz ky kx : axcls) (c : list nat) : Prop :=
  exists z y x, c = [b; z; y; x] /\ (z < nz /\ y < ny /\ x < nx)%nat /\
    cls nz G z = kz /\ cls ny G y = ky /\ cls nx G x = kx.

(** Guard (non-interior) cells of block [b]. *)
Definition T_blk (nz ny nx G b : nat) (c : list nat) : Prop :=
  exists z y x, c = [b; z; y; x] /\
    interior3 (cls nz G z) (cls ny G y) (cls nx G x) = false.

(** The slab of block [b] with axis positions [kz, ky, kx] holds the
    interior edge slab of block [m] it faces. *)
Definition slabQ (nz ny nx G b m : nat) (kz ky kx : axcls) (d : ndarray) : Prop :=
  forall z y x, (z < nz)%nat -> (y < ny)%nat -> (x < nx)%nat ->
    cls nz G z = kz -> cls ny G y = ky -> cls nx G x = kx ->
    cell d [b; z; y; x] =
    cell d [m; src_coord nz G kz z; src_coord ny G ky y; src_coord nx G kx x].

(** A lookup that returns [a] without touching the array. *)
Definition pure_ok {A} (m : stM ndarray A) (a : A) : Prop := forall d, m d = (d, Ok a).

(** Guard cells of block [b] outside the region [kz, ky, kx]. *)
Definition T_other (nz ny nx G b : nat) (kz ky kx : axcls) (c : list nat) : Prop :=
  exists kz' ky' kx', T_pat nz ny nx G b kz' ky' kx' c /\ interior3 kz' ky' kx' = false /\
    (kz', ky', kx') <> (kz, ky, kx).

(** The 2x2 periodic block layout: block 0 at (0,0), 1 at (1,0), 2 at
    (0,1) and 3 at (1,1), with one guard layer per side. *)
Definition periodic2x2 : geometry :=
  mkGeom 2
    [[("left", 1); ("right", 1); ("front", 2); ("back", 2)];
     [("left", 0); ("right", 0); ("front", 3); ("back", 3)];
     [("left", 3); ("right", 3); ("front", 0); ("back", 0)];
     [("left", 2); ("right", 2); ("front", 1); ("back", 1)]]%string%Z
    2 [] [] (mkArr [] (fun _ => 0)).

Definition blocks2x2 : ndarray :=
  mkArr [4; 3; 3; 3]%nat (fun c => inject_Z (Z.of_nat (fold_left (fun a v => 10 * a + v) c 0)%nat)).

(** A position [x] on an axis of length [n] lies inside the [g] guard
    layers of both ends. *)
Definition interior_axis (g : Z) (n x : nat) : Prop :=
  (g <= Z.of_nat x /\ Z.of_nat x + g < Z.of_nat n)%Z.

(** A cell [b, z, y, x] of a block array of shape [sh] is an interior
    cell: all three spatial positions are inside the guard layers. *)
Definition interior_cell (g : Z) (sh c : list nat) : Prop :=
  match sh, c with
  | _ :: n1 :: n2 :: n3 :: _, _ :: x1 :: x2 :: x3 :: _ =>
      interior_axis g n1 x1 /\ interior_axis g n2 x2 /\ interior_axis g n3 x3
  | _, _ => False
  end.

(** Position [x] of an axis of length [n] is picked by the index [ix]. *)
Definition selected (n : nat) (ix : index) (x : nat) : Prop :=
  match ix with
  | IInt i => py_index n i = Ok x
  | ISl a b st => exists l, slice_indices n a b st = Ok l /\ In x l
  end.

(** A resolved selection picks no position twice. *)
Definition sel_nodup (s : sel) : Prop :=
  match s with SInt _ => True | SSl l => NoDup l end.

(** Every slice of an index has the default step. *)
Definition ix_step1 (ix : list index) : Prop :=
  Forall (fun x => match x with IInt _ => True | ISl _ _ st => st = None end) ix.

(** * Properties *)

(** ** Python slices on positive steps *)

Lemma srange_step1 : forall fuel i stop,
  (0 <= i)%Z -> (stop - i <= Z.of_nat fuel)%Z ->
  srange fuel i stop 1 = map Z.of_nat (seq (Z.to_nat i) (Z.to_nat (stop - i))).
Proof.
  induction fuel as [|f IH]; intros i stop Hi Hf; simpl.
  - replace (Z.to_nat (stop - i)) with 0%nat by lia. reflexivity.
  - destruct (Z.ltb_spec i stop) as [Hlt|Hge]; simpl.
    + replace (Z.to_nat (stop - i)) with (S (Z.to_nat (stop - (i + 1)))) by lia.
      simpl. rewrite Z2Nat.id by lia. f_equal.
      rewrite IH by lia. f_equal. f_equal. lia.
    + replace (Z.to_nat (stop - i)) with 0%nat by lia. reflexivity.
Qed.

Lemma slice_adjust_step1 : forall len o dflt,
  (0 <= dflt <= len)%Z -> (0 <= slice_adjust len 1 o dflt <= len)%Z.
Proof.
  intros len [v|] dflt H; simpl; [|lia].
  destruct (Z.ltb_spec v 0); [destruct (Z.ltb_spec (v + len) 0)|destruct (Z.leb_spec len v)];
    simpl; lia.
Qed.

Lemma map_to_nat_of_nat : forall l, map Z.to_nat (map Z.of_nat l) = l.
Proof. induction l; simpl; [reflexivity|]. rewrite Nat2Z.id, IHl. reflexivity. Qed.

Lemma slice_indices_step1 : forall n start stop,
  slice_indices n start stop None =
  Ok (seq (Z.to_nat (slice_adjust (Z.of_nat n) 1 start 0))
          (Z.to_nat (slice_adjust (Z.of_nat n) 1 stop (Z.of_nat n)
                     - slice_adjust (Z.of_nat n) 1 start 0))).
Proof.
  intros n start stop. unfold slice_indices. cbv beta iota zeta.
  change (1 =? 0)%Z with false. change (1 <? 0)%Z with false. cbv beta iota.
  pose proof (slice_adjust_step1 (Z.of_nat n) start 0) as Ha.
  pose proof (slice_adjust_step1 (Z.of_nat n) stop (Z.of_nat n)) as Hb.
  rewrite srange_step1 by lia. rewrite map_to_nat_of_nat. reflexivity.
Qed.

Lemma mapM_nth_seq : forall {A} (l : list A) a k,
  (a + k <= length l)%nat ->
  mapM (fun p => match nth_error l p with Some x => Ok x | None => Exc IndexError end) (seq a k)
  = Ok (firstn k (skipn a l)).
Proof.
  intros A l a k. revert a. induction k as [|k IH]; intros a H; simpl.
  - reflexivity.
  - destruct (nth_error l a) eqn:E.
    + rewrite IH by lia. simpl.
      assert (Hs : skipn a l = a0 :: skipn (S a) l).
      { clear IH H. revert a E. induction l as [|y ys IHl]; intros [|a'] E; simpl in *;
          try discriminate.
        - inversion E; reflexivity.
        - apply IHl; assumption. }
      rewrite Hs. reflexivity.
    + apply nth_error_None in E. lia.
Qed.

Lemma list_slice_step1 : forall {A} (l : list A) start stop,
  list_slice l start stop None =
  let len := Z.of_nat (length l) in
  let a := slice_adjust len 1 start 0 in
  let b := slice_adjust len 1 stop len in
  Ok (firstn (Z.to_nat (b - a)) (skipn (Z.to_nat a) l)).
Proof.
  intros A l start stop. unfold list_slice. rewrite slice_indices_step1. simpl.
  pose proof (slice_adjust_step1 (Z.of_nat (length l)) start 0) as Ha.
  pose proof (slice_adjust_step1 (Z.of_nat (length l)) stop (Z.of_nat (length l))) as Hb.
  apply mapM_nth_seq. lia.
Qed.

Lemma mapM_ok : forall {A B} (f : A -> res B) (P : A -> B -> Prop) (l : list A),
  (forall x, In x l -> exists y, f x = Ok y /\ P x y) ->
  exists ys, mapM f l = Ok ys /\ Forall2 P l ys.
Proof.
  intros A B f P l. induction l as [|x xs IH]; intros H; simpl.
  - exists []. split; [reflexivity | constructor].
  - destruct (H x (or_introl eq_refl)) as [y [Hy Py]].
    destruct IH as [ys [Hys Pys]]; [intros; apply H; right; assumption|].
    rewrite Hy. simpl. rewrite Hys. simpl. exists (y :: ys). split; [reflexivity|].
    constructor; assumption.
Qed.

Lemma list_slice_prefix : forall {A} (l : list A) k,
  (0 <= k)%Z -> list_slice l None (Some k) None = Ok (firstn (Z.to_nat k) l).
Proof.
  intros A l k Hk. rewrite list_slice_step1. simpl.
  destruct (Z.ltb_spec k 0); [lia|].
  destruct (Z.leb_spec (Z.of_nat (length l)) k); simpl; f_equal.
  - rewrite Z.sub_0_r, Nat2Z.id, firstn_all2; [|lia].
    rewrite firstn_all2; [reflexivity|lia].
  - rewrite Z.sub_0_r. reflexivity.
Qed.

(** ** Block adjacency (geometry.py) *)

Ltac neighbors_case Hne :=
  simpl; repeat match goal with |- context [(0 <=? ?v)%Z] => destruct (0 <=? v)%Z eqn:? end;
  simpl; eexists; (split; [reflexivity|]);
  (split; [intros d Hd; do 6 (destruct d as [|d];
             [cbn; repeat match goal with H : (0 <=? _)%Z = _ |- _ => rewrite H end; reflexivity|]);
           lia|]);
  unfold dget; lazymatch goal with |- context [dict_of_pairs ?l] =>
    let D := fresh "D" in remember (dict_of_pairs l) as D eqn:HD; vm_compute in HD; subst D end;
  cbn [find fst snd]; rewrite ?Hne by tauto; reflexivity.

Lemma neighbor_dict_slots : forall (dim : Z) (struct : list Z),
  (dim = 2 \/ dim = 3)%Z ->
  forall k, ~ In k face_names ->
  exists faces,
    (sl <-? list_slice struct None (Some (2 * dim)%Z) None ;;
     pairs <-? mapM (fun fb => n <-? list_get face_names (Z.of_nat (fst fb)) ;; Ok (n, snd fb))
                    (filter (fun fb => (0 <=? snd fb)%Z) (enumerate sl)) ;;
     Ok (dict_of_pairs pairs)) = Ok faces /\
    (forall d, (d < 6)%nat ->
       dget faces (nth d face_names ""%string) =
       match nth_error struct d with
       | Some v => if (Z.of_nat d <? 2 * dim)%Z && (0 <=? v)%Z then Some v else None
       | None => None
       end) /\
    dget faces k = None.
Proof.
  intros dim struct Hdim k Hk.
  assert (Hne : forall n, In n face_names -> String.eqb n k = false).
  { intros n Hn. apply String.eqb_neq. intros ->. contradiction. }
  simpl in Hne.
  rewrite list_slice_prefix by lia. cbn [rbind].
  destruct Hdim as [-> | ->]; simpl (Z.to_nat _);
  do 6 (destruct struct as [|? struct]; [neighbors_case Hne|]); neighbors_case Hne.
Qed.

(** C6: [_get_neighbors] gives every block a dict with an entry for slot [d]
    (ordered left, right, front, back, up, down) exactly when [d < 2*dim] and
    the slot holds a value [>= 0], that value being the neighbor id; no other
    key occurs, so negative slots, and in 2-D the up and down slots, give no
    entry. *)
Theorem get_neighbors_slots : forall (tree : list (list Z)) (dim : Z),
  (dim = 2 \/ dim = 3)%Z ->
  exists nbrs, get_neighbors tree dim = Ok nbrs /\
  Forall2 (fun struct faces =>
     (forall d, (d < 6)%nat ->
        dget faces (nth d face_names ""%string) =
        match nth_error struct d with
        | Some v => if (Z.of_nat d <? 2 * dim)%Z && (0 <=? v)%Z then Some v else None
        | None => None
        end) /\
     (forall k, ~ In k face_names -> dget faces k = None)) tree nbrs.
Proof.
  intros tree dim Hdim. unfold get_neighbors. apply mapM_ok.
  intros struct _.
  assert (Hk0 : ~ In ""%string face_names) by (simpl; intuition discriminate).
  destruct (neighbor_dict_slots dim struct Hdim _ Hk0) as [faces [Hf [Hd _]]].
  exists faces. split; [exact Hf|]. split; [exact Hd|].
  intros k Hk. destruct (neighbor_dict_slots dim struct Hdim k Hk) as [faces' [Hf' [_ Hk']]].
  rewrite Hf in Hf'. inversion Hf'. subst. exact Hk'.
Qed.

(** C6, 2-D instance of the theorem. *)
Lemma get_neighbors_slots_witness :
  (2 = 2 \/ 2 = 3)%Z /\
  get_neighbors [[1; -1; 2; -3; 5; 6; 0; 7; 8]; [0; 0; 0; 0; 9; 9]]%Z 2 =
    Ok [[("left", 1); ("front", 2)]; [("left", 0); ("right", 0); ("front", 0); ("back", 0)]]%string%Z.
Proof.
  split; [left; reflexivity|].
  destruct (get_neighbors_slots [[1; -1; 2; -3; 5; 6; 0; 7; 8]; [0; 0; 0; 0; 9; 9]]%Z 2
              (or_introl eq_refl)) as [nbrs [H _]].
  rewrite H. rewrite <- H. vm_compute. reflexivity.
Defined.

(** ** Unrecognized field names and boundary conditions (support.py) *)

Lemma sfor_noop : forall {S A} (l : list A) (body : A -> stM S unit),
  (forall x s, body x s = (s, Ok tt)) -> forall s, sfor l body s = (s, Ok tt).
Proof.
  intros S A l body H. induction l as [|x xs IH]; intros s; simpl; [reflexivity|].
  unfold sbind. rewrite H. apply IH.
Qed.

Lemma bndcnd_lookup : forall {S} geom fld face v (s : S),
  bc_lookup geom fld face = Some v -> bndcnd geom fld face s = (s, Ok v).
Proof.
  intros S geom fld face v s H. unfold bc_lookup in H. unfold bndcnd, dkey, sbind.
  destruct (dget (grd_bndcnds geom) fld); [|discriminate].
  unfold sret. rewrite H. reflexivity.
Qed.

Lemma velc_face_unrecognized : forall geom field b faces face normal tgt mirror nn_tgt nn_src bc,
  bc_lookup geom "velc" face = Some bc -> in_set bc velc_recognized = false ->
  forall d, velc_face geom field b faces face normal tgt mirror nn_tgt nn_src d = (d, Ok tt).
Proof.
  intros geom field b faces face normal tgt mirror nn_tgt nn_src bc Hl Hr d.
  unfold velc_face, swhen. destruct (negb (dmem faces face)); [|reflexivity].
  unfold sbind. rewrite (bndcnd_lookup _ _ _ _ _ Hl).
  unfold velc_recognized, in_set in *. simpl in Hr. apply orb_false_elim in Hr as [H1 Hr].
  apply orb_false_elim in Hr as [H2 Hr]. apply orb_false_elim in Hr as [H3 Hr].
  apply orb_false_elim in Hr as [H4 Hr]. apply orb_false_elim in Hr as [H5 Hr].
  apply orb_false_elim in Hr as [H6 Hr]. apply orb_false_elim in Hr as [H7 Hr].
  apply orb_false_elim in Hr as [H8 _].
  simpl. rewrite H1, H2, H3, H4, H5, H6, H7, H8. reflexivity.
Qed.

Lemma seq_noop : forall {S} (m1 m2 : stM S unit),
  (forall s, m1 s = (s, Ok tt)) -> (forall s, m2 s = (s, Ok tt)) ->
  forall s, (m1 ;;; m2) s = (s, Ok tt).
Proof. intros S m1 m2 H1 H2 s. unfold sbind. rewrite H1. apply H2. Qed.

Lemma swhen_noop : forall {S} c (m : stM S unit),
  (forall s, m s = (s, Ok tt)) -> forall s, swhen c m s = (s, Ok tt).
Proof. intros S c m H s. unfold swhen. destruct c; [apply H | reflexivity]. Qed.

Lemma velc_unrecognized_noop : forall geom field,
  (forall face, In face face_names ->
     exists bc, bc_lookup geom "velc" face = Some bc /\ in_set bc velc_recognized = false) ->
  forall d, bound_cells_from_data_velc geom field d = (d, Ok tt).
Proof.
  intros geom field H. unfold bound_cells_from_data_velc. apply sfor_noop. intros bf s.
  assert (F : forall face normal tgt mirror nn_tgt nn_src, In face face_names ->
            forall s, velc_face geom field (Z.of_nat (fst bf)) (snd bf) face normal
                        tgt mirror nn_tgt nn_src s = (s, Ok tt)).
  { intros face normal tgt mirror nn_tgt nn_src Hin s'.
    destruct (H face Hin) as [bc [Hl Hr]]. eapply velc_face_unrecognized; eassumption. }
  repeat (apply seq_noop; [apply F; simpl; tauto | intros ?]).
  apply swhen_noop. intros ?. apply seq_noop; intros ?; apply F; simpl; tauto.
Qed.

Lemma temp_unrecognized_noop : forall geom bc,
  bc_lookup geom "temp" "right" = Some bc -> in_set bc temp_recognized = false ->
  forall d, bound_cells_from_data_temp geom d = (d, Ok tt).
Proof.
  intros geom bc Hl Hr. unfold bound_cells_from_data_temp. apply sfor_noop. intros bf s.
  apply swhen_noop. clear s. intros s. unfold sbind. rewrite (bndcnd_lookup _ _ _ _ _ Hl).
  unfold temp_recognized, in_set in Hr. simpl in Hr.
  apply orb_false_elim in Hr as [H1 Hr]. apply orb_false_elim in Hr as [H2 Hr].
  apply orb_false_elim in Hr as [H3 _].
  simpl. rewrite H1, H2, H3. reflexivity.
Qed.

(** C8. A field name outside the recognized sets (fcx2/fcy2/fcz2, temp,
    the grid and the metric mesh names) makes the boundary-cell fill return
    without error and leave the array unchanged. For a block face whose
    declared condition string is not recognized, the fill of that face does
    nothing; so when the declared strings of a velocity field (all faces) or
    of the temperature field (its right face, the only one it reads) are all
    unrecognized, the whole fill returns without error and the array is
    unchanged. *)
Theorem bound_cells_unrecognized_noop :
  (forall geom field d,
     in_set field velc_fields = false -> field <> "temp"%string ->
     in_set field grid_fields = false -> in_set field metric_fields = false ->
     bound_cells_from_data geom field d = (d, Ok tt)) /\
  (forall geom field b faces face normal tgt mirror nn_tgt nn_src bc d,
     bc_lookup geom "velc" face = Some bc -> in_set bc velc_recognized = false ->
     velc_face geom field b faces face normal tgt mirror nn_tgt nn_src d = (d, Ok tt)) /\
  (forall geom field d,
     in_set field velc_fields = true ->
     (forall face, In face face_names ->
        exists bc, bc_lookup geom "velc" face = Some bc /\ in_set bc velc_recognized = false) ->
     bound_cells_from_data geom field d = (d, Ok tt)) /\
  (forall geom bc d,
     bc_lookup geom "temp" "right" = Some bc -> in_set bc temp_recognized = false ->
     bound_cells_from_data geom "temp" d = (d, Ok tt)).
Proof.
  split; [|split; [|split]].
  - intros geom field d H1 H2 H3 H4. unfold bound_cells_from_data.
    rewrite H1, H3, H4. apply String.eqb_neq in H2. rewrite H2. reflexivity.
  - intros. eapply velc_face_unrecognized; eassumption.
  - intros geom field d H1 H. unfold bound_cells_from_data. rewrite H1.
    apply velc_unrecognized_noop. exact H.
  - intros geom bc d Hl Hr. unfold bound_cells_from_data. simpl.
    eapply temp_unrecognized_noop; eassumption.
Qed.

Lemma bound_cells_unrecognized_noop_witness :
  let geom := mkGeom 2 [[]]%string 3
      [("velc", [("left", "periodic"); ("right", "periodic"); ("front", "periodic");
                 ("back", "periodic"); ("up", "periodic"); ("down", "periodic")]);
       ("temp", [("right", "outflow")])]%string
      [] (mkArr [1; 3; 3; 3]%nat (fun _ => 0%Q)) in
  let d := mkArr [1; 3; 3; 3]%nat (fun c => inject_Z (Z.of_nat (fold_left Nat.add c 0%nat))) in
  bound_cells_from_data geom "dens" d = (d, Ok tt) /\
  velc_face geom "fcx2" 0 [] "right" "fcx2" [s_mid 1; s_mid 1; s_hi 1] [s_mid 1; s_mid 1; s_lo 1]
    [s_mid 1; s_mid 1; s_hi 1] [s_mid 1; s_mid 1; s_lo 1] d = (d, Ok tt) /\
  bound_cells_from_data geom "fcy2" d = (d, Ok tt) /\
  bound_cells_from_data geom "temp" d = (d, Ok tt).
Proof.
  intros geom d. destruct bound_cells_unrecognized_noop as [P1 [P2 [P3 P4]]].
  split; [|split; [|split]].
  - apply P1; [reflexivity | discriminate | reflexivity | reflexivity].
  - apply (P2 geom _ _ _ _ _ _ _ _ _ "periodic"%string); reflexivity.
  - apply P3; [reflexivity|]. intros face Hin. exists "periodic"%string.
    simpl in Hin. repeat (destruct Hin as [<- | Hin]; [split; reflexivity|]). destruct Hin.
  - apply (P4 geom "outflow"%string); reflexivity.
Defined.

(** ** Duplicate keys through extend (collections.py) *)

(** C1. [extend] checks the incoming keys only against the keys already
    stored, so a batch holding the same key twice is accepted, and the
    read-through then yields two records with key 1: the keys seen are not
    strictly ascending. *)
Theorem extend_duplicate_batch :
  let r := mkRec 1 [] in
  exists s, extend [r; r] (sd_init []) = (s, Ok tt) /\
            snd (iter s) = Ok [r; r] /\
            map key [r; r] = [1; 1]%Q.
Proof.
  intros r. eexists. split; [reflexivity|]. split; reflexivity.
Qed.

(** ** The Dirichlet temperature fill (support.py) *)

(** C7. The Dirichlet branch reads the mirror as [-g-1:-2*g+1:-1], where the
    velocity branch uses [-g-1:-2*g-1:-1]. With the two guard layers that
    geometry.py fixes ([blk_guards = 2], [g = 1]) that slice is empty and the
    assignment to the one-cell guard slab raises a broadcast ValueError. With
    [g = 3] it holds one cell, so all three guard layers get [2*V] minus the
    first interior cell, not minus their mirrors. *)
Theorem temp_dirichlet_mirror_slice :
  let geom g := mkGeom g [[]]%string 3
      [("temp", [("right", "dirichlet_ht")])]%string
      [("temp", [("right", 5)])]%string%Q
      (mkArr [1; 3; 3; 3]%nat (fun _ => 0%Q)) in
  let data n := mkArr [1; n; n; n]%nat (fun c => inject_Z (Z.of_nat (nth 3 c 0%nat))) in
  snd (bound_cells_from_data (geom 2%Z) "temp" (data 3%nat)) = Exc ValueError_broadcast /\
  exists d', bound_cells_from_data (geom 6%Z) "temp" (data 9%nat) = (d', Ok tt) /\
    Qeq_bool (cell d' [0; 4; 4; 7]%nat) 5 = true /\
    Qeq_bool (2 * 5 - cell (data 9%nat) [0; 4; 4; 4]%nat) 6 = true.
Proof.
  intros geom data. split; [vm_compute; reflexivity|].
  eexists. split; [vm_compute; reflexivity|]. split; vm_compute; reflexivity.
Qed.

(** ** The key table and the stable sort (collections.py) *)

Lemma insert_by_key_perm : forall x l, Permutation (insert_by_key x l) (x :: l).
Proof.
  intros x l. induction l as [|y ys IH]; simpl; [reflexivity|].
  destruct (Qle_bool (key x) (key y)); [reflexivity|].
  eapply perm_trans; [apply perm_skip, IH | apply perm_swap].
Qed.

Lemma sort_by_key_perm : forall l, Permutation (sort_by_key l) l.
Proof.
  induction l as [|x xs IH]; simpl; [reflexivity|].
  eapply perm_trans; [apply insert_by_key_perm | apply perm_skip, IH].
Qed.

Lemma Qle_bool_false_le : forall a b, Qle_bool a b = false -> (b <= a)%Q.
Proof.
  intros a b H. apply Qlt_le_weak, Qnot_le_lt. intros Hle.
  apply Qle_bool_iff in Hle. congruence.
Qed.

Lemma insert_by_key_sorted : forall x l, Sorted key_le l -> Sorted key_le (insert_by_key x l).
Proof.
  intros x l. induction l as [|y ys IH]; intros Hs; simpl.
  - constructor; constructor.
  - apply Sorted_inv in Hs as [Hys Hhd].
    destruct (Qle_bool (key x) (key y)) eqn:E.
    + constructor; [constructor; assumption|]. constructor. apply Qle_bool_iff. exact E.
    + constructor; [apply IH; exact Hys|].
      destruct ys as [|z zs]; simpl.
      * constructor. apply Qle_bool_false_le. exact E.
      * destruct (Qle_bool (key x) (key z)); constructor.
        -- apply Qle_bool_false_le. exact E.
        -- inversion Hhd; assumption.
Qed.

Lemma sort_by_key_sorted : forall l, Sorted key_le (sort_by_key l).
Proof. induction l; simpl; [constructor | apply insert_by_key_sorted; assumption]. Qed.

Lemma keys_distinct_sort : forall l, keys_distinct l -> keys_distinct (sort_by_key l).
Proof.
  intros l H. unfold keys_distinct in *.
  apply (@PermutationA_preserves_NoDupA _ Qeq Q_Setoid (map key l)); [|exact H].
  apply Permutation_PermutationA; [exact Q_Setoid|].
  apply Permutation_map. symmetry. apply sort_by_key_perm.
Qed.

Lemma make_keys_fold : forall l n acc,
  NoDupA Qeq (map key l) -> (forall r, In r l -> od_mem acc (key r) = false) ->
  fold_left (fun acc ir => od_set acc (key (snd ir)) (fst ir)) (combine (seq n (length l)) l) acc
  = acc ++ idx_from n l.
Proof.
  induction l as [|r rs IH]; intros n acc Hd Hm; simpl.
  - rewrite app_nil_r. reflexivity.
  - inversion Hd as [|k ks Hnin Hd' [Hk Hks]]; subst.
    unfold od_set at 2. rewrite (Hm r (or_introl eq_refl)).
    rewrite IH; [rewrite <- app_assoc; reflexivity | exact Hd' |].
    intros r' Hin. unfold od_mem. rewrite existsb_app. simpl.
    pose proof (Hm r' (or_intror Hin)) as Hr'. unfold od_mem in Hr'. rewrite Hr'. simpl.
    destruct (Qeq_bool (key r) (key r')) eqn:E; [|reflexivity].
    exfalso. apply Hnin. apply Qeq_bool_iff in E.
    apply InA_alt. exists (key r'). split; [exact E | apply in_map; exact Hin].
Qed.

Lemma make_keys_distinct : forall l, keys_distinct l -> make_keys l = idx_from 0 l.
Proof.
  intros l H. unfold make_keys, enumerate. apply make_keys_fold; [exact H | reflexivity].
Qed.

Lemma find_app_first : forall {A} (P : A -> bool) l1 x l2,
  Forall (fun y => P y = false) l1 -> P x = true -> find P (l1 ++ x :: l2) = Some x.
Proof.
  intros A P l1 x l2 H Hx. induction H as [|y ys Hy _ IH]; simpl.
  - rewrite Hx. reflexivity.
  - rewrite Hy. exact IH.
Qed.

Lemma find_all_false : forall {A} (P : A -> bool) l,
  Forall (fun y => P y = false) l -> find P l = None.
Proof. intros A P l H. induction H as [|y ys Hy _ IH]; simpl; [reflexivity | rewrite Hy; exact IH]. Qed.

(** Searching the key table is searching the data. *)
Lemma find_idx_from : forall (P : Q -> bool) d n,
  match find (fun x => P (fst x)) (idx_from n d) with
  | Some x => exists d1 r d2, d = d1 ++ r :: d2 /\ x = (key r, (n + length d1)%nat) /\
              P (key r) = true /\ Forall (fun y => P (key y) = false) d1
  | None => Forall (fun y => P (key y) = false) d
  end.
Proof.
  intros P d. induction d as [|r rs IH]; intros n; simpl; [constructor|].
  destruct (P (key r)) eqn:E.
  - exists [], r, rs. rewrite Nat.add_0_r. repeat split; auto.
  - specialize (IH (S n)). destruct (find (fun x => P (fst x)) (idx_from (S n) rs)).
    + destruct IH as [d1 [r' [d2 [-> [-> [Hr Hf]]]]]].
      exists (r :: d1), r', d2. simpl. rewrite Nat.add_succ_r. repeat split; auto.
    + constructor; assumption.
Qed.

Lemma idx_from_app : forall d1 d2 n,
  idx_from n (d1 ++ d2) = idx_from n d1 ++ idx_from (n + length d1) d2.
Proof.
  induction d1 as [|r rs IH]; intros d2 n; simpl.
  - rewrite Nat.add_0_r. reflexivity.
  - rewrite IH, Nat.add_succ_r. reflexivity.
Qed.

(** Searching the key table from its end finds the last match. *)
Lemma find_rev_idx_from : forall (P : Q -> bool) d n,
  match find (fun x => P (fst x)) (rev (idx_from n d)) with
  | Some x => exists d1 r d2, d = d1 ++ r :: d2 /\ x = (key r, (n + length d1)%nat) /\
              P (key r) = true /\ Forall (fun y => P (key y) = false) d2
  | None => Forall (fun y => P (key y) = false) d
  end.
Proof.
  intros P d n. induction d as [|r d IH] using rev_ind; simpl; [constructor|].
  rewrite idx_from_app, rev_app_distr. simpl.
  destruct (P (key r)) eqn:E.
  - exists d, r, []. repeat split; auto.
  - destruct (find (fun x => P (fst x)) (rev (idx_from n d))).
    + destruct IH as [d1 [r' [d2 [-> [-> [Hr Hf]]]]]].
      exists d1, r', (d2 ++ [r]). rewrite <- app_assoc. simpl.
      repeat split; auto. apply Forall_app. split; [exact Hf | constructor; auto].
    + apply Forall_app. split; [exact IH | constructor; auto].
Qed.

(** [__make_valid__] yields a valid state with sorted data, distinct keys
    and the key table of that data. *)
Lemma validated_spec : forall s, sd_inv s -> keys_distinct (sd_data s) ->
  make_valid s = (validated s, Ok tt) /\ sd_valid (validated s) = true /\
  Sorted key_le (sd_data (validated s)) /\ keys_distinct (sd_data (validated s)) /\
  sd_keys (validated s) = idx_from 0 (sd_data (validated s)).
Proof.
  intros s Hi Hd. unfold validated, make_valid.
  destruct (sd_valid s) eqn:E; simpl.
  - destruct (Hi E) as [Hs Hk]. rewrite <- make_keys_distinct by exact Hd.
    repeat split; auto.
  - pose proof (keys_distinct_sort _ Hd) as Hd'.
    repeat split; auto using sort_by_key_sorted. apply make_keys_distinct. exact Hd'.
Qed.

Lemma nth_error_middle : forall {A} (l1 : list A) x l2, nth_error (l1 ++ x :: l2) (length l1) = Some x.
Proof. intros A l1 x l2. rewrite nth_error_app2, Nat.sub_diag by lia. reflexivity. Qed.

(** ** Float lookup [S[k]] (collections.py) *)

(** C4 (amended). The float lookup is not an exact-match lookup. On a
    collection whose flagged-valid state is consistent and whose keys are
    distinct, [S[k]] first re-sorts (the read-through is then in ascending
    key order) and returns the singleton of the first record of the
    read-through whose key is [>= k], so the record with the least key
    [>= k]; with no such record it raises StopIteration, not KeyError. *)
Theorem getitem_float_first_ge : forall s k,
  sd_inv s -> keys_distinct (sd_data s) ->
  Sorted key_le (sd_data (validated s)) /\
  getitem (KFloat k) s =
    (validated s,
     match find (fun r => Qle_bool k (key r)) (sd_data (validated s)) with
     | Some r => Ok (from_sorted [r])
     | None => Exc StopIteration
     end).
Proof.
  intros s k Hi Hd. destruct (validated_spec s Hi Hd) as [Hm [_ [Hs [_ Hk]]]].
  split; [exact Hs|]. unfold getitem, sbind. rewrite Hm. cbv beta iota.
  unfold first_true. rewrite Hk.
  pose proof (find_idx_from (fun q => Qle_bool k q) (sd_data (validated s)) 0) as H.
  destruct (find (fun x => Qle_bool k (fst x)) (idx_from 0 (sd_data (validated s)))).
  - destruct H as [d1 [r [d2 [Hd' [-> [Hr Hf]]]]]]. simpl. rewrite Hd'.
    rewrite nth_error_middle, (find_app_first _ _ _ _ Hf Hr). reflexivity.
  - simpl. rewrite (find_all_false _ _ H). reflexivity.
Qed.

Lemma getitem_float_first_ge_witness :
  let s := sd_init [mkRec 2 []; mkRec 1 []] in
  (sd_inv s /\ keys_distinct (sd_data s)) /\
  Sorted key_le (sd_data (validated s)) /\
  getitem (KFloat (3#2)) s = (validated s, Ok (from_sorted [mkRec 2 []])).
Proof.
  intros s.
  assert (Hi : sd_inv s) by (intros H; discriminate H).
  assert (Hd : keys_distinct (sd_data s)).
  { unfold keys_distinct. simpl. constructor; [|constructor; [|constructor]].
    - intros Hin. inversion Hin as [y l Hy | y l Hy]; subst; [discriminate Hy | inversion Hy].
    - intros Hin. inversion Hin. }
  split; [split; assumption|].
  destruct (getitem_float_first_ge s (3#2) Hi Hd) as [Hs Hg].
  split; [exact Hs|]. rewrite Hg. reflexivity.
Defined.

(** C4, counterexample: with keys 1.0 and 2.0, [S[1.5]] returns the record
    keyed 2.0 instead of failing, though no key equals 1.5. *)
Lemma getitem_float_not_exact :
  let s := from_sorted [mkRec 1 []; mkRec 2 []] in
  getitem (KFloat (3#2)) s = (s, Ok (from_sorted [mkRec 2 []])) /\
  forallb (fun r => negb (Qeq_bool (key r) (3#2))) (sd_data s) = true.
Proof. split; reflexivity. Qed.

(** ** Float-bounded slices [S[lo:hi]] (collections.py) *)

Lemma key_le_trans : forall a b c, key_le a b -> key_le b c -> key_le a c.
Proof. unfold key_le. intros a b c. apply Qle_trans. Qed.

Lemma StronglySorted_app_cross : forall {A} (R : A -> A -> Prop) l1 l2,
  StronglySorted R (l1 ++ l2) -> forall x y, In x l1 -> In y l2 -> R x y.
Proof.
  intros A R l1 l2. induction l1 as [|z zs IH]; simpl; [contradiction|].
  intros H x y Hx Hy. inversion H as [|? ? Hs Hf]; subst.
  destruct Hx as [<- | Hx].
  - rewrite Forall_forall in Hf. apply Hf, in_or_app. right. exact Hy.
  - exact (IH Hs x y Hx Hy).
Qed.

Lemma existsb_all_false : forall {A} (P : A -> bool) l,
  Forall (fun y => P y = false) l -> existsb P l = false.
Proof. intros A P l H. induction H as [|y ys Hy _ IH]; simpl; [reflexivity | rewrite Hy; exact IH]. Qed.

Lemma firstn_length_app : forall {A} (l1 l2 : list A), firstn (length l1) (l1 ++ l2) = l1.
Proof. intros A l1 l2. induction l1; simpl; [reflexivity | f_equal; assumption]. Qed.

Lemma skipn_length_app : forall {A} (l1 l2 : list A), skipn (length l1) (l1 ++ l2) = l2.
Proof. intros A l1 l2. induction l1; simpl; [reflexivity | assumption]. Qed.

(** Where the lower bound lands: the first key [>= a]. *)
Lemma lo_search : forall a d, Sorted key_le d ->
  match first_true (fun x => Qle_bool a (fst x)) (idx_from 0 d) with
  | Ok p => (snd p <= length d)%nat /\
            Forall (fun r => lo_ok (Some a) r = false) (firstn (snd p) d) /\
            Forall (fun r => lo_ok (Some a) r = true) (skipn (snd p) d) /\
            existsb (fun r => Qle_bool a (key r)) d = true
  | Exc e => e = StopIteration /\ existsb (fun r => Qle_bool a (key r)) d = false
  end.
Proof.
  intros a d Hs. apply Sorted_StronglySorted in Hs; [|exact key_le_trans].
  unfold first_true.
  pose proof (find_idx_from (fun q => Qle_bool a q) d 0) as H.
  destruct (find (fun x => Qle_bool a (fst x)) (idx_from 0 d)) as [x|].
  - destruct H as [d1 [r [d2 [-> [-> [Hr Hf]]]]]]. simpl.
    rewrite firstn_length_app, skipn_length_app, length_app. simpl.
    split; [lia|]. split; [exact Hf|]. split.
    + constructor; [exact Hr|]. apply Forall_forall. intros y Hy.
      apply Qle_bool_iff. apply Qle_bool_iff in Hr. eapply Qle_trans; [exact Hr|].
      change (key_le r y). apply (StronglySorted_app_cross _ (d1 ++ [r]) d2); [rewrite <- app_assoc; exact Hs| |exact Hy].
      apply in_or_app. right. left. reflexivity.
    + apply existsb_exists. exists r. split; [apply in_or_app; right; left; reflexivity | exact Hr].
  - split; [reflexivity|]. apply existsb_all_false. exact H.
Qed.

(** Where the upper bound lands: one past the last key [<= b]. *)
Lemma hi_search : forall b d, Sorted key_le d ->
  match first_true (fun x => Qle_bool (fst x) b) (rev (idx_from 0 d)) with
  | Ok p => (S (snd p) <= length d)%nat /\
            Forall (fun r => hi_ok (Some b) r = true) (firstn (S (snd p)) d) /\
            Forall (fun r => hi_ok (Some b) r = false) (skipn (S (snd p)) d) /\
            existsb (fun r => Qle_bool (key r) b) d = true
  | Exc e => e = StopIteration /\ existsb (fun r => Qle_bool (key r) b) d = false
  end.
Proof.
  intros b d Hs. apply Sorted_StronglySorted in Hs; [|exact key_le_trans].
  unfold first_true.
  pose proof (find_rev_idx_from (fun q => Qle_bool q b) d 0) as H.
  destruct (find (fun x => Qle_bool (fst x) b) (rev (idx_from 0 d))) as [x|].
  - destruct H as [d1 [r [d2 [-> [-> [Hr Hf]]]]]].
    change (snd (key r, (0 + length d1)%nat)) with (length d1). unfold hi_ok.
    replace (d1 ++ r :: d2) with ((d1 ++ [r]) ++ d2) by (rewrite <- app_assoc; reflexivity).
    replace (S (length d1)) with (length (d1 ++ [r])) by (rewrite length_app; simpl; lia).
    rewrite firstn_length_app, skipn_length_app, !length_app.
    split; [lia|]. split; [|split; [exact Hf|]].
    + apply Forall_app. split; [|constructor; [exact Hr | constructor]].
      apply Forall_forall. intros y Hy. apply Qle_bool_iff. apply Qle_bool_iff in Hr.
      eapply Qle_trans; [|exact Hr].
      change (key_le y r). apply (StronglySorted_app_cross _ d1 (r :: d2)); [exact Hs | exact Hy | left; reflexivity].
    + apply existsb_exists. exists r. split; [apply in_or_app; left; apply in_or_app; right; left; reflexivity | exact Hr].
  - split; [reflexivity|]. apply existsb_all_false. exact H.
Qed.

Lemma slice_adjust_in : forall n i dflt, (i <= n)%nat ->
  slice_adjust (Z.of_nat n) 1 (Some (Z.of_nat i)) dflt = Z.of_nat i.
Proof.
  intros n i dflt H. unfold slice_adjust.
  destruct (Z.ltb_spec (Z.of_nat i) 0); [lia|].
  destruct (Z.leb_spec (Z.of_nat n) (Z.of_nat i)); [|reflexivity].
  change ((1 <? 0)%Z) with false. cbv iota. lia.
Qed.

Lemma list_slice_nat : forall {A} (d : list A) i j,
  (i <= length d)%nat -> (j <= length d)%nat ->
  list_slice d (Some (Z.of_nat i)) (Some (Z.of_nat j)) None = Ok (firstn (j - i) (skipn i d)).
Proof.
  intros A d i j Hi Hj. rewrite list_slice_step1. cbv zeta.
  rewrite !slice_adjust_in by assumption. rewrite Nat2Z.id.
  replace (Z.to_nat (Z.of_nat j - Z.of_nat i)) with (j - i)%nat by lia. reflexivity.
Qed.

(** The records between a prefix failing [p] and a suffix failing [q]. *)
Lemma slice_window : forall (p q : rec -> bool) d i j,
  Forall (fun r => p r = false) (firstn i d) -> Forall (fun r => p r = true) (skipn i d) ->
  Forall (fun r => q r = true) (firstn j d) -> Forall (fun r => q r = false) (skipn j d) ->
  filter (fun r => p r && q r) d = firstn (j - i) (skipn i d).
Proof.
  intros p q d. induction d as [|r rs IH]; intros i j H1 H2 H3 H4.
  - destruct i; simpl; rewrite firstn_nil; reflexivity.
  - destruct i as [|i], j as [|j]; simpl in *.
    + apply Forall_cons_iff in H4 as [Hq H4]. rewrite Hq, andb_false_r.
      apply Forall_cons_iff in H2 as [_ H2]. apply (IH 0%nat 0%nat); simpl; auto.
    + apply Forall_cons_iff in H2 as [Hp H2]. apply Forall_cons_iff in H3 as [Hq H3].
      rewrite Hp, Hq. simpl. f_equal. rewrite (IH 0%nat j); simpl; auto. rewrite Nat.sub_0_r. reflexivity.
    + apply Forall_cons_iff in H1 as [Hp H1]. apply Forall_cons_iff in H4 as [_ H4].
      rewrite Hp. simpl. rewrite (IH i 0%nat); auto.
    + apply Forall_cons_iff in H1 as [Hp H1]. apply Forall_cons_iff in H3 as [_ H3].
      rewrite Hp. simpl. apply IH; auto.
Qed.

Lemma filter_all_true : forall {A} (l : list A), filter (fun _ => true) l = l.
Proof. intros A l. induction l; simpl; [reflexivity | f_equal; assumption]. Qed.

(** On a collection whose flagged-valid state is consistent and whose keys
    are distinct, [S[lo:hi]] with float bounds (either may be None) re-sorts
    and then returns exactly the records with [lo <= key <= hi], in
    ascending key order, provided some key is [>= lo] (when [lo] is given)
    and some key is [<= hi] (when [hi] is given); otherwise it raises the
    StopIteration of [_first_true]. *)
Theorem getitem_slice_closed : forall s lo hi,
  sd_inv s -> keys_distinct (sd_data s) ->
  Sorted key_le (sd_data (validated s)) /\
  getitem (KSlice (option_map NFloat lo) (option_map NFloat hi) None) s =
    (validated s,
     if bounds_met lo hi (sd_data (validated s))
     then Ok (from_sorted (filter (in_closed lo hi) (sd_data (validated s))))
     else Exc StopIteration).
Proof.
  intros s lo hi Hi Hd. destruct (validated_spec s Hi Hd) as [Hm [_ [Hs [_ Hk]]]].
  split; [exact Hs|].
  unfold getitem, sbind. rewrite Hm. cbv beta iota. rewrite Hk.
  set (d := sd_data (validated s)) in *.
  unfold in_closed, bounds_met.
  destruct lo as [a|], hi as [b|]; cbn [option_map is_float orb num_Q].
  - pose proof (lo_search a d Hs) as HL.
    destruct (first_true (fun x => Qle_bool a (fst x)) (idx_from 0 d)) as [p|e];
      [|destruct HL as [-> ->]; reflexivity].
    destruct HL as [Hl1 [Hl2 [Hl3 Hl4]]]. rewrite Hl4.
    pose proof (hi_search b d Hs) as HH.
    destruct (first_true (fun x => Qle_bool (fst x) b) (rev (idx_from 0 d))) as [p'|e'];
      [|destruct HH as [-> ->]; reflexivity].
    destruct HH as [Hh1 [Hh2 [Hh3 Hh4]]]. rewrite Hh4. cbn [rbind andb].
    rewrite list_slice_nat by assumption. cbn [rbind].
    do 3 f_equal. symmetry. apply slice_window; assumption.
  - pose proof (lo_search a d Hs) as HL.
    destruct (first_true (fun x => Qle_bool a (fst x)) (idx_from 0 d)) as [p|e];
      [|destruct HL as [-> ->]; reflexivity].
    destruct HL as [Hl1 [Hl2 [Hl3 Hl4]]]. rewrite Hl4. cbn [rbind andb].
    rewrite list_slice_nat by (assumption || lia). cbn [rbind].
    do 3 f_equal. symmetry. apply slice_window; try assumption.
    + rewrite firstn_all. apply Forall_forall. reflexivity.
    + rewrite skipn_all. constructor.
  - pose proof (hi_search b d Hs) as HH.
    destruct (first_true (fun x => Qle_bool (fst x) b) (rev (idx_from 0 d))) as [p'|e'];
      [|destruct HH as [-> ->]; reflexivity].
    destruct HH as [Hh1 [Hh2 [Hh3 Hh4]]]. rewrite Hh4. cbn [rbind andb].
    rewrite list_slice_nat by (assumption || lia). cbn [rbind].
    do 3 f_equal. symmetry. apply slice_window; try assumption.
    + constructor.
    + apply Forall_forall. reflexivity.
  - cbn [int_bound rbind andb]. rewrite list_slice_step1. cbv zeta.
    unfold slice_adjust. cbn [rbind]. rewrite Z.sub_0_r, Nat2Z.id. simpl skipn.
    rewrite firstn_all. cbn [lo_ok hi_ok andb]. rewrite filter_all_true. reflexivity.
Qed.

Lemma distinctb_keys_distinct : forall l, distinctb (map key l) = true -> keys_distinct l.
Proof.
  unfold keys_distinct. intros l. induction (map key l) as [|k ks IH]; simpl; intros H.
  - constructor.
  - apply andb_prop in H as [H1 H2]. constructor; [|apply IH; exact H2].
    intros Hin. apply InA_alt in Hin as [y [Hy Hiny]].
    assert (E : existsb (Qeq_bool k) ks = true).
    { apply existsb_exists. exists y. split; [exact Hiny | apply Qeq_bool_iff; exact Hy]. }
    rewrite E in H1. discriminate H1.
Qed.

(** The examples of the docstring, for keys 1.0 to 4.0 given out of order:
    [S[2.0:3.0]], [S[1.5:3.5]] and [S[None:2.0]]. *)
Lemma getitem_slice_closed_examples :
  let s := sd_init [mkRec 3 []; mkRec 1 []; mkRec 4 []; mkRec 2 []] in
  (sd_inv s /\ keys_distinct (sd_data s)) /\
  snd (getitem (KSlice (Some (NFloat 2)) (Some (NFloat 3)) None) s)
    = Ok (from_sorted [mkRec 2 []; mkRec 3 []]) /\
  snd (getitem (KSlice (Some (NFloat (3#2))) (Some (NFloat (7#2))) None) s)
    = Ok (from_sorted [mkRec 2 []; mkRec 3 []]) /\
  snd (getitem (KSlice None (Some (NFloat 2)) None) s)
    = Ok (from_sorted [mkRec 1 []; mkRec 2 []]).
Proof.
  intros s.
  assert (Hi : sd_inv s) by (intros H; discriminate H).
  assert (Hd : keys_distinct (sd_data s)) by (apply distinctb_keys_distinct; reflexivity).
  split; [split; assumption|].
  split; [|split].
  - destruct (getitem_slice_closed s (Some 2) (Some 3) Hi Hd) as [_ H]. cbn [option_map] in H.
    rewrite H. reflexivity.
  - destruct (getitem_slice_closed s (Some (3#2)) (Some (7#2)) Hi Hd) as [_ H]. cbn [option_map] in H.
    rewrite H. reflexivity.
  - destruct (getitem_slice_closed s None (Some 2) Hi Hd) as [_ H]. cbn [option_map] in H.
    rewrite H. reflexivity.
Qed.

Lemma bounds_unmet_filter : forall lo hi l,
  bounds_met lo hi l = false -> filter (in_closed lo hi) l = [].
Proof.
  intros lo hi l H. destruct (filter (in_closed lo hi) l) as [|r t] eqn:E; [reflexivity|].
  assert (Hr : In r (filter (in_closed lo hi) l)) by (rewrite E; left; reflexivity).
  apply filter_In in Hr as [Hin Hc]. unfold in_closed in Hc. apply andb_prop in Hc as [H1 H2].
  unfold bounds_met in H.
  assert (E1 : match lo with None => true | Some a => existsb (fun r => Qle_bool a (key r)) l end = true).
  { destruct lo as [a|]; [apply existsb_exists; exists r; split; assumption | reflexivity]. }
  assert (E2 : match hi with None => true | Some b => existsb (fun r => Qle_bool (key r) b) l end = true).
  { destruct hi as [b|]; [apply existsb_exists; exists r; split; assumption | reflexivity]. }
  rewrite E1, E2 in H. discriminate H.
Qed.

(** C3 (code bug). The docstring of [__getitem__] promises that float
    bounds return a slice matching the closed interval [[lo, hi]]. When no
    key is [>= lo] or no key is [<= hi], that interval holds no record, yet
    [S[lo:hi]] does not return an empty collection: [_first_true] calls
    [next] on an exhausted generator and the StopIteration escapes (after
    the deferred re-sort). *)
Theorem getitem_slice_out_of_range : forall s lo hi,
  sd_inv s -> keys_distinct (sd_data s) ->
  bounds_met lo hi (sd_data (validated s)) = false ->
  filter (in_closed lo hi) (sd_data (validated s)) = [] /\
  getitem (KSlice (option_map NFloat lo) (option_map NFloat hi) None) s =
    (validated s, Exc StopIteration).
Proof.
  intros s lo hi Hi Hd Hb. split; [apply bounds_unmet_filter; exact Hb|].
  destruct (getitem_slice_closed s lo hi Hi Hd) as [_ H]. rewrite H, Hb. reflexivity.
Qed.

Lemma getitem_slice_out_of_range_witness :
  let s := sd_init [mkRec 3 []; mkRec 1 []; mkRec 4 []; mkRec 2 []] in
  (sd_inv s /\ keys_distinct (sd_data s) /\
   bounds_met (Some 5) (Some 6) (sd_data (validated s)) = false) /\
  filter (in_closed (Some 5) (Some 6)) (sd_data (validated s)) = [] /\
  getitem (KSlice (Some (NFloat 5)) (Some (NFloat 6)) None) s = (validated s, Exc StopIteration).
Proof.
  intros s.
  assert (Hi : sd_inv s) by (intros H; discriminate H).
  assert (Hd : keys_distinct (sd_data s)) by (apply distinctb_keys_distinct; reflexivity).
  assert (Hb : bounds_met (Some 5) (Some 6) (sd_data (validated s)) = false)
    by (vm_compute; reflexivity).
  split; [split; [|split]; assumption|].
  exact (getitem_slice_out_of_range s (Some 5) (Some 6) Hi Hd Hb).
Defined.

(** ** Duplicate keys through append, extend and + (collections.py) *)

Lemma make_valid_eq : forall s, make_valid s = (validated s, Ok tt).
Proof. intros s. unfold validated, make_valid. destruct (sd_valid s); reflexivity. Qed.

Lemma make_valid_validated : forall s, make_valid (validated s) = (validated s, Ok tt).
Proof.
  intros s. unfold validated, make_valid.
  destruct (sd_valid s) eqn:E; simpl; [rewrite E|]; reflexivity.
Qed.

Lemma od_set_mem : forall d k v k',
  od_mem (od_set d k v) k' = od_mem d k' || Qeq_bool k k'.
Proof.
  intros d k v k'. unfold od_set. destruct (od_mem d k) eqn:Hm.
  - unfold od_mem.
    replace (existsb (fun p => Qeq_bool (fst p) k')
               (map (fun p => if Qeq_bool (fst p) k then (fst p, v) else p) d))
      with (existsb (fun p => Qeq_bool (fst p) k') d)
      by (clear Hm; induction d as [|[q w] d IH]; simpl; [reflexivity|];
          destruct (Qeq_bool q k); simpl; f_equal; exact IH).
    destruct (Qeq_bool k k') eqn:Hk; [|rewrite orb_false_r; reflexivity].
    rewrite orb_true_r. unfold od_mem in Hm. apply existsb_exists in Hm as [[q w] [Hin Hq]].
    apply existsb_exists. exists (q, w). split; [exact Hin|]. simpl in *.
    apply Qeq_bool_iff. apply Qeq_bool_iff in Hq, Hk. rewrite Hq. exact Hk.
  - unfold od_mem. rewrite existsb_app. simpl. rewrite orb_false_r. reflexivity.
Qed.

Lemma make_keys_fold_mem : forall l n acc k,
  od_mem (fold_left (fun acc ir => od_set acc (key (snd ir)) (fst ir))
            (combine (seq n (length l)) l) acc) k
  = od_mem acc k || existsb (fun r => Qeq_bool (key r) k) l.
Proof.
  induction l as [|r rs IH]; intros n acc k; simpl.
  - rewrite orb_false_r. reflexivity.
  - rewrite IH, od_set_mem, orb_assoc. reflexivity.
Qed.

(** A key is in the key table exactly when some record has that key. *)
Lemma make_keys_mem : forall l k,
  od_mem (make_keys l) k = existsb (fun r => Qeq_bool (key r) k) l.
Proof. intros l k. unfold make_keys, enumerate. rewrite make_keys_fold_mem. reflexivity. Qed.

Definition table_ok (L : list rec) (acc : list (Q * nat)) : Prop :=
  forall q p, In (q, p) acc -> exists r, nth_error L p = Some r /\ (key r == q)%Q.

Lemma od_set_table_ok : forall L acc x i,
  table_ok L acc -> nth_error L i = Some x -> table_ok L (od_set acc (key x) i).
Proof.
  intros L acc x i Hok Hx q p Hin. unfold od_set in Hin. destruct (od_mem acc (key x)).
  - apply in_map_iff in Hin as [[q0 w] [Heq Hin]]. simpl in Heq.
    destruct (Qeq_bool q0 (key x)) eqn:E.
    + inversion Heq; subst. exists x. split; [exact Hx|].
      apply Qeq_bool_iff in E. symmetry. exact E.
    + inversion Heq; subst. apply Hok. exact Hin.
  - apply in_app_or in Hin as [Hin | [Heq | []]]; [apply Hok; exact Hin|].
    inversion Heq; subst. exists x. split; [exact Hx | reflexivity].
Qed.

Lemma make_keys_fold_ok : forall L l n acc,
  table_ok L acc -> (forall j x, nth_error l j = Some x -> nth_error L (n + j) = Some x) ->
  table_ok L (fold_left (fun acc ir => od_set acc (key (snd ir)) (fst ir))
                (combine (seq n (length l)) l) acc).
Proof.
  intros L. induction l as [|r rs IH]; intros n acc Hok Hl; simpl; [exact Hok|].
  apply IH.
  - apply od_set_table_ok; [exact Hok|]. rewrite <- (Nat.add_0_r n). apply (Hl 0%nat). reflexivity.
  - intros j x Hj. replace (S n + j)%nat with (n + S j)%nat by lia. apply (Hl (S j)). exact Hj.
Qed.

(** Every position of the key table holds a record with that key. *)
Lemma make_keys_pos : forall L k p,
  od_get (make_keys L) k = Some p -> exists r, nth_error L p = Some r /\ (key r == k)%Q.
Proof.
  intros L k p H. unfold od_get in H.
  destruct (find (fun x => Qeq_bool (fst x) k) (make_keys L)) as [[q w]|] eqn:E; [|discriminate].
  inversion H; subst. apply find_some in E as [Hin Hq]. simpl in Hq.
  assert (Hok : table_ok L (make_keys L)).
  { unfold make_keys, enumerate. apply make_keys_fold_ok; [intros ? ? [] | intros j x Hj; exact Hj]. }
  destruct (Hok q p Hin) as [r [Hr Hrq]]. exists r. split; [exact Hr|].
  apply Qeq_bool_iff in Hq. rewrite Hrq. exact Hq.
Qed.

Lemma od_get_of_mem : forall d k, od_mem d k = true -> exists p, od_get d k = Some p.
Proof.
  intros d k H. unfold od_get. destruct (find (fun x => Qeq_bool (fst x) k) d) as [[q w]|] eqn:E.
  - exists w. reflexivity.
  - unfold od_mem in H. apply existsb_exists in H as [x [Hin Hx]].
    rewrite (find_none _ _ E x Hin) in Hx. discriminate.
Qed.

Lemma validated_keys : forall s, sd_inv s -> sd_keys (validated s) = make_keys (sd_data (validated s)).
Proof.
  intros s Hi. unfold validated, make_valid. destruct (sd_valid s) eqn:E; simpl; [|reflexivity].
  apply (Hi E).
Qed.

Lemma validated_perm : forall s, Permutation (sd_data (validated s)) (sd_data s).
Proof.
  intros s. unfold validated, make_valid. destruct (sd_valid s); simpl; [reflexivity|].
  apply sort_by_key_perm.
Qed.




(** ** Transpose views [view[name][i]] (collections.py) *)

Lemma mapM_nth : forall {A B} (f : A -> res B) l ys i x,
  mapM f l = Ok ys -> nth_error l i = Some x -> exists y, f x = Ok y /\ nth_error ys i = Some y.
Proof.
  intros A B f l. induction l as [|a l IH]; intros ys i x H Hx; [destruct i; discriminate|].
  simpl in H. destruct (f a) as [y|e] eqn:Ey; [|discriminate]. simpl in H.
  destruct (mapM f l) as [ys'|e] eqn:Ey'; [|discriminate]. simpl in H. inversion H; subst.
  destruct i as [|i]; simpl in Hx.
  - inversion Hx; subst. exists y. split; [exact Ey | reflexivity].
  - apply (IH ys' i x eq_refl Hx).
Qed.

Lemma list_get_nat : forall {A} (l : list A) i x,
  nth_error l i = Some x -> list_get l (Z.of_nat i) = Ok x.
Proof.
  intros A l i x H. assert (Hi : (i < length l)%nat) by (apply nth_error_Some; congruence).
  unfold list_get, py_index.
  destruct (Z.ltb_spec (Z.of_nat i) 0); [lia|].
  destruct (Z.leb_spec (Z.of_nat (length l)) (Z.of_nat i)); [lia|].
  cbn [rbind]. rewrite Nat2Z.id, H. reflexivity.
Qed.

Lemma view_name_spec : forall rm s name vals,
  mapM (fun r => getattr r name) (sd_data (validated s)) = Ok vals ->
  view_getitem_name rm name s = (validated s, v <-? rm [vals] ;; Ok (VList v)).
Proof.
  intros rm s name vals H. unfold view_getitem_name.
  assert (Hg : getitem (KStr name) s = (validated s, Exc TypeError)).
  { unfold getitem, sbind. rewrite make_valid_eq. reflexivity. }
  rewrite Hg.
  assert (Hit : iter (validated s) = (validated s, Ok (sd_data (validated s)))).
  { unfold iter, sbind. rewrite make_valid_validated. reflexivity. }
  rewrite Hit. unfold filter_transpose. simpl. rewrite H. reflexivity.
Qed.

(** C9 (amended). [view[name]] does not give the values themselves. For a
    collection whose records all declare [name], with [vals] the values of
    the re-sorted records: the as-array view applies [numpy.array] to
    [vals]; it raises [ValueError] when [vals] is ragged, and otherwise
    gives a one-element list holding that array, so [view[name][i]] is the
    one-element list [[v_i]] holding the value [v_i] of the i-th record (as
    a numpy value). The as-single view gives the list [vals], and
    [view[name][i]] subscripts every value with [i]. Neither touches the
    collection beyond the deferred re-sort. *)
Theorem transpose_view_index : forall s name vals,
  mapM (fun r => getattr r name) (sd_data (validated s)) = Ok vals ->
  (np_shape (PSeq vals) = None ->
     view_as_array name s = (validated s, Exc ValueError_inhomogeneous)) /\
  (np_shape (PSeq vals) <> None ->
     view_as_array name s = (validated s, Ok (VList (PSeq [np_conv (PSeq vals)]))) /\
     forall i r, nth_error (sd_data (validated s)) i = Some r ->
       exists v, getattr r name = Ok v /\
         view_index (view_as_array name) (Z.of_nat i) s = (validated s, Ok (PSeq [np_conv v]))) /\
  view_as_single name s = (validated s, Ok (VList (PSeq vals))) /\
  forall i : Z, view_index (view_as_single name) i s =
    (validated s, ws <-? mapM (fun w => pysub w i) vals ;; Ok (PSeq ws)).
Proof.
  intros s name vals H.
  assert (Ha : view_as_array name s =
               (validated s, v <-? return_map_array [vals] ;; Ok (VList v)))
    by (unfold view_as_array; apply view_name_spec; exact H).
  assert (Hs : view_as_single name s = (validated s, Ok (VList (PSeq vals)))).
  { unfold view_as_single. rewrite (view_name_spec _ _ _ _ H). reflexivity. }
  unfold return_map_array, np_array in Ha. cbn [mapM] in Ha.
  split; [|split; [|split; [exact Hs|]]].
  - intros Hn. rewrite Hn in Ha. exact Ha.
  - intros Hn. destruct (np_shape (PSeq vals)) as [sh|]; [|contradiction]. cbn [rbind] in Ha.
    split; [exact Ha|].
    intros i r Hr. destruct (mapM_nth _ _ _ _ _ H Hr) as [v [Hv Hvi]].
    exists v. split; [exact Hv|].
    unfold view_index, sbind. rewrite Ha. unfold slift, filterable_getitem_int.
    cbn [mapM np_conv pysub].
    rewrite (list_get_nat _ _ _ (map_nth_error np_conv i vals Hvi)). reflexivity.
  - intros i. unfold view_index, sbind. rewrite Hs. reflexivity.
Qed.

Lemma transpose_view_index_witness :
  let s := sd_init [mkRec 2 [("t", PNp 5)]; mkRec 1 [("t", PNp 7)]]%string in
  let s' := sd_init [mkRec 1 [("t", PNp 1)]; mkRec 2 [("t", PSeq [PNp 1; PNp 2])]]%string in
  (mapM (fun r => getattr r "t"%string) (sd_data (validated s)) = Ok [PNp 7; PNp 5] /\
   view_index (view_as_array "t"%string) 1 s = (validated s, Ok (PSeq [PNp 5]))) /\
  (mapM (fun r => getattr r "t"%string) (sd_data (validated s')) = Ok [PNp 1; PSeq [PNp 1; PNp 2]] /\
   view_as_array "t"%string s' = (validated s', Exc ValueError_inhomogeneous)).
Proof.
  intros s s'. split.
  - assert (H : mapM (fun r => getattr r "t"%string) (sd_data (validated s)) = Ok [PNp 7; PNp 5])
      by reflexivity.
    split; [exact H|].
    destruct (transpose_view_index s "t"%string _ H) as [_ [Hok _]].
    destruct Hok as [_ Hi]; [discriminate|].
    destruct (Hi 1%nat (mkRec 2 [("t", PNp 5)])%string eq_refl) as [v [Hv Hx]].
    simpl in Hv. inversion Hv; subst. exact Hx.
  - assert (H : mapM (fun r => getattr r "t"%string) (sd_data (validated s'))
                = Ok [PNp 1; PSeq [PNp 1; PNp 2]]) by reflexivity.
    split; [exact H|].
    destruct (transpose_view_index s' "t"%string _ H) as [Hr _].
    apply Hr. reflexivity.
Defined.

(** C9, counterexample: for one record whose [t] is the numpy scalar 1.0,
    the as-array view gives [view['t'][0] = [1.0]], not [1.0], and the
    as-single view raises IndexError (a numpy scalar cannot be
    subscripted). *)
Lemma transpose_view_not_value :
  let s := from_sorted [mkRec 0 [("t", PNp 1)]]%string in
  getattr (mkRec 0 [("t", PNp 1)]%string) "t"%string = Ok (PNp 1) /\
  view_index (view_as_array "t"%string) 0 s = (s, Ok (PSeq [PNp 1])) /\
  PSeq [PNp 1] <> PNp 1 /\
  view_index (view_as_single "t"%string) 0 s = (s, Exc IndexError).
Proof. split; [reflexivity | split; [reflexivity | split; [discriminate | reflexivity]]]. Qed.

(** ** What the temperature fill writes (support.py) *)

Section Frames.

Variable T : list nat -> Prop.
Variable sh : list nat.

Lemma frames_ret : forall {A} (a : A), frames T sh (sret a).
Proof. intros A a d Hd. split; [exact Hd | reflexivity]. Qed.

Lemma frames_raise : forall {A} e, frames T sh (@sraise ndarray A e).
Proof. intros A e d Hd. split; [exact Hd | reflexivity]. Qed.

Lemma frames_slift : forall {A} (r : res A), frames T sh (slift r).
Proof. intros A r d Hd. split; [exact Hd | reflexivity]. Qed.

Lemma frames_rd : forall ix, frames T sh (rd ix).
Proof. intros ix d Hd. split; [exact Hd | reflexivity]. Qed.

Lemma frames_dkey : forall {A} (dd : list (string * A)) k, frames T sh (dkey dd k).
Proof. intros A dd k. unfold dkey. destruct (dget dd k); [apply frames_ret | apply frames_raise]. Qed.

Lemma frames_bind : forall {A B} (m : stM ndarray A) (k : A -> stM ndarray B),
  frames T sh m -> (forall a, frames T sh (k a)) -> frames T sh (sbind m k).
Proof.
  intros A B m k Hm Hk d Hd. unfold sbind.
  destruct (Hm d Hd) as [Hs Hc]. destruct (m d) as [d1 [a|e]]; simpl in *.
  - destruct (Hk a d1 Hs) as [Hs' Hc']. split; [exact Hs'|].
    intros c Hc0. rewrite Hc' by exact Hc0. apply Hc. exact Hc0.
  - split; [exact Hs | exact Hc].
Qed.

Lemma frames_wr : forall ix v,
  (forall sels c, resolve sh ix = Ok sels -> sel_locate sels c <> None -> T c) ->
  frames T sh (wr ix v).
Proof.
  intros ix v H d Hd. unfold wr. rewrite Hd.
  destruct (resolve sh ix) as [sels|e] eqn:Er; simpl; [|split; [exact Hd | reflexivity]].
  unfold setv. destruct (bcast_to_rev (rev (shape v)) (rev (sel_shape sels))); simpl;
    [|split; [exact Hd | reflexivity]].
  split; [exact Hd|]. intros c Hc.
  destruct (sel_locate sels c) eqn:El; [|reflexivity].
  exfalso. apply Hc. apply (H sels c eq_refl). rewrite El. discriminate.
Qed.

Lemma frames_sfor : forall {A} (l : list A) (body : A -> stM ndarray unit),
  (forall x, In x l -> frames T sh (body x)) -> frames T sh (sfor l body).
Proof.
  intros A l body. induction l as [|x xs IH]; intros H; simpl; [apply frames_ret|].
  apply frames_bind; [apply H; left; reflexivity | intros _; apply IH; intros y Hy; apply H; right; exact Hy].
Qed.

Lemma frames_swhen : forall c (m : stM ndarray unit),
  (c = true -> frames T sh m) -> frames T sh (swhen c m).
Proof. intros c m H. unfold swhen. destruct c; [apply H; reflexivity | apply frames_ret]. Qed.

End Frames.

Ltac frames_step :=
  match goal with
  | |- frames _ _ (sbind _ _) => apply frames_bind; [|intros ?]
  | |- frames _ _ (sret _) => apply frames_ret
  | |- frames _ _ (sraise _) => apply frames_raise
  | |- frames _ _ (slift _) => apply frames_slift
  | |- frames _ _ (rd _) => apply frames_rd
  | |- frames _ _ (dkey _ _) => apply frames_dkey
  | |- frames _ _ (bndcnd _ _ _) => unfold bndcnd
  | |- frames _ _ (bndval _ _ _) => unfold bndval
  | |- frames _ _ (if ?b then _ else _) => destruct b
  | |- frames _ _ (wr _ _) => apply frames_wr
  end.

Lemma in_enumerate_nth : forall {A} (l : list A) i x,
  In (i, x) (enumerate l) -> nth_error l i = Some x.
Proof.
  intros A l. unfold enumerate.
  assert (G : forall n i x, In (i, x) (combine (seq n (length l)) l) -> nth_error l (i - n) = Some x /\ (n <= i)%nat).
  { induction l as [|a l IH]; intros n i x Hin; simpl in Hin; [contradiction|].
    destruct Hin as [Heq | Hin].
    - inversion Heq; subst. rewrite Nat.sub_diag. split; [reflexivity | lia].
    - destruct (IH (S n) i x Hin) as [H1 H2]. split; [|lia].
      replace (i - n)%nat with (S (i - S n)) by lia. exact H1. }
  intros i x Hin. destruct (G 0%nat i x Hin) as [H _]. rewrite Nat.sub_0_r in H. exact H.
Qed.

Lemma temp_frames : forall geom sh,
  frames (temp_slab_cell geom sh) sh (bound_cells_from_data_temp geom).
Proof.
  intros geom sh. unfold bound_cells_from_data_temp. apply frames_sfor.
  intros [i faces] Hin. apply frames_swhen. intros Hr. apply negb_true_iff in Hr.
  repeat frames_step; intros sels c Hres Hloc; exists i, faces, sels;
    (split; [apply in_enumerate_nth; exact Hin | split; [exact Hr | split; assumption]]).
Qed.

Lemma pos_in_In : forall x l p, pos_in x l = Some p -> In x l.
Proof.
  intros x l. induction l as [|y ys IH]; intros p H; simpl in H; [discriminate|].
  destruct (Nat.eqb_spec x y) as [->|_]; [left; reflexivity|].
  destruct (pos_in x ys) as [q|] eqn:E; [|discriminate]. right. exact (IH q eq_refl).
Qed.

Lemma mid_bounds : forall n g l p, (0 <= g)%Z ->
  slice_indices n (Some g) (Some (- g)%Z) None = Ok l -> In p l ->
  (0 < g /\ g <= Z.of_nat p /\ Z.of_nat p + g < Z.of_nat n)%Z.
Proof.
  intros n g l p Hg H Hp. rewrite slice_indices_step1 in H. inversion H; subst l.
  apply in_seq in Hp. unfold slice_adjust in Hp.
  destruct (Z.ltb_spec g 0); [lia|]; destruct (Z.leb_spec (Z.of_nat n) g);
    (destruct (Z.ltb_spec (- g) 0); [destruct (Z.ltb_spec (- g + Z.of_nat n) 0)|
      destruct (Z.leb_spec (Z.of_nat n) (- g))]); lia.
Qed.

Lemma hi_bounds : forall n g l p, (0 < g)%Z ->
  slice_indices n (Some (- g)%Z) None None = Ok l -> In p l ->
  (Z.of_nat n <= Z.of_nat p + g)%Z.
Proof.
  intros n g l p Hg H Hp. rewrite slice_indices_step1 in H. inversion H; subst l.
  apply in_seq in Hp. unfold slice_adjust in Hp.
  destruct (Z.ltb_spec (- g) 0); [destruct (Z.ltb_spec (- g + Z.of_nat n) 0)|
    destruct (Z.leb_spec (Z.of_nat n) (- g))]; lia.
Qed.

Lemma py_index_of_nat : forall n i p, py_index n (Z.of_nat i) = Ok p -> p = i.
Proof.
  intros n i p H. unfold py_index in H.
  destruct (Z.ltb_spec (Z.of_nat i) 0); [lia|].
  destruct (Z.leb_spec (Z.of_nat n) (Z.of_nat i)); [discriminate|].
  inversion H. apply Nat2Z.id.
Qed.

(** Where a right-face guard slab cell of the temperature fill lies. *)
Lemma temp_slab_cell_at : forall geom nb nz ny nx c, (0 <= guards geom)%Z ->
  temp_slab_cell geom [nb; nz; ny; nx] c ->
  exists b z y x faces, c = [b; z; y; x] /\
    nth_error (blk_neighbors geom) b = Some faces /\ dmem faces "right"%string = false /\
    (guards geom <= Z.of_nat z /\ Z.of_nat z + guards geom < Z.of_nat nz)%Z /\
    (guards geom <= Z.of_nat y /\ Z.of_nat y + guards geom < Z.of_nat ny)%Z /\
    (Z.of_nat nx <= Z.of_nat x + guards geom)%Z.
Proof.
  intros geom nb nz ny nx c Hg [b [faces [sels [Hn [Hr [Hres Hloc]]]]]].
  unfold s_mid, s_hi in Hres. cbn [resolve map] in Hres.
  destruct (py_index nb (Z.of_nat b)) as [pb|] eqn:Eb; [|discriminate]. cbn [rbind] in Hres.
  destruct (slice_indices nz _ _ _) as [lz|] eqn:Ez; [|discriminate]. cbn [rbind] in Hres.
  destruct (slice_indices ny _ _ _) as [ly|] eqn:Ey; [|discriminate]. cbn [rbind] in Hres.
  destruct (slice_indices nx _ _ _) as [lx|] eqn:Ex; [|discriminate]. cbn [rbind] in Hres.
  inversion Hres; subst sels. apply py_index_of_nat in Eb. subst pb.
  destruct c as [|b' [|z [|y [|x [|? ?]]]]]; simpl in Hloc; try (exfalso; apply Hloc; reflexivity);
    destruct (Nat.eqb_spec b' b); try (exfalso; apply Hloc; reflexivity); subst b';
    destruct (pos_in z lz) eqn:Pz; try (exfalso; apply Hloc; reflexivity);
    destruct (pos_in y ly) eqn:Py; try (exfalso; apply Hloc; reflexivity);
    destruct (pos_in x lx) eqn:Px; try (exfalso; apply Hloc; reflexivity).
  exists b, z, y, x, faces. split; [reflexivity|]. split; [exact Hn|]. split; [exact Hr|].
  destruct (mid_bounds _ _ _ _ Hg Ez (pos_in_In _ _ _ Pz)) as [Hg' Hz].
  destruct (mid_bounds _ _ _ _ Hg Ey (pos_in_In _ _ _ Py)) as [_ Hy].
  split; [exact Hz|]. split; [exact Hy|].
  exact (hi_bounds _ _ _ _ Hg' Ex (pos_in_In _ _ _ Px)).
Qed.

Lemma bound_cells_from_data_temp_dispatch : forall geom,
  bound_cells_from_data geom "temp"%string = bound_cells_from_data_temp geom.
Proof. intros geom. reflexivity. Qed.

(** C10: the temperature branch of [_bound_cells_from_data] keeps the shape
    of the array and changes no cell outside the right-face guard slabs
    [data[b, g:-g, g:-g, -g:]] of the blocks whose adjacency entry has no
    ["right"] key, whatever boundary conditions the geometry declares (also
    when it raises). In particular (with [g >= 0]) every cell of a block that
    has a right neighbor, and every cell in the left, front, back, lower or
    upper guard layers of any block, keeps its prior value. *)
Theorem temp_fill_frame :
  (forall geom d,
     shape (fst (bound_cells_from_data geom "temp"%string d)) = shape d /\
     forall c, ~ temp_slab_cell geom (shape d) c ->
       cell (fst (bound_cells_from_data geom "temp"%string d)) c = cell d c) /\
  (forall geom d nb nz ny nx b z y x faces,
     (0 <= guards geom)%Z -> shape d = [nb; nz; ny; nx] ->
     nth_error (blk_neighbors geom) b = Some faces -> dmem faces "right"%string = true ->
     cell (fst (bound_cells_from_data geom "temp"%string d)) [b; z; y; x] = cell d [b; z; y; x]) /\
  (forall geom d nb nz ny nx b z y x,
     (0 <= guards geom)%Z -> shape d = [nb; nz; ny; nx] ->
     (Z.of_nat x + guards geom < Z.of_nat nx \/
      Z.of_nat y < guards geom \/ Z.of_nat ny <= Z.of_nat y + guards geom \/
      Z.of_nat z < guards geom \/ Z.of_nat nz <= Z.of_nat z + guards geom)%Z ->
     cell (fst (bound_cells_from_data geom "temp"%string d)) [b; z; y; x] = cell d [b; z; y; x]).
Proof.
  assert (F : forall geom d,
     shape (fst (bound_cells_from_data geom "temp"%string d)) = shape d /\
     forall c, ~ temp_slab_cell geom (shape d) c ->
       cell (fst (bound_cells_from_data geom "temp"%string d)) c = cell d c).
  { intros geom d. rewrite bound_cells_from_data_temp_dispatch.
    exact (temp_frames geom (shape d) d eq_refl). }
  split; [exact F|]. split.
  - intros geom d nb nz ny nx b z y x faces Hg Hd Hn Hr.
    apply (proj2 (F geom d)). rewrite Hd. intros Hs.
    destruct (temp_slab_cell_at _ _ _ _ _ _ Hg Hs) as [b' [z' [y' [x' [faces' [Hc [Hn' [Hr' _]]]]]]]].
    inversion Hc; subst b'. rewrite Hn in Hn'. inversion Hn'; subst faces'. congruence.
  - intros geom d nb nz ny nx b z y x Hg Hd Hout.
    apply (proj2 (F geom d)). rewrite Hd. intros Hs.
    destruct (temp_slab_cell_at _ _ _ _ _ _ Hg Hs)
      as [b' [z' [y' [x' [faces' [Hc [_ [_ [Hz [Hy Hx]]]]]]]]]].
    inversion Hc; subst. lia.
Qed.

Lemma temp_fill_frame_witness :
  let d := mkArr [1; 6; 6; 6]%nat (fun _ => 0) in
  let geom nbrs := mkGeom 2 nbrs 3 [] [] d in
  cell (fst (bound_cells_from_data (geom [[("right"%string, 0%Z)]]) "temp"%string d)) [0; 2; 2; 5]%nat
    = cell d [0; 2; 2; 5]%nat /\
  cell (fst (bound_cells_from_data (geom [[]]) "temp"%string d)) [0; 2; 2; 0]%nat
    = cell d [0; 2; 2; 0]%nat.
Proof.
  intros d geom. split.
  - apply (proj1 (proj2 temp_fill_frame) (geom [[("right"%string, 0%Z)]]) d 1%nat 6%nat 6%nat 6%nat
             0%nat 2%nat 2%nat 5%nat [("right"%string, 0%Z)]);
      [unfold geom, guards; vm_compute; intros Hc; discriminate Hc | reflexivity | reflexivity | reflexivity].
  - apply (proj2 (proj2 temp_fill_frame) (geom [[]]) d 1%nat 6%nat 6%nat 6%nat 0%nat 2%nat 2%nat 0%nat);
      [unfold geom, guards; vm_compute; intros Hc; discriminate Hc | reflexivity | left; unfold geom, guards; vm_compute; reflexivity].
Defined.

(** ** The neighbor-copy guard fill (support.py) *)

Section Copy.

Local Open Scope nat_scope.

Lemma bidx_rev_id : forall vs p, Forall2 lt p vs -> bidx_rev vs vs p = p.
Proof.
  intros vs p H. induction H as [|i v p vs Hi H IH]; simpl; [reflexivity|].
  rewrite IH. destruct (Nat.eqb_spec v 1); [f_equal; lia | reflexivity].
Qed.

Lemma Forall2_rev_lt : forall p vs, Forall2 lt p vs -> Forall2 lt (rev p) (rev vs).
Proof.
  intros p vs H. induction H; simpl; [constructor|].
  apply Forall2_app; [exact IHForall2 | constructor; [assumption | constructor]].
Qed.

Lemma bidx_id : forall vs p, Forall2 lt p vs -> bidx vs vs p = p.
Proof.
  intros vs p H. unfold bidx. rewrite bidx_rev_id by (apply Forall2_rev_lt; exact H).
  apply rev_involutive.
Qed.

Lemma bcast_to_rev_refl : forall vs, bcast_to_rev vs vs = true.
Proof. induction vs as [|v vs IH]; simpl; [reflexivity|]. rewrite Nat.eqb_refl, IH. reflexivity. Qed.

Lemma pos_in_lt : forall x l p, pos_in x l = Some p -> p < length l.
Proof.
  intros x l. induction l as [|y ys IH]; intros p H; simpl in H; [discriminate|].
  destruct (Nat.eqb x y); [inversion H; simpl; lia|].
  destruct (pos_in x ys) as [q|] eqn:E; simpl in H; [|discriminate].
  inversion H; subst. specialize (IH q eq_refl). simpl. lia.
Qed.

Lemma pos_in_seq : forall len a v, a <= v < a + len -> pos_in v (seq a len) = Some (v - a).
Proof.
  induction len as [|len IH]; intros a v H; [lia|]. simpl.
  destruct (Nat.eqb_spec v a) as [->|Hne]; [rewrite Nat.sub_diag; reflexivity|].
  rewrite IH by lia. simpl. f_equal. lia.
Qed.

Lemma sel_locate_lt : forall sels c p, sel_locate sels c = Some p -> Forall2 lt p (sel_shape sels).
Proof.
  induction sels as [|s sels IH]; intros c p H.
  - destruct c; simpl in H; [inversion H; constructor | discriminate].
  - destruct s as [n|l]; destruct c as [|x c]; simpl in H; try discriminate; simpl.
    + destruct (Nat.eqb x n); [exact (IH c p H) | discriminate].
    + destruct (pos_in x l) eqn:E; [|discriminate].
      destruct (sel_locate sels c) eqn:E2; simpl in H; [|discriminate].
      inversion H; subst. constructor; [exact (pos_in_lt _ _ _ E) | exact (IH _ _ E2)].
Qed.

Lemma copy_run : forall bz tgt n src st ss d,
  resolve (shape d) (IInt bz :: tgt) = Ok st -> resolve (shape d) (IInt n :: src) = Ok ss ->
  sel_shape st = sel_shape ss ->
  exists d', copy bz tgt n src d = (d', Ok tt) /\ shape d' = shape d /\
    forall c, cell d' c = match sel_locate st c with
                          | Some p => cell d (sel_cell ss p)
                          | None => cell d c
                          end.
Proof.
  intros bz tgt n src st ss d Ht Hs Hsh. unfold copy, sbind, rd, getv.
  rewrite Hs. cbn [rbind]. unfold wr. rewrite Ht. cbn [rbind]. unfold setv.
  change (shape (view d ss)) with (sel_shape ss). rewrite <- Hsh, bcast_to_rev_refl.
  eexists. split; [reflexivity|]. split; [reflexivity|]. intros c. simpl.
  destruct (sel_locate st c) eqn:E; [|reflexivity].
  rewrite bidx_id by exact (sel_locate_lt _ _ _ E). reflexivity.
Qed.

Lemma sel_locate4 : forall b l1 l2 l3 c p,
  sel_locate [SInt b; SSl l1; SSl l2; SSl l3] c = Some p ->
  exists z y x pz py px, c = [b; z; y; x] /\ pos_in z l1 = Some pz /\
    pos_in y l2 = Some py /\ pos_in x l3 = Some px /\ p = [pz; py; px].
Proof.
  intros b l1 l2 l3 c p H.
  destruct c as [|b' [|z [|y [|x [|w c]]]]]; simpl in H; try discriminate;
    destruct (Nat.eqb_spec b' b); try discriminate; subst b';
    destruct (pos_in z l1) as [pz|] eqn:Ez; try discriminate;
    destruct (pos_in y l2) as [py|] eqn:Ey; try discriminate;
    destruct (pos_in x l3) as [px|] eqn:Ex; try discriminate.
  simpl in H. inversion H; subst. exists z, y, x, pz, py, px. repeat split; assumption.
Qed.

End Copy.

Ltac zcase :=
  repeat match goal with
  | |- context [Z.ltb ?a ?b] => destruct (Z.ltb_spec a b)
  | |- context [Z.leb ?a ?b] => destruct (Z.leb_spec a b)
  end.

Ltac ncase :=
  repeat match goal with
  | |- context [Nat.ltb ?a ?b] => destruct (Nat.ltb_spec a b)
  end.

Section Grid.

Local Open Scope nat_scope.

Variable G : nat.
Hypothesis HG : 0 < G.

Lemma klist_slice : forall n k, 3 * G <= n ->
  match kidx G k with
  | ISl a b c => slice_indices n a b c = Ok (klist n G k)
  | IInt _ => False
  end.
Proof.
  intros n k Hn. destruct k; cbn [kidx klist]; unfold s_lo, s_mid, s_hi, s_first, s_last;
    rewrite slice_indices_step1; unfold slice_adjust; f_equal; f_equal; zcase; lia.
Qed.

Lemma resolve_k : forall n sh' k ix r, 3 * G <= n -> resolve sh' ix = Ok r ->
  resolve (n :: sh') (kidx G k :: ix) = Ok (SSl (klist n G k) :: r).
Proof.
  intros n sh' k ix r Hn Hr. pose proof (klist_slice n k Hn) as Hk.
  destruct (kidx G k) as [i|a b c]; [contradiction|].
  cbn [resolve]. rewrite Hk. cbn [rbind]. rewrite Hr. reflexivity.
Qed.

Lemma resolve_int : forall nb sh' (bz : Z) ix r, (0 <= bz < Z.of_nat nb)%Z -> resolve sh' ix = Ok r ->
  resolve (nb :: sh') (IInt bz :: ix) = Ok (SInt (Z.to_nat bz) :: r).
Proof.
  intros nb sh' bz ix r Hb Hr. cbn [resolve]. unfold py_index. zcase; try lia.
  cbn [rbind]. rewrite Hr. reflexivity.
Qed.

Lemma klist_cls : forall n k v, 3 * G <= n -> In v (klist n G k) -> v < n /\ cls n G v = kcls k.
Proof.
  intros n k v Hn H. destruct k; cbn [klist kcls] in *; apply in_seq in H; unfold cls;
    destruct (Nat.ltb_spec v G); destruct (Nat.ltb_spec (v + G) n); split;
    (reflexivity || (exfalso; lia) || lia).
Qed.

Lemma klist_len : forall n kt ks, pair_ok kt ks = true -> length (klist n G kt) = length (klist n G ks).
Proof. intros n kt ks H. destruct kt, ks; try discriminate; cbn [klist]; rewrite !length_seq; reflexivity. Qed.

Lemma src_mid : forall n v, 3 * G <= n -> v < n ->
  src_coord n G (cls n G v) v < n /\ cls n G (src_coord n G (cls n G v) v) = Mid.
Proof.
  intros n v Hn Hv. remember (cls n G v) as k eqn:Ek. revert Ek. unfold cls.
  destruct (Nat.ltb_spec v G); [|destruct (Nat.ltb_spec (v + G) n)]; intros Ek; subst k;
    cbn [src_coord]; ncase; split; (reflexivity || (exfalso; lia) || lia).
Qed.

Lemma axis_src : forall n kt ks v, 3 * G <= n -> pair_ok kt ks = true -> v < n -> cls n G v = kcls kt ->
  exists p, pos_in v (klist n G kt) = Some p /\ nth p (klist n G ks) 0 = src_coord n G (kcls kt) v.
Proof.
  intros n kt ks v Hn Hp Hv Hc. unfold cls in Hc.
  destruct (Nat.ltb_spec v G); [|destruct (Nat.ltb_spec (v + G) n)];
    destruct kt, ks; try discriminate; cbn [klist kcls src_coord] in *.
  - exists v. rewrite pos_in_seq by lia. rewrite Nat.sub_0_r. split; [reflexivity|].
    rewrite seq_nth by lia. lia.
  - exists (v - G). rewrite pos_in_seq by lia. split; [reflexivity|].
    rewrite seq_nth by lia. lia.
  - exists (v - (n - G)). rewrite pos_in_seq by lia. split; [reflexivity|].
    rewrite seq_nth by lia. lia.
Qed.

Variables nb nz ny nx : nat.
Hypothesis Hz : 3 * G <= nz.
Hypothesis Hy : 3 * G <= ny.
Hypothesis Hx : 3 * G <= nx.

Lemma resolve4 : forall bz k1 k2 k3, (0 <= bz < Z.of_nat nb)%Z ->
  resolve [nb; nz; ny; nx] (IInt bz :: map (kidx G) [k1; k2; k3]) =
  Ok [SInt (Z.to_nat bz); SSl (klist nz G k1); SSl (klist ny G k2); SSl (klist nx G k3)].
Proof.
  intros bz k1 k2 k3 Hb. cbn [map]. apply resolve_int; [exact Hb|].
  apply resolve_k; [exact Hz|]. apply resolve_k; [exact Hy|]. apply resolve_k; [exact Hx|].
  reflexivity.
Qed.

Lemma copy_safe : forall bz mz k1 k2 k3 j1 j2 j3,
  (0 <= bz < Z.of_nat nb)%Z -> (0 <= mz < Z.of_nat nb)%Z ->
  pair_ok k1 j1 = true -> pair_ok k2 j2 = true -> pair_ok k3 j3 = true ->
  safe (T_pat nz ny nx G (Z.to_nat bz) (kcls k1) (kcls k2) (kcls k3)) [nb; nz; ny; nx]
    (copy bz (map (kidx G) [k1; k2; k3]) mz (map (kidx G) [j1; j2; j3])).
Proof.
  intros bz mz k1 k2 k3 j1 j2 j3 Hb Hm P1 P2 P3 d Hd.
  destruct (copy_run bz (map (kidx G) [k1; k2; k3]) mz (map (kidx G) [j1; j2; j3])
            [SInt (Z.to_nat bz); SSl (klist nz G k1); SSl (klist ny G k2); SSl (klist nx G k3)]
            [SInt (Z.to_nat mz); SSl (klist nz G j1); SSl (klist ny G j2); SSl (klist nx G j3)] d)
    as [d' [Hr [Hs Hc]]];
    [rewrite Hd; apply resolve4; exact Hb | rewrite Hd; apply resolve4; exact Hm
    | cbn [sel_shape]; rewrite (klist_len nz _ _ P1), (klist_len ny _ _ P2), (klist_len nx _ _ P3);
      reflexivity |].
  exists tt, d'. split; [exact Hr|]. split; [congruence|].
  intros c Hnot. rewrite Hc. destruct (sel_locate _ c) eqn:E; [|reflexivity].
  exfalso. apply Hnot.
  destruct (sel_locate4 _ _ _ _ _ _ E) as [z [y [x [pz [py [px [-> [Ez [Ey [Ex _]]]]]]]]]].
  destruct (klist_cls nz k1 z Hz (pos_in_In _ _ _ Ez)) as [Lz Cz].
  destruct (klist_cls ny k2 y Hy (pos_in_In _ _ _ Ey)) as [Ly Cy].
  destruct (klist_cls nx k3 x Hx (pos_in_In _ _ _ Ex)) as [Lx Cx].
  exists z, y, x. repeat split; assumption.
Qed.

Lemma copy_est : forall bz mz k1 k2 k3 j1 j2 j3,
  (0 <= bz < Z.of_nat nb)%Z -> (0 <= mz < Z.of_nat nb)%Z ->
  pair_ok k1 j1 = true -> pair_ok k2 j2 = true -> pair_ok k3 j3 = true ->
  interior3 (kcls k1) (kcls k2) (kcls k3) = false ->
  est [nb; nz; ny; nx] (slabQ nz ny nx G (Z.to_nat bz) (Z.to_nat mz) (kcls k1) (kcls k2) (kcls k3))
    (copy bz (map (kidx G) [k1; k2; k3]) mz (map (kidx G) [j1; j2; j3])).
Proof.
  intros bz mz k1 k2 k3 j1 j2 j3 Hb Hm P1 P2 P3 Hi d a d' Hd Hrun.
  destruct (copy_run bz (map (kidx G) [k1; k2; k3]) mz (map (kidx G) [j1; j2; j3])
            [SInt (Z.to_nat bz); SSl (klist nz G k1); SSl (klist ny G k2); SSl (klist nx G k3)]
            [SInt (Z.to_nat mz); SSl (klist nz G j1); SSl (klist ny G j2); SSl (klist nx G j3)] d)
    as [d'' [Hr [Hs Hc]]];
    [rewrite Hd; apply resolve4; exact Hb | rewrite Hd; apply resolve4; exact Hm
    | cbn [sel_shape]; rewrite (klist_len nz _ _ P1), (klist_len ny _ _ P2), (klist_len nx _ _ P3);
      reflexivity |].
  rewrite Hr in Hrun. inversion Hrun; subst d''. clear Hrun.
  intros z y x Lz Ly Lx Cz Cy Cx.
  destruct (axis_src nz k1 j1 z Hz P1 Lz Cz) as [pz [Ez Nz]].
  destruct (axis_src ny k2 j2 y Hy P2 Ly Cy) as [py [Ey Ny]].
  destruct (axis_src nx k3 j3 x Hx P3 Lx Cx) as [px [Ex Nx]].
  assert (Ht : sel_locate [SInt (Z.to_nat bz); SSl (klist nz G k1); SSl (klist ny G k2);
                SSl (klist nx G k3)] [Z.to_nat bz; z; y; x] = Some [pz; py; px])
    by (cbn [sel_locate]; rewrite Nat.eqb_refl, Ez, Ey, Ex; reflexivity).
  rewrite (Hc [Z.to_nat bz; z; y; x]), Ht. cbn [sel_cell]. rewrite Nz, Ny, Nx.
  rewrite (Hc [Z.to_nat mz; src_coord nz G (kcls k1) z; src_coord ny G (kcls k2) y;
    src_coord nx G (kcls k3) x]).
  destruct (sel_locate [SInt (Z.to_nat bz); SSl (klist nz G k1); SSl (klist ny G k2); SSl (klist nx G k3)]
    [Z.to_nat mz; src_coord nz G (kcls k1) z; src_coord ny G (kcls k2) y;
    src_coord nx G (kcls k3) x]) eqn:E; [|reflexivity].
  exfalso.
  destruct (sel_locate4 _ _ _ _ _ _ E) as [z' [y' [x' [qz [qy [qx [Heq [Fz [Fy [Fx _]]]]]]]]]].
  inversion Heq; subst z' y' x'.
  destruct (src_mid nz z Hz Lz) as [_ Mz]. destruct (src_mid ny y Hy Ly) as [_ My].
  destruct (src_mid nx x Hx Lx) as [_ Mx]. rewrite Cz in Mz. rewrite Cy in My. rewrite Cx in Mx.
  destruct (klist_cls nz k1 _ Hz (pos_in_In _ _ _ Fz)) as [_ Kz].
  destruct (klist_cls ny k2 _ Hy (pos_in_In _ _ _ Fy)) as [_ Ky].
  destruct (klist_cls nx k3 _ Hx (pos_in_In _ _ _ Fx)) as [_ Kx].
  rewrite Mz in Kz. rewrite My in Ky. rewrite Mx in Kx.
  rewrite <- Kz, <- Ky, <- Kx in Hi. discriminate Hi.
Qed.

End Grid.

Section Runs.

Variable sh : list nat.

Lemma safe_ret : forall T {A} (a : A), safe T sh (sret a).
Proof. intros T A a d Hd. exists a, d. repeat split; auto. Qed.

Lemma safe_mono : forall (T T' : list nat -> Prop) {A} (m : stM ndarray A),
  (forall c, T c -> T' c) -> safe T sh m -> safe T' sh m.
Proof.
  intros T T' A m HT Hm d Hd. destruct (Hm d Hd) as [a [d' [Hr [Hs Hc]]]].
  exists a, d'. split; [exact Hr|]. split; [exact Hs|]. intros c Hn. apply Hc. intros Ht. apply Hn, HT, Ht.
Qed.

Lemma safe_bind : forall T {A B} (m : stM ndarray A) (k : A -> stM ndarray B),
  safe T sh m -> (forall a, safe T sh (k a)) -> safe T sh (sbind m k).
Proof.
  intros T A B m k Hm Hk d Hd. destruct (Hm d Hd) as [a [d1 [Hr [Hs Hc]]]].
  destruct (Hk a d1 Hs) as [b [d2 [Hr2 [Hs2 Hc2]]]].
  exists b, d2. unfold sbind. rewrite Hr. split; [exact Hr2|]. split; [exact Hs2|].
  intros c Hn. rewrite Hc2 by exact Hn. apply Hc, Hn.
Qed.

Lemma safe_bind_pure : forall T {A B} (m : stM ndarray A) a (k : A -> stM ndarray B),
  pure_ok m a -> safe T sh (k a) -> safe T sh (sbind m k).
Proof. intros T A B m a k Hm Hk d Hd. unfold sbind. rewrite Hm. exact (Hk d Hd). Qed.

Lemma safe_swhen : forall T c (m : stM ndarray unit), (c = true -> safe T sh m) -> safe T sh (swhen c m).
Proof. intros T c m H. unfold swhen. destruct c; [apply H; reflexivity | apply safe_ret]. Qed.

Lemma safe_sfor : forall T {A} (l : list A) (body : A -> stM ndarray unit),
  (forall x, In x l -> safe T sh (body x)) -> safe T sh (sfor l body).
Proof.
  intros T A l body. induction l as [|x xs IH]; intros H; simpl; [apply safe_ret|].
  apply safe_bind; [apply H; left; reflexivity | intros _; apply IH; intros y Hy; apply H; right; exact Hy].
Qed.

Variable Q : ndarray -> Prop.

Lemma est_bind_l : forall T {A B} (m : stM ndarray A) (k : A -> stM ndarray B),
  safe T sh m -> est sh Q m -> (forall a, pres sh Q (k a)) -> est sh Q (sbind m k).
Proof.
  intros T A B m k Hs He Hp d b d' Hd Hr. destruct (Hs d Hd) as [a [d1 [Hm [Hs1 _]]]].
  unfold sbind in Hr. rewrite Hm in Hr. exact (Hp a d1 b d' Hs1 (He d a d1 Hd Hm) Hr).
Qed.

Lemma est_bind_r : forall T {A B} (m : stM ndarray A) (k : A -> stM ndarray B),
  safe T sh m -> (forall a, est sh Q (k a)) -> est sh Q (sbind m k).
Proof.
  intros T A B m k Hs He d b d' Hd Hr. destruct (Hs d Hd) as [a [d1 [Hm [Hs1 _]]]].
  unfold sbind in Hr. rewrite Hm in Hr. exact (He a d1 b d' Hs1 Hr).
Qed.

Lemma est_bind_pure : forall {A B} (m : stM ndarray A) a (k : A -> stM ndarray B),
  pure_ok m a -> est sh Q (k a) -> est sh Q (sbind m k).
Proof. intros A B m a k Hm He d b d' Hd Hr. unfold sbind in Hr. rewrite Hm in Hr. exact (He d b d' Hd Hr). Qed.

Lemma est_swhen : forall c (m : stM ndarray unit), c = true -> est sh Q m -> est sh Q (swhen c m).
Proof. intros c m -> H. exact H. Qed.

Lemma pres_safe : forall T {A} (m : stM ndarray A),
  safe T sh m ->
  (forall d d', (forall c, ~ T c -> cell d' c = cell d c) -> Q d -> Q d') ->
  pres sh Q m.
Proof.
  intros T A m Hs HQ d a d' Hd Hq Hr. destruct (Hs d Hd) as [a' [d1 [Hm [_ Hc]]]].
  rewrite Hm in Hr. inversion Hr; subst. exact (HQ d d' Hc Hq).
Qed.

Lemma pres_sfor : forall T {A} (l : list A) (body : A -> stM ndarray unit),
  (forall x, In x l -> safe T sh (body x) /\ pres sh Q (body x)) -> pres sh Q (sfor l body).
Proof.
  intros T A l body. induction l as [|x xs IH]; intros H; simpl.
  - intros d a d' _ Hq Hr. inversion Hr; subst. exact Hq.
  - intros d a d' Hd Hq Hr. destruct (H x (or_introl eq_refl)) as [Hs Hp].
    destruct (Hs d Hd) as [u [d1 [Hm [Hs1 _]]]]. unfold sbind in Hr. rewrite Hm in Hr.
    apply (IH (fun y Hy => H y (or_intror Hy)) d1 a d' Hs1); [exact (Hp d u d1 Hd Hq Hm) | exact Hr].
Qed.

Lemma est_sfor : forall T {A} (l1 : list A) x l2 (body : A -> stM ndarray unit),
  (forall y, In y (l1 ++ x :: l2) -> safe T sh (body y)) ->
  est sh Q (body x) -> (forall y, In y l2 -> pres sh Q (body y)) ->
  est sh Q (sfor (l1 ++ x :: l2) body).
Proof.
  intros T A l1 x l2 body. induction l1 as [|y l1 IH]; intros Hs He Hp; simpl.
  - apply (est_bind_l T); [apply Hs; left; reflexivity | exact He |].
    intros _. apply (pres_sfor T). intros z Hz. split; [apply Hs; right; exact Hz | apply Hp, Hz].
  - apply (est_bind_r T); [apply Hs; left; reflexivity|].
    intros _. apply IH; [intros z Hz; apply Hs; right; exact Hz | exact He | exact Hp].
Qed.

End Runs.

Lemma in_combine_seq_ge : forall {A} (l : list A) k n j x, In (j, x) (combine (seq k n) l) -> (k <= j)%nat.
Proof.
  intros A l. induction l as [|a l IH]; intros k n j x H; destruct n; simpl in H; try contradiction.
  destruct H as [H | H]; [inversion H; lia | apply IH in H; lia].
Qed.

Lemma enumerate_split : forall {A} (l : list A) i x, nth_error l i = Some x ->
  exists l1 l2, enumerate l = l1 ++ (i, x) :: l2 /\ forall j y, In (j, y) l2 -> (i < j)%nat.
Proof.
  intros A l i x. unfold enumerate.
  assert (G : forall k, nth_error l i = Some x ->
    exists l1 l2, combine (seq k (length l)) l = l1 ++ (k + i, x)%nat :: l2 /\
                  forall j y, In (j, y) l2 -> (k + i < j)%nat).
  { revert i. induction l as [|a l IH]; intros i k H; [destruct i; discriminate|].
    destruct i as [|i]; simpl in H.
    - inversion H; subst. exists [], (combine (seq (S k) (length l)) l). simpl.
      rewrite Nat.add_0_r. split; [reflexivity|]. intros j y Hj. apply in_combine_seq_ge in Hj. lia.
    - destruct (IH i (S k) H) as [l1 [l2 [Heq Hl2]]]. exists ((k, a) :: l1), l2. simpl.
      rewrite Heq. replace (k + S i)%nat with (S k + i)%nat by lia. split; [reflexivity | exact Hl2]. }
  intros H. exact (G 0%nat H).
Qed.

Lemma dmem_dget : forall {A} (d : list (string * A)) k, dmem d k = true -> exists v, dget d k = Some v.
Proof.
  intros A d k H. unfold dmem in H. unfold dget. apply existsb_exists in H. destruct H as [p [Hp Hk]].
  destruct (find (fun p => String.eqb (fst p) k) d) as [q|] eqn:E; [exists (snd q); reflexivity|].
  exfalso. pose proof (find_none _ _ E p Hp) as Hn. simpl in Hn. congruence.
Qed.

Lemma dget_In : forall {A} (d : list (string * A)) k v, dget d k = Some v -> In (k, v) d.
Proof.
  intros A d k v H. unfold dget in H.
  destruct (find (fun p => String.eqb (fst p) k) d) as [q|] eqn:E; [|discriminate].
  inversion H; subst. destruct (find_some _ _ E) as [Hin Hk]. apply String.eqb_eq in Hk.
  destruct q as [k' v']. simpl in *. subst. exact Hin.
Qed.

Lemma dget_dmem : forall {A} (d : list (string * A)) k v, dget d k = Some v -> dmem d k = true.
Proof.
  intros A d k v H. apply dget_In in H. unfold dmem. apply existsb_exists.
  exists (k, v). split; [exact H | apply String.eqb_refl].
Qed.

Lemma layout_faces : forall struct faces, layout_ok struct = true -> In faces struct ->
  (forall F, In F ["left"; "right"; "front"; "back"]%string -> dmem faces F = true) /\
  (forall k v, In (k, v) faces -> (0 <= v < Z.of_nat (length struct))%Z).
Proof.
  intros struct faces H Hin. unfold layout_ok in H. rewrite forallb_forall in H.
  apply H in Hin. apply andb_true_iff in Hin. destruct Hin as [H1 H2].
  rewrite forallb_forall in H1, H2. split; [exact H1|].
  intros k v Hkv. apply H2 in Hkv. simpl in Hkv. apply andb_true_iff in Hkv. lia.
Qed.

Lemma dkey_pure : forall {A} (d : list (string * A)) k v, dget d k = Some v -> pure_ok (dkey d k) v.
Proof. intros A d k v H s. unfold dkey. rewrite H. reflexivity. Qed.

Lemma diag_pure : forall struct faces F1 F2 n1, layout_ok struct = true -> In faces struct ->
  dget faces F1 = Some n1 -> In F2 ["left"; "right"; "front"; "back"]%string ->
  exists n2, pure_ok (diag struct faces F1 F2) n2 /\ (0 <= n2 < Z.of_nat (length struct))%Z.
Proof.
  intros struct faces F1 F2 n1 Hl Hin H1 HF2.
  destruct (layout_faces _ _ Hl Hin) as [_ Hr]. pose proof (Hr _ _ (dget_In _ _ _ H1)) as Hn1.
  destruct (nth_error struct (Z.to_nat n1)) as [fs|] eqn:Efs;
    [|apply nth_error_None in Efs; lia].
  pose proof (nth_error_In _ _ Efs) as Hfs.
  destruct (layout_faces _ _ Hl Hfs) as [Hm Hr2].
  destruct (dmem_dget _ _ (Hm F2 HF2)) as [n2 E2].
  exists n2. split; [|exact (Hr2 _ _ (dget_In _ _ _ E2))].
  intros s. unfold diag, sbind, dkey, lkey, slift, list_get, py_index, sret.
  rewrite H1. cbv beta iota. zcase; try lia. cbn [rbind]. rewrite Efs. rewrite E2. reflexivity.
Qed.

Ltac kind_of i :=
  lazymatch i with
  | s_lo _ => constr:(KL)
  | s_mid _ => constr:(KI)
  | s_hi _ => constr:(KH)
  | s_first _ => constr:(KA)
  | s_last _ => constr:(KB)
  end.

Section Blocks.

Local Open Scope nat_scope.

Variable geom : geometry.
Variables G nb nz ny nx : nat.
Hypothesis HG : 0 < G.
Hypothesis Hg : guards geom = Z.of_nat G.
Hypothesis Hlay : layout_ok (blk_neighbors geom) = true.
Hypothesis Hlen : length (blk_neighbors geom) <= nb.
Hypothesis Hz : 3 * G <= nz.
Hypothesis Hy : 3 * G <= ny.
Hypothesis Hx : 3 * G <= nx.

Lemma T_pat_blk : forall i kz ky kx, interior3 kz ky kx = false ->
  forall c, T_pat nz ny nx G i kz ky kx c -> T_blk nz ny nx G i c.
Proof.
  intros i kz ky kx Hi c [z [y [x [-> [_ [Cz [Cy Cx]]]]]]].
  exists z, y, x. split; [reflexivity|]. rewrite Cz, Cy, Cx. exact Hi.
Qed.

Lemma T_pat_other : forall i kz ky kx kz' ky' kx', interior3 kz' ky' kx' = false ->
  (kz', ky', kx') <> (kz, ky, kx) ->
  forall c, T_pat nz ny nx G i kz' ky' kx' c -> T_other nz ny nx G i kz ky kx c.
Proof. intros i kz ky kx kz' ky' kx' Hi Hne c Hc. exists kz', ky', kx'. auto. Qed.

Lemma step_face_safe : forall T i faces F k1 k2 k3 j1 j2 j3,
  In faces (blk_neighbors geom) -> i < nb ->
  pair_ok k1 j1 = true -> pair_ok k2 j2 = true -> pair_ok k3 j3 = true ->
  (forall c, T_pat nz ny nx G i (kcls k1) (kcls k2) (kcls k3) c -> T c) ->
  safe T [nb; nz; ny; nx]
    (swhen (dmem faces F) (n <- dkey faces F ;;
       copy (Z.of_nat i) (map (kidx G) [k1; k2; k3]) n (map (kidx G) [j1; j2; j3]))).
Proof.
  intros T i faces F k1 k2 k3 j1 j2 j3 Hin Hi P1 P2 P3 HT. apply safe_swhen. intros Hm.
  destruct (dmem_dget _ _ Hm) as [n E].
  destruct (layout_faces _ _ Hlay Hin) as [_ Hr]. pose proof (Hr _ _ (dget_In _ _ _ E)) as Hn.
  apply (safe_bind_pure _ _ _ n); [exact (dkey_pure _ _ _ E)|].
  apply (safe_mono _ (T_pat nz ny nx G (Z.to_nat (Z.of_nat i)) (kcls k1) (kcls k2) (kcls k3)));
    [rewrite Nat2Z.id; exact HT|].
  apply copy_safe; try assumption; lia.
Qed.

Lemma step_diag_safe : forall T i faces c F1 F2 k1 k2 k3 j1 j2 j3,
  In faces (blk_neighbors geom) -> i < nb ->
  (c = true -> dmem faces F1 = true) -> In F2 ["left"; "right"; "front"; "back"]%string ->
  pair_ok k1 j1 = true -> pair_ok k2 j2 = true -> pair_ok k3 j3 = true ->
  (forall c, T_pat nz ny nx G i (kcls k1) (kcls k2) (kcls k3) c -> T c) ->
  safe T [nb; nz; ny; nx]
    (swhen c (n <- diag (blk_neighbors geom) faces F1 F2 ;;
       copy (Z.of_nat i) (map (kidx G) [k1; k2; k3]) n (map (kidx G) [j1; j2; j3]))).
Proof.
  intros T i faces c F1 F2 k1 k2 k3 j1 j2 j3 Hin Hi Hc HF2 P1 P2 P3 HT. apply safe_swhen. intros Hct.
  destruct (dmem_dget _ _ (Hc Hct)) as [n1 E1].
  destruct (diag_pure _ _ F1 F2 n1 Hlay Hin E1 HF2) as [n [Hp Hn]].
  apply (safe_bind_pure _ _ _ n); [exact Hp|].
  apply (safe_mono _ (T_pat nz ny nx G (Z.to_nat (Z.of_nat i)) (kcls k1) (kcls k2) (kcls k3)));
    [rewrite Nat2Z.id; exact HT|].
  apply copy_safe; try assumption; lia.
Qed.

Lemma step_face_est : forall i faces F n k1 k2 k3 j1 j2 j3,
  i < nb -> (0 <= n < Z.of_nat nb)%Z -> dget faces F = Some n ->
  pair_ok k1 j1 = true -> pair_ok k2 j2 = true -> pair_ok k3 j3 = true ->
  interior3 (kcls k1) (kcls k2) (kcls k3) = false ->
  est [nb; nz; ny; nx] (slabQ nz ny nx G i (Z.to_nat n) (kcls k1) (kcls k2) (kcls k3))
    (swhen (dmem faces F) (n' <- dkey faces F ;;
       copy (Z.of_nat i) (map (kidx G) [k1; k2; k3]) n' (map (kidx G) [j1; j2; j3]))).
Proof.
  intros i faces F n k1 k2 k3 j1 j2 j3 Hi Hn E P1 P2 P3 Hint.
  apply est_swhen; [exact (dget_dmem _ _ _ E)|].
  apply (est_bind_pure _ _ _ n); [exact (dkey_pure _ _ _ E)|].
  assert (E2 : est [nb; nz; ny; nx]
    (slabQ nz ny nx G (Z.to_nat (Z.of_nat i)) (Z.to_nat n) (kcls k1) (kcls k2) (kcls k3))
    (copy (Z.of_nat i) (map (kidx G) [k1; k2; k3]) n (map (kidx G) [j1; j2; j3])))
    by (apply copy_est; try assumption; lia).
  rewrite Nat2Z.id in E2. exact E2.
Qed.

Lemma slabQ_keep : forall (T : list nat -> Prop) i m kz ky kx d d',
  (forall z y x, z < nz -> y < ny -> x < nx -> cls nz G z = kz -> cls ny G y = ky -> cls nx G x = kx ->
     ~ T [i; z; y; x] /\ ~ T [m; src_coord nz G kz z; src_coord ny G ky y; src_coord nx G kx x]) ->
  (forall c, ~ T c -> cell d' c = cell d c) ->
  slabQ nz ny nx G i m kz ky kx d -> slabQ nz ny nx G i m kz ky kx d'.
Proof.
  intros T i m kz ky kx d d' Hav Hc HQ z y x Lz Ly Lx Cz Cy Cx.
  destruct (Hav z y x Lz Ly Lx Cz Cy Cx) as [H1 H2].
  rewrite (Hc _ H1), (Hc _ H2). exact (HQ z y x Lz Ly Lx Cz Cy Cx).
Qed.

Lemma src_interior : forall z y x kz ky kx, z < nz -> y < ny -> x < nx ->
  cls nz G z = kz -> cls ny G y = ky -> cls nx G x = kx ->
  interior3 (cls nz G (src_coord nz G kz z)) (cls ny G (src_coord ny G ky y))
            (cls nx G (src_coord nx G kx x)) = true.
Proof.
  intros z y x kz ky kx Lz Ly Lx <- <- <-.
  rewrite (proj2 (src_mid G HG nz z Hz Lz)), (proj2 (src_mid G HG ny y Hy Ly)), (proj2 (src_mid G HG nx x Hx Lx)).
  reflexivity.
Qed.

Lemma keep_other : forall i m kz ky kx d d',
  (forall c, ~ T_other nz ny nx G i kz ky kx c -> cell d' c = cell d c) ->
  slabQ nz ny nx G i m kz ky kx d -> slabQ nz ny nx G i m kz ky kx d'.
Proof.
  intros i m kz ky kx d d'. apply slabQ_keep.
  intros z y x Lz Ly Lx Cz Cy Cx. split.
  - intros [kz' [ky' [kx' [[z' [y' [x' [Heq [_ [Cz' [Cy' Cx']]]]]]] [_ Hne]]]]].
    inversion Heq; subst. apply Hne. reflexivity.
  - intros [kz' [ky' [kx' [[z' [y' [x' [Heq [_ [Cz' [Cy' Cx']]]]]]] [Hi _]]]]].
    inversion Heq; subst. rewrite (src_interior z y x _ _ _ Lz Ly Lx eq_refl eq_refl eq_refl) in Hi.
    discriminate Hi.
Qed.

Lemma keep_blk : forall j i m kz ky kx d d', j <> i ->
  (forall c, ~ T_blk nz ny nx G j c -> cell d' c = cell d c) ->
  slabQ nz ny nx G i m kz ky kx d -> slabQ nz ny nx G i m kz ky kx d'.
Proof.
  intros j i m kz ky kx d d' Hji. apply slabQ_keep.
  intros z y x Lz Ly Lx Cz Cy Cx. split.
  - intros [z' [y' [x' [Heq _]]]]. inversion Heq; subst. apply Hji; reflexivity.
  - intros [z' [y' [x' [Heq Hi]]]]. inversion Heq; subst.
    rewrite (src_interior z y x _ _ _ Lz Ly Lx eq_refl eq_refl eq_refl) in Hi. discriminate Hi.
Qed.

Ltac incl_tac :=
  first
  [ apply T_pat_blk; reflexivity
  | apply T_pat_other; [reflexivity | cbn; congruence] ].

Ltac safe_step :=
  lazymatch goal with
  | |- safe ?T _ (swhen (dmem ?faces ?F)
        (sbind (dkey _ _) (fun n => copy _ [?a1; ?a2; ?a3] n [?c1; ?c2; ?c3]))) =>
      let k1 := kind_of a1 in let k2 := kind_of a2 in let k3 := kind_of a3 in
      let j1 := kind_of c1 in let j2 := kind_of c2 in let j3 := kind_of c3 in
      apply (step_face_safe T _ faces F k1 k2 k3 j1 j2 j3);
        [assumption | assumption | reflexivity | reflexivity | reflexivity | incl_tac]
  | |- safe ?T _ (swhen ?c
        (sbind (diag _ ?faces ?F1 ?F2) (fun n => copy _ [?a1; ?a2; ?a3] n [?c1; ?c2; ?c3]))) =>
      let k1 := kind_of a1 in let k2 := kind_of a2 in let k3 := kind_of a3 in
      let j1 := kind_of c1 in let j2 := kind_of c2 in let j3 := kind_of c3 in
      apply (step_diag_safe T _ faces c F1 F2 k1 k2 k3 j1 j2 j3);
        [assumption | assumption
        | let Hc := fresh in intros Hc; repeat rewrite andb_true_iff in Hc; tauto
        | simpl; tauto | reflexivity | reflexivity | reflexivity | incl_tac]
  end.

Ltac safe_seq :=
  repeat (cbv beta; first
    [ apply safe_bind; [safe_step | intros _]
    | safe_step
    | apply safe_swhen; intros _ ]).

Lemma block_safe : forall i faces, nth_error (blk_neighbors geom) i = Some faces ->
  safe (T_blk nz ny nx G i) [nb; nz; ny; nx] (guard_cells_block geom (i, faces)).
Proof.
  intros i faces Hn.
  assert (Hin : In faces (blk_neighbors geom)) by exact (nth_error_In _ _ Hn).
  assert (Hi : i < nb) by (assert (i < length (blk_neighbors geom)) by (apply nth_error_Some; congruence); lia).
  unfold guard_cells_block. rewrite Hg. cbv beta zeta iota delta [fst snd].
  safe_seq.
Qed.

Ltac est_step :=
  lazymatch goal with
  | |- est _ _ (swhen (dmem ?faces ?F)
        (sbind (dkey _ _) (fun n => copy _ [?a1; ?a2; ?a3] n [?c1; ?c2; ?c3]))) =>
      let k1 := kind_of a1 in let k2 := kind_of a2 in let k3 := kind_of a3 in
      let j1 := kind_of c1 in let j2 := kind_of c2 in let j3 := kind_of c3 in
      apply (step_face_est _ faces F _ k1 k2 k3 j1 j2 j3);
        [assumption | assumption | assumption | reflexivity | reflexivity | reflexivity | reflexivity]
  end.

Ltac est_skip T := apply (est_bind_r _ _ T); [safe_step | intros _; cbv beta].

Ltac est_here T T' :=
  apply (est_bind_l _ _ T); [safe_step | est_step | intros _; cbv beta;
    apply (pres_safe _ _ T'); [safe_seq | intros ? ?; apply keep_other]].

Lemma block_est : forall i faces F n kz ky kx,
  nth_error (blk_neighbors geom) i = Some faces -> dget faces F = Some n ->
  face_pat F = Some (kz, ky, kx) ->
  est [nb; nz; ny; nx] (slabQ nz ny nx G i (Z.to_nat n) kz ky kx) (guard_cells_block geom (i, faces)).
Proof.
  intros i faces F n kz ky kx Hn E Hp.
  assert (Hin : In faces (blk_neighbors geom)) by exact (nth_error_In _ _ Hn).
  assert (Hib : i < nb) by (assert (i < length (blk_neighbors geom)) by (apply nth_error_Some; congruence); lia).
  assert (Hr : (0 <= n < Z.of_nat nb)%Z)
    by (pose proof (proj2 (layout_faces _ _ Hlay Hin) _ _ (dget_In _ _ _ E)); lia).
  unfold guard_cells_block. rewrite Hg. cbv beta zeta iota delta [fst snd].
  set (T := T_blk nz ny nx G i).
  unfold face_pat in Hp.
  destruct (String.eqb_spec F "right"); [subst F; inversion Hp; subst;
    est_here T (T_other nz ny nx G i Mid Mid Hi)|].
  destruct (String.eqb_spec F "left"); [subst F; inversion Hp; subst; est_skip T;
    est_here T (T_other nz ny nx G i Mid Mid Lo)|].
  destruct (String.eqb_spec F "front"); [subst F; inversion Hp; subst; do 2 est_skip T;
    est_here T (T_other nz ny nx G i Mid Hi Mid)|].
  destruct (String.eqb_spec F "back"); [subst F; inversion Hp; subst; do 3 est_skip T;
    est_here T (T_other nz ny nx G i Mid Lo Mid)|].
  destruct (String.eqb_spec F "up"); [subst F; inversion Hp; subst; do 4 est_skip T;
    est_here T (T_other nz ny nx G i Hi Mid Mid)|].
  destruct (String.eqb_spec F "down"); [subst F; inversion Hp; subst; do 5 est_skip T;
    est_here T (T_other nz ny nx G i Lo Mid Mid)|].
  discriminate Hp.
Qed.

Definition T_all (c : list nat) : Prop := exists j, T_blk nz ny nx G j c.

Lemma whole_safe : safe T_all [nb; nz; ny; nx] (guard_cells_from_data geom).
Proof.
  unfold guard_cells_from_data. apply safe_sfor. intros [j faces] Hin.
  apply in_enumerate_nth in Hin.
  apply (safe_mono _ (T_blk nz ny nx G j)); [intros c Hc; exists j; exact Hc|].
  apply block_safe; exact Hin.
Qed.

Lemma whole_est : forall i faces F n kz ky kx,
  nth_error (blk_neighbors geom) i = Some faces -> dget faces F = Some n ->
  face_pat F = Some (kz, ky, kx) ->
  est [nb; nz; ny; nx] (slabQ nz ny nx G i (Z.to_nat n) kz ky kx) (guard_cells_from_data geom).
Proof.
  intros i faces F n kz ky kx Hn E Hp.
  destruct (enumerate_split _ _ _ Hn) as [l1 [l2 [Hsp Hgt]]].
  unfold guard_cells_from_data. rewrite Hsp.
  apply (est_sfor _ _ T_all).
  - intros [j f] Hin. rewrite <- Hsp in Hin. apply in_enumerate_nth in Hin.
    apply (safe_mono _ (T_blk nz ny nx G j)); [intros c Hc; exists j; exact Hc|].
    apply block_safe; exact Hin.
  - exact (block_est i faces F n kz ky kx Hn E Hp).
  - intros [j f] Hin. pose proof (Hgt j f Hin) as Hij.
    assert (Hj : nth_error (blk_neighbors geom) j = Some f).
    { apply in_enumerate_nth. rewrite Hsp. apply in_or_app. right. right. exact Hin. }
    apply (pres_safe _ _ (T_blk nz ny nx G j)); [apply block_safe; exact Hj|].
    intros d d' Hc. apply (keep_blk j); [lia | exact Hc].
Qed.

End Blocks.

Lemma axcls_eqb_eq : forall a b, axcls_eqb a b = true -> a = b.
Proof. intros [| |] [| |] H; try reflexivity; discriminate H. Qed.

Lemma face_slab_inv : forall G nz ny nx F c, face_slab G [nz; ny; nx] F c = true ->
  exists z y x kz ky kx, c = [z; y; x] /\ face_pat F = Some (kz, ky, kx) /\
    (z < nz /\ y < ny /\ x < nx)%nat /\
    cls nz G z = kz /\ cls ny G y = ky /\ cls nx G x = kx /\
    face_source G [nz; ny; nx] F c = [src_coord nz G kz z; src_coord ny G ky y; src_coord nx G kx x].
Proof.
  intros G nz ny nx F c H. unfold face_slab in H.
  destruct c as [|z [|y [|x [|w c]]]]; try (destruct (face_pat F) as [[[? ?] ?]|]; discriminate H).
  destruct (face_pat F) as [[[kz ky] kx]|] eqn:Ep; [|discriminate H].
  repeat rewrite andb_true_iff in H. destruct H as [[[[[Lz Ly] Lx] Cz] Cy] Cx].
  exists z, y, x, kz, ky, kx. split; [reflexivity|]. split; [reflexivity|].
  split; [apply Nat.ltb_lt in Lz, Ly, Lx; lia|].
  split; [exact (axcls_eqb_eq _ _ Cz)|]. split; [exact (axcls_eqb_eq _ _ Cy)|].
  split; [exact (axcls_eqb_eq _ _ Cx)|].
  unfold face_source. rewrite Ep. reflexivity.
Qed.


(** C5: On a block layout where every block's adjacency entry names a
    same-level neighbor for left, right, front and back (any up and down
    entries also naming a block), with at least one guard layer and every
    axis at least three guard widths long, a single run of the
    neighbor-copy guard fill returns normally and keeps the shape. For
    every block [b] and every face [F] in [b]'s entry, each cell of [b]'s
    guard slab on [F] then equals the matching cell of the interior edge
    slab of the neighbor [faces[F]] it was copied from, and that source
    cell still holds its value from before the fill. *)
Theorem guard_fill_faces : forall geom d nb nz ny nx,
  (0 < guards geom)%Z -> shape d = [nb; nz; ny; nx] ->
  (length (blk_neighbors geom) <= nb)%nat ->
  (3 * guards geom <= Z.of_nat nz)%Z -> (3 * guards geom <= Z.of_nat ny)%Z ->
  (3 * guards geom <= Z.of_nat nx)%Z ->
  layout_ok (blk_neighbors geom) = true ->
  exists d', guard_cells_from_data geom d = (d', Ok tt) /\ shape d' = shape d /\
  forall b faces F n c, nth_error (blk_neighbors geom) b = Some faces -> dget faces F = Some n ->
    face_slab (Z.to_nat (guards geom)) [nz; ny; nx] F c = true ->
    cell d' (b :: c) = cell d' (Z.to_nat n :: face_source (Z.to_nat (guards geom)) [nz; ny; nx] F c) /\
    cell d' (Z.to_nat n :: face_source (Z.to_nat (guards geom)) [nz; ny; nx] F c)
      = cell d (Z.to_nat n :: face_source (Z.to_nat (guards geom)) [nz; ny; nx] F c).
Proof.
  intros geom d nb nz ny nx Hpos Hd Hlen Hz Hy Hx Hlay.
  set (G := Z.to_nat (guards geom)).
  assert (Hg : guards geom = Z.of_nat G) by (unfold G; rewrite Z2Nat.id; lia).
  assert (HG : (0 < G)%nat) by lia.
  assert (Hz' : (3 * G <= nz)%nat) by lia.
  assert (Hy' : (3 * G <= ny)%nat) by lia.
  assert (Hx' : (3 * G <= nx)%nat) by lia.
  destruct (whole_safe geom G nb nz ny nx HG Hg Hlay Hlen Hz' Hy' Hx' d Hd) as [[] [d' [Hr [Hs Hc]]]].
  exists d'. split; [exact Hr|]. split; [rewrite Hs, Hd; reflexivity|].
  intros b faces F n c Hb E Hf.
  destruct (face_slab_inv _ _ _ _ _ _ Hf) as [z [y [x [kz [ky [kx [-> [Hp [[Lz [Ly Lx]] [Cz [Cy [Cx ->]]]]]]]]]]]].
  split.
  - exact (whole_est geom G nb nz ny nx HG Hg Hlay Hlen Hz' Hy' Hx' b faces F n kz ky kx Hb E Hp
             d tt d' Hd Hr z y x Lz Ly Lx Cz Cy Cx).
  - apply Hc. intros [j [z' [y' [x' [Heq Hint]]]]]. inversion Heq; subst.
    rewrite (src_interior G nz ny nx HG Hz' Hy' Hx' z y x _ _ _ Lz Ly Lx eq_refl eq_refl eq_refl) in Hint.
    discriminate Hint.
Qed.

Lemma guard_fill_faces_witness :
  exists d', guard_cells_from_data periodic2x2 blocks2x2 = (d', Ok tt) /\ shape d' = shape blocks2x2 /\
  forall b faces F n c, nth_error (blk_neighbors periodic2x2) b = Some faces -> dget faces F = Some n ->
    face_slab (Z.to_nat (guards periodic2x2)) [3; 3; 3]%nat F c = true ->
    cell d' (b :: c) = cell d' (Z.to_nat n :: face_source (Z.to_nat (guards periodic2x2)) [3; 3; 3]%nat F c) /\
    cell d' (Z.to_nat n :: face_source (Z.to_nat (guards periodic2x2)) [3; 3; 3]%nat F c)
      = cell blocks2x2 (Z.to_nat n :: face_source (Z.to_nat (guards periodic2x2)) [3; 3; 3]%nat F c).
Proof.
  apply (guard_fill_faces periodic2x2 blocks2x2 4%nat 3%nat 3%nat 3%nat);
    [vm_compute; reflexivity | reflexivity | cbn; lia
    | vm_compute; intros Hc; discriminate Hc | vm_compute; intros Hc; discriminate Hc
    | vm_compute; intros Hc; discriminate Hc | vm_compute; reflexivity].
Defined.

(** * Further properties of the collection and field code *)

Lemma sort_by_key_sorted_id : forall l, Sorted key_le l -> sort_by_key l = l.
Proof.
  induction l as [|x xs IH]; intros Hs; simpl; [reflexivity|].
  apply Sorted_inv in Hs as [Hxs Hhd]. rewrite (IH Hxs).
  destruct xs as [|y ys]; simpl; [reflexivity|].
  inversion Hhd; subst. unfold key_le in H0.
  apply Qle_bool_iff in H0. rewrite H0. reflexivity.
Qed.

Lemma distinct_same : forall l a b, keys_distinct l -> In a l -> In b l -> (key a == key b)%Q -> a = b.
Proof.
  unfold keys_distinct. induction l as [|x xs IH]; intros a b Hd Ha Hb Hq; [contradiction|].
  simpl in Hd. inversion Hd as [|k ks Hnin Hd' [Hk Hks]]; subst.
  destruct Ha as [<-|Ha]; destruct Hb as [<-|Hb].
  - reflexivity.
  - exfalso. apply Hnin. apply InA_alt. exists (key b). split; [exact Hq | apply in_map; exact Hb].
  - exfalso. apply Hnin. apply InA_alt. exists (key a). split; [symmetry; exact Hq | apply in_map; exact Ha].
  - exact (IH a b Hd' Ha Hb Hq).
Qed.

Lemma od_get_idx_from : forall k d,
  match od_get (idx_from 0 d) k with
  | Some p => exists d1 r d2, d = d1 ++ r :: d2 /\ p = length d1 /\ (key r == k)%Q /\
              Forall (fun y => Qeq_bool (key y) k = false) d1
  | None => Forall (fun y => Qeq_bool (key y) k = false) d
  end.
Proof.
  intros k d. unfold od_get.
  pose proof (find_idx_from (fun q => Qeq_bool q k) d 0) as H. cbv beta in H.
  destruct (find (fun x => Qeq_bool (fst x) k) (idx_from 0 d)) as [[q p]|].
  - destruct H as [d1 [r [d2 [-> [Hx [Hr Hf]]]]]]. inversion Hx; subst.
    exists d1, r, d2. repeat split; auto. apply Qeq_bool_iff. exact Hr.
  - exact H.
Qed.

Lemma get_present : forall {A} s v k (dflt : A), sd_inv s -> keys_distinct (sd_data s) ->
  In v (sd_data s) -> (key v == k)%Q -> get k dflt s = (validated s, Ok (inl v)).
Proof.
  intros A s v k dflt Hi Hd Hv Hq. destruct (validated_spec s Hi Hd) as [Hm [_ [_ [Hd' Hk]]]].
  assert (Hv' : In v (sd_data (validated s)))
    by exact (Permutation_in v (Permutation_sym (validated_perm s)) Hv).
  unfold get, sbind. rewrite Hm. cbv beta iota. rewrite Hk.
  pose proof (od_get_idx_from k (sd_data (validated s))) as H.
  destruct (od_get (idx_from 0 (sd_data (validated s))) k) as [p|].
  - destruct H as [d1 [r [d2 [Heq [-> [Hr _]]]]]].
    rewrite Heq. rewrite (list_get_nat _ _ r (nth_error_middle d1 r d2)). cbn [rbind].
    assert (r = v).
    { apply (distinct_same (sd_data (validated s))); [exact Hd' | rewrite Heq; apply in_elt | exact Hv' |].
      rewrite Hr, Hq. reflexivity. }
    subst. reflexivity.
  - rewrite Forall_forall in H. specialize (H v Hv'). apply Qeq_bool_iff in Hq. congruence.
Qed.

Lemma get_absent : forall {A} s k (dflt : A), sd_inv s ->
  (forall r, In r (sd_data s) -> ~ (key r == k)%Q) -> get k dflt s = (validated s, Ok (inr dflt)).
Proof.
  intros A s k dflt Hi Hn. unfold get, sbind. rewrite make_valid_eq. cbv beta iota.
  assert (Hm : od_mem (sd_keys (validated s)) k = false).
  { rewrite validated_keys, make_keys_mem by exact Hi.
    apply not_true_iff_false. intros He. apply existsb_exists in He as [r [Hr Hq]].
    apply Qeq_bool_iff in Hq. apply (Hn r); [|exact Hq].
    exact (Permutation_in r (validated_perm s) Hr). }
  unfold od_get. destruct (find (fun p => Qeq_bool (fst p) k) (sd_keys (validated s))) as [[q w]|] eqn:E;
    [|reflexivity].
  apply find_some in E as [Hin Hq]. unfold od_mem in Hm.
  assert (existsb (fun p => Qeq_bool (fst p) k) (sd_keys (validated s)) = true)
    by (apply existsb_exists; exists (q, w); split; assumption).
  congruence.
Qed.

Lemma nil_or_snoc : forall {A} (l : list A), l = [] \/ exists d x, l = d ++ [x].
Proof.
  intros A l. destruct l as [|a l]; [left; reflexivity | right].
  destruct (exists_last (l := a :: l)) as [d [x E]]; [discriminate|]. exists d, x. exact E.
Qed.

Lemma od_mem_idx_from : forall d n k,
  od_mem (idx_from n d) k = existsb (fun r => Qeq_bool (key r) k) d.
Proof. induction d as [|r rs IH]; intros n k; simpl; [reflexivity | rewrite IH; reflexivity]. Qed.

Lemma forallb_perm : forall {A} (f : A -> bool) l l', Permutation l l' -> forallb f l = forallb f l'.
Proof.
  intros A f l l' Hp. destruct (forallb f l) eqn:E1; destruct (forallb f l') eqn:E2; auto.
  - rewrite forallb_forall in E1. apply not_true_iff_false in E2. exfalso. apply E2.
    apply forallb_forall. intros x Hx. apply E1. exact (Permutation_in x (Permutation_sym Hp) Hx).
  - rewrite forallb_forall in E2. apply not_true_iff_false in E1. exfalso. apply E1.
    apply forallb_forall. intros x Hx. apply E2. exact (Permutation_in x Hp Hx).
Qed.

Lemma sorted_snoc : forall l v, Sorted key_le l -> (forall r, In r l -> key_le r v) -> Sorted key_le (l ++ [v]).
Proof.
  induction l as [|a l IH]; intros v Hs Hv; simpl; [constructor; constructor|].
  apply Sorted_inv in Hs as [Hs Hh]. constructor.
  - apply IH; [exact Hs | intros r Hr; apply Hv; right; exact Hr].
  - destruct l as [|b l]; simpl; constructor.
    + apply Hv. left. reflexivity.
    + inversion Hh; assumption.
Qed.

Lemma sorted_last_max : forall d x r, Sorted key_le (d ++ [x]) -> In r (d ++ [x]) -> key_le r x.
Proof.
  intros d x r Hs Hr. apply Sorted_StronglySorted in Hs; [|exact key_le_trans].
  apply in_app_or in Hr as [Hr | [<- | []]].
  - exact (StronglySorted_app_cross _ _ _ Hs r x Hr (or_introl eq_refl)).
  - unfold key_le. apply Qle_refl.
Qed.

Lemma keys_distinct_snoc : forall d v, keys_distinct d ->
  (forall r, In r d -> ~ (key r == key v)%Q) -> keys_distinct (d ++ [v]).
Proof.
  unfold keys_distinct. intros d v Hd Hn. rewrite map_app. simpl.
  apply NoDupA_app; [exact Q_Setoid | exact Hd | constructor; [intros H; inversion H | constructor] |].
  intros q Hq1 Hq2. inversion Hq2 as [? ? Hq|? ? Hq]; subst; [|inversion Hq].
  apply InA_alt in Hq1 as [q' [Hqq Hin]]. apply in_map_iff in Hin as [r [<- Hr]].
  apply (Hn r Hr). rewrite <- Hqq. exact Hq.
Qed.

(** append of a fresh key on a consistent collection *)
Lemma append_new : forall s v, sd_inv s -> keys_distinct (sd_data s) ->
  (forall r, In r (sd_data s) -> ~ (key r == key v)%Q) ->
  append v s = (mkSD (sd_data (validated s) ++ [v]) (idx_from 0 (sd_data (validated s) ++ [v]))
                  (forallb (fun r => Qle_bool (key r) (key v)) (sd_data s))
                  true, Ok tt).
Proof.
  intros s v Hi Hd Hn. destruct (validated_spec s Hi Hd) as [Hm [Hv [Hs [Hd' Hk]]]].
  pose proof (validated_perm s) as Hp.
  unfold append, sbind. rewrite Hm. cbv beta iota. rewrite Hk.
  pose proof (od_get_idx_from (key v) (sd_data (validated s))) as Hg.
  destruct (od_get (idx_from 0 (sd_data (validated s))) (key v)) as [p|].
  { destruct Hg as [d1 [r [d2 [He [_ [Hr _]]]]]]. exfalso. apply (Hn r); [|exact Hr].
    apply (Permutation_in r Hp). rewrite He. apply in_elt. }
  rewrite (forallb_perm _ _ _ (Permutation_sym Hp)).
  assert (Hmem : od_mem (idx_from 0 (sd_data (validated s))) (key v) = false).
  { rewrite od_mem_idx_from. apply existsb_all_false. exact Hg. }
  unfold od_set. rewrite Hmem. rewrite (idx_from_app _ [v] 0). rewrite length_app. simpl.
  replace (length (sd_data (validated s)) + 1 - 1)%nat with (length (sd_data (validated s))) by lia.
  rewrite Hv. f_equal. f_equal.
  destruct (nil_or_snoc (sd_data (validated s))) as [E | [D [x E]]].
  - rewrite E. reflexivity.
  - rewrite E in *. rewrite idx_from_app, rev_app_distr. simpl.
    assert (Hc : forall {B} (b1 b2 : B), match D ++ [x] with [] => b1 | _ :: _ => b2 end = b2)
      by (intros B b1 b2; destruct D; reflexivity).
    rewrite Hc. unfold Qltb. rewrite forallb_app. simpl. rewrite andb_true_r.
    destruct (Qle_bool (key x) (key v)) eqn:Ex; simpl.
    + rewrite andb_true_r. symmetry. apply forallb_forall. intros r Hr. apply Qle_bool_iff.
      apply Qle_bool_iff in Ex. apply (Qle_trans _ (key x)); [|exact Ex].
      apply (sorted_last_max D x r Hs). apply in_or_app. left. exact Hr.
    + rewrite andb_false_r. reflexivity.
Qed.

(** X1: [get] on a collection with sorted data (or not yet
    validated) and pairwise distinct keys returns the element whose key
    equals [k], or the default when no element has that key, and leaves
    the collection validated. *)
Theorem get_by_key : forall {A} s k (dflt : A), sd_inv s -> keys_distinct (sd_data s) ->
  get k dflt s = (validated s, Ok (match find (fun r => Qeq_bool (key r) k) (sd_data s) with
                                   | Some r => inl r
                                   | None => inr dflt
                                   end)).
Proof.
  intros A s k dflt Hi Hd.
  destruct (find (fun r => Qeq_bool (key r) k) (sd_data s)) as [r|] eqn:E.
  - apply find_some in E as [Hr Hq]. apply Qeq_bool_iff in Hq.
    exact (get_present s r k dflt Hi Hd Hr Hq).
  - apply get_absent; [exact Hi|]. intros r Hr Hq.
    pose proof (find_none _ _ E r Hr) as H. simpl in H. apply Qeq_bool_iff in Hq. congruence.
Qed.

Lemma append_new_inv : forall s v, sd_inv s -> keys_distinct (sd_data s) ->
  (forall r, In r (sd_data s) -> ~ (key r == key v)%Q) ->
  sd_inv (mkSD (sd_data (validated s) ++ [v]) (idx_from 0 (sd_data (validated s) ++ [v]))
            (forallb (fun r => Qle_bool (key r) (key v)) (sd_data s))
            true) /\
  keys_distinct (sd_data (validated s) ++ [v]).
Proof.
  intros s v Hi Hd Hn. destruct (validated_spec s Hi Hd) as [_ [_ [Hs [Hd' _]]]].
  pose proof (validated_perm s) as Hp.
  assert (Hn' : forall r, In r (sd_data (validated s)) -> ~ (key r == key v)%Q)
    by (intros r Hr; apply Hn; exact (Permutation_in r Hp Hr)).
  pose proof (keys_distinct_snoc _ _ Hd' Hn') as Hd2. split; [|exact Hd2].
  intros Hf. simpl in Hf |- *. rewrite forallb_forall in Hf. split.
  - apply sorted_snoc; [exact Hs|]. intros r Hr. unfold key_le. apply Qle_bool_iff. apply Hf.
    exact (Permutation_in r Hp Hr).
  - symmetry. apply make_keys_distinct. exact Hd2.
Qed.

(** X2: [append] of an element whose key is new succeeds: the data
    is the old data, re-sorted, followed by the element, keys stay distinct, the
    collection stays valid exactly when no old key is larger, and [get]
    of the new key returns the appended element. *)
Theorem append_fresh : forall s v, sd_inv s -> keys_distinct (sd_data s) ->
  (forall r, In r (sd_data s) -> ~ (key r == key v)%Q) ->
  exists s1, append v s = (s1, Ok tt) /\ sd_inv s1 /\ keys_distinct (sd_data s1) /\
    sd_data s1 = sd_data (validated s) ++ [v] /\
    (sd_valid s1 = true <-> forall r, In r (sd_data s) -> (key r <= key v)%Q) /\
    forall (A : Type) (dflt : A), get (key v) dflt s1 = (validated s1, Ok (inl v)).
Proof.
  intros s v Hi Hd Hn. rewrite (append_new s v Hi Hd Hn).
  destruct (append_new_inv s v Hi Hd Hn) as [Hinv Hd2].
  pose proof (validated_perm s) as Hp.
  eexists. split; [reflexivity|]. split; [exact Hinv|]. split; [exact Hd2|]. split.
  { reflexivity. }
  split.
  { simpl. rewrite forallb_forall. split; intros H r Hr; [apply Qle_bool_iff; exact (H r Hr)|].
    apply Qle_bool_iff. exact (H r Hr). }
  intros A dflt. apply get_present; [exact Hinv | exact Hd2 | simpl; apply in_or_app; right; left; reflexivity |].
  reflexivity.
Qed.

Lemma StronglySorted_remove : forall {A} (R : A -> A -> Prop) l1 x l2,
  StronglySorted R (l1 ++ x :: l2) -> StronglySorted R (l1 ++ l2).
Proof.
  intros A R l1 x l2. induction l1 as [|a l1 IH]; simpl; intros H.
  - inversion H; assumption.
  - inversion H as [|? ? Hs Hf]; subst. constructor; [exact (IH Hs)|].
    rewrite Forall_app in Hf |- *. destruct Hf as [Hf1 Hf2]. inversion Hf2; subst. split; assumption.
Qed.

Lemma sorted_remove : forall l1 x l2, Sorted key_le (l1 ++ x :: l2) -> Sorted key_le (l1 ++ l2).
Proof.
  intros l1 x l2 H. apply StronglySorted_Sorted. apply (StronglySorted_remove _ _ x).
  apply Sorted_StronglySorted; [exact key_le_trans | exact H].
Qed.

Lemma sorted_prefix : forall l1 l2, Sorted key_le (l1 ++ l2) -> Sorted key_le l1.
Proof.
  intros l1 l2 H. apply Sorted_StronglySorted in H; [|exact key_le_trans].
  apply StronglySorted_Sorted. induction l1 as [|a l1 IH]; [constructor|].
  simpl in H. inversion H as [|? ? Hs Hf]; subst. constructor; [exact (IH Hs)|].
  rewrite Forall_app in Hf. exact (proj1 Hf).
Qed.

Lemma distinct_prefix : forall l1 l2, keys_distinct (l1 ++ l2) -> keys_distinct l1.
Proof.
  unfold keys_distinct. intros l1 l2. rewrite map_app. induction l2 as [|x l2 IH] using rev_ind.
  - rewrite app_nil_r. auto.
  - intros H. apply IH. rewrite map_app in H. simpl in H. rewrite app_assoc in H.
    apply (NoDupA_split (eqA := Qeq)) in H. rewrite app_nil_r in H. exact H.
Qed.

Lemma distinct_split : forall d1 v d2, keys_distinct (d1 ++ v :: d2) ->
  forall y, In y (d1 ++ d2) -> ~ (key y == key v)%Q.
Proof.
  unfold keys_distinct. intros d1 v d2 H y Hy Hq. rewrite map_app in H. simpl in H.
  apply (NoDupA_swap (eqA := Qeq)) in H; [|exact Q_Setoid]. inversion H as [|? ? Hn]; subst. apply Hn.
  rewrite <- map_app. apply InA_alt. exists (key y). split; [symmetry; exact Hq | apply in_map; exact Hy].
Qed.

Lemma first_match_unique : forall (P : rec -> bool) d1 v d2 e1 w e2,
  d1 ++ v :: d2 = e1 ++ w :: e2 -> Forall (fun y => P y = false) d1 ->
  Forall (fun y => P y = false) e1 -> P v = true -> P w = true -> d1 = e1 /\ v = w /\ d2 = e2.
Proof.
  intros P d1. induction d1 as [|a d1 IH]; intros v d2 [|b e1] w e2 H Hd He Hv Hw; simpl in H;
    inversion H; subst.
  - auto.
  - inversion He; congruence.
  - inversion Hd; congruence.
  - inversion Hd; inversion He; subst. destruct (IH v d2 e1 w e2) as [-> [-> ->]]; auto.
Qed.

Lemma py_index_lt : forall n i p, py_index n i = Ok p -> (p < n)%nat.
Proof.
  intros n i p H. unfold py_index in H.
  destruct (Z.ltb_spec i 0).
  - destruct (Z.ltb_spec (i + Z.of_nat n) 0); inversion H; lia.
  - destruct (Z.leb_spec (Z.of_nat n) i); inversion H; lia.
Qed.

Lemma py_index_exc : forall n i e, py_index n i = Exc e -> e = IndexError.
Proof.
  intros n i e H. unfold py_index in H.
  destruct (i <? 0)%Z; [destruct (i + Z.of_nat n <? 0)%Z|destruct (Z.of_nat n <=? i)%Z]; congruence.
Qed.

Lemma list_pop_spec : forall {A} (l : list A) i,
  match py_index (length l) i with
  | Ok p => exists x, nth_error l p = Some x /\ l = firstn p l ++ x :: skipn (S p) l /\
            list_pop l i = Ok (x, firstn p l ++ skipn (S p) l)
  | Exc _ => list_pop l i = Exc IndexError
  end.
Proof.
  intros A l i. unfold list_pop. destruct (py_index (length l) i) as [p|e] eqn:E; simpl.
  - apply py_index_lt in E. destruct (nth_error l p) as [x|] eqn:Ex.
    + exists x. split; [reflexivity|]. split; [|reflexivity].
      rewrite <- (firstn_skipn p l) at 1. f_equal.
      clear E. revert p Ex. induction l as [|a l IH]; intros [|p] Ex; simpl in *; try discriminate.
      * inversion Ex; reflexivity.
      * exact (IH p Ex).
    + apply nth_error_None in Ex. lia.
  - apply py_index_exc in E. subst. reflexivity.
Qed.

Lemma validated_sorted : forall s, sd_inv s -> Sorted key_le (sd_data (validated s)).
Proof.
  intros s Hi. unfold validated, make_valid. destruct (sd_valid s) eqn:E; simpl.
  - exact (proj1 (Hi E)).
  - apply sort_by_key_sorted.
Qed.

(** The read-through of an invalidated state over sorted data is that data. *)
Lemma iter_invalid_sorted : forall d ks h, Sorted key_le d -> snd (iter (mkSD d ks false h)) = Ok d.
Proof.
  intros d ks h Hs. unfold iter, sbind, make_valid. simpl. rewrite sort_by_key_sorted_id by exact Hs.
  reflexivity.
Qed.

(** X3: [pop] with a float key removes the element of that key and
    returns the key; the remaining elements keep their order.  When no
    element has the key, [pop] returns the default, or raises KeyError
    when no default is given. *)
Theorem pop_by_key : forall {A} s k (dflt : option A), sd_inv s -> keys_distinct (sd_data s) ->
  (forall d1 v d2, sd_data (validated s) = d1 ++ v :: d2 -> (key v == k)%Q ->
     exists s1, pop (NFloat k) dflt s = (s1, Ok (PopKey k)) /\ snd (iter s1) = Ok (d1 ++ d2)) /\
  ((forall r, In r (sd_data s) -> ~ (key r == k)%Q) ->
     pop (NFloat k) dflt s = (validated s, match dflt with
                                           | Some a => Ok (PopDefault a)
                                           | None => Exc KeyError
                                           end)).
Proof.
  intros A s k dflt Hi Hd. destruct (validated_spec s Hi Hd) as [Hm [_ [Hs [Hd' Hk]]]].
  pose proof (validated_perm s) as Hp.
  unfold pop, sbind. rewrite Hm. cbv beta iota. rewrite Hk, od_mem_idx_from. split.
  - intros d1 v d2 HD Hv. rewrite HD in *.
    assert (Hf1 : Forall (fun y => Qeq_bool (key y) k = false) d1).
    { apply Forall_forall. intros y Hy. apply not_true_iff_false. intros Hq. apply Qeq_bool_iff in Hq.
      apply (distinct_split d1 v d2 Hd' y); [apply in_or_app; left; exact Hy|]. rewrite Hq, Hv.
      reflexivity. }
    replace (existsb (fun r => Qeq_bool (key r) k) (d1 ++ v :: d2)) with true
      by (symmetry; apply existsb_exists; exists v; split; [apply in_elt | apply Qeq_bool_iff; exact Hv]).
    pose proof (od_get_idx_from k (d1 ++ v :: d2)) as Hg.
    destruct (od_get (idx_from 0 (d1 ++ v :: d2)) k) as [p|].
    + destruct Hg as [e1 [w [e2 [He [-> [Hw Hfe]]]]]].
      destruct (first_match_unique (fun y => Qeq_bool (key y) k) d1 v d2 e1 w e2 He Hf1 Hfe)
        as [<- [<- <-]]; [apply Qeq_bool_iff; exact Hv | apply Qeq_bool_iff; exact Hw |].
      pose proof (list_pop_spec (d1 ++ v :: d2) (Z.of_nat (length d1))) as Hl.
      assert (Hpi : py_index (length (d1 ++ v :: d2)) (Z.of_nat (length d1)) = Ok (length d1)).
      { unfold py_index. rewrite length_app. simpl.
        destruct (Z.ltb_spec (Z.of_nat (length d1)) 0); [lia|].
        destruct (Z.leb_spec (Z.of_nat (length d1 + S (length d2))) (Z.of_nat (length d1))); [lia|].
        rewrite Nat2Z.id. reflexivity. }
      rewrite Hpi in Hl. destruct Hl as [x [Hx [_ Hl]]]. rewrite Hl.
      rewrite firstn_length_app. replace (S (length d1)) with (length (d1 ++ [v]))
        by (rewrite length_app; simpl; lia).
      replace (d1 ++ v :: d2) with ((d1 ++ [v]) ++ d2) by (rewrite <- app_assoc; reflexivity).
      rewrite skipn_length_app. eexists. split; [reflexivity|].
      apply iter_invalid_sorted. exact (sorted_remove d1 v d2 Hs).
    + rewrite Forall_forall in Hg. specialize (Hg v (in_elt v d1 d2)).
      apply Qeq_bool_iff in Hv. congruence.
  - intros Hn. replace (existsb (fun r => Qeq_bool (key r) k) (sd_data (validated s))) with false.
    + destruct dflt; reflexivity.
    + symmetry. apply existsb_all_false. apply Forall_forall. intros y Hy.
      apply not_true_iff_false. intros Hq. apply Qeq_bool_iff in Hq.
      exact (Hn y (Permutation_in y Hp Hy) Hq).
Qed.

(** X4: [pop] with an integer index removes and returns the element
    at that Python index of the sorted data; an index out of range raises
    IndexError and leaves the elements as they were. *)
Theorem pop_by_index : forall {A} s i (dflt : option A), sd_inv s ->
  match py_index (length (sd_data (validated s))) i with
  | Ok p => exists r s1, nth_error (sd_data (validated s)) p = Some r /\
            pop (NInt i) dflt s = (s1, Ok (PopRec r)) /\
            snd (iter s1) = Ok (firstn p (sd_data (validated s)) ++ skipn (S p) (sd_data (validated s)))
  | Exc _ => exists s1, pop (NInt i) dflt s = (s1, Exc IndexError) /\
             snd (iter s1) = Ok (sd_data (validated s))
  end.
Proof.
  intros A s i dflt Hi. pose proof (validated_sorted s Hi) as Hs.
  unfold pop, sbind. rewrite make_valid_eq. cbv beta iota.
  pose proof (list_pop_spec (sd_data (validated s)) i) as Hl.
  destruct (py_index (length (sd_data (validated s))) i) as [p|e].
  - destruct Hl as [x [Hx [He Hl]]]. rewrite Hl. exists x. eexists. split; [exact Hx|].
    split; [reflexivity|]. apply iter_invalid_sorted. rewrite He in Hs. exact (sorted_remove _ _ _ Hs).
  - rewrite Hl. eexists. split; [reflexivity|]. apply iter_invalid_sorted. exact Hs.
Qed.

(** X5: [popitem] on an empty collection raises KeyError; on a
    non-empty one it removes and returns (key, element) of the element
    with the largest key, and the rest stays sorted and valid. *)
Theorem popitem_last : forall s, sd_inv s -> keys_distinct (sd_data s) ->
  (sd_data s = [] -> popitem s = (validated s, Exc KeyError)) /\
  (sd_data s <> [] -> exists d x, sd_data (validated s) = d ++ [x] /\
     popitem s = (mkSD d (idx_from 0 d) true true, Ok (key x, x)) /\
     sd_inv (mkSD d (idx_from 0 d) true true) /\
     iter (mkSD d (idx_from 0 d) true true) = (mkSD d (idx_from 0 d) true true, Ok d) /\
     forall r, In r (sd_data s) -> (key r <= key x)%Q).
Proof.
  intros s Hi Hd. destruct (validated_spec s Hi Hd) as [Hm [Hv [Hs [Hd' Hk]]]].
  pose proof (validated_perm s) as Hp.
  unfold popitem, sbind. rewrite Hm. cbv beta iota. split.
  - intros He. rewrite He in Hp. apply Permutation_sym, Permutation_nil in Hp. rewrite Hp. reflexivity.
  - intros Hne. destruct (nil_or_snoc (sd_data (validated s))) as [E | [d [x E]]].
    { rewrite E in Hp. apply Permutation_nil in Hp. contradiction. }
    exists d, x. split; [exact E|]. rewrite E in *. rewrite Hk.
    rewrite idx_from_app, rev_app_distr. simpl.
    assert (Hc : forall {B} (b1 b2 : B), match d ++ [x] with [] => b1 | _ :: _ => b2 end = b2)
      by (intros B b1 b2; destruct d; reflexivity).
    rewrite Hc, rev_involutive.
    assert (Hl : list_pop (d ++ [x]) (-1) = Ok (x, d)).
    { assert (Hpi : py_index (length (d ++ [x])) (-1) = Ok (length d)).
      { unfold py_index. change (-1 <? 0)%Z with true. cbv iota. rewrite length_app. simpl length.
        destruct (Z.ltb_spec (-1 + Z.of_nat (length d + 1)) 0); [lia|]. f_equal. lia. }
      unfold list_pop. rewrite Hpi. cbn [rbind].
      rewrite (nth_error_middle d x []), firstn_length_app.
      replace (S (length d)) with (length (d ++ [x])) by (rewrite length_app; simpl; lia).
      rewrite skipn_all, app_nil_r. reflexivity. }
    rewrite Hl, Hv.
    assert (Hsd : Sorted key_le d) by exact (sorted_prefix d [x] Hs).
    assert (Hdd : keys_distinct d) by exact (distinct_prefix d [x] Hd').
    split; [reflexivity|]. split.
    { intros _. simpl. split; [exact Hsd | symmetry; apply make_keys_distinct; exact Hdd]. }
    split; [reflexivity|].
    intros r Hr. apply (sorted_last_max d x r Hs). exact (Permutation_in r (Permutation_sym Hp) Hr).
Qed.




Lemma od_get_none : forall d k, od_mem d k = false -> od_get d k = None.
Proof.
  intros d k H. unfold od_get. destruct (find (fun p => Qeq_bool (fst p) k) d) as [[q w]|] eqn:E;
    [|reflexivity].
  apply find_some in E as [Hin Hq]. unfold od_mem in H.
  assert (existsb (fun p => Qeq_bool (fst p) k) d = true) by (apply existsb_exists; exists (q, w); auto).
  congruence.
Qed.

Lemma extend_fresh : forall s l, sd_inv s ->
  (forall r q, In r (sd_data s) -> In q l -> ~ (key r == key q)%Q) ->
  extend l s = (mkSD (sd_data (validated s) ++ l) (make_keys (sd_data (validated s))) false true, Ok tt).
Proof.
  intros s l Hi Hn. unfold extend, sbind. rewrite make_valid_eq. cbv beta iota.
  rewrite (validated_keys s Hi). unfold set_is_unique, first_true.
  replace (find (fun k => od_mem (make_keys (sd_data (validated s))) k) (map key l)) with (@None Q);
    [reflexivity|].
  symmetry. apply find_all_false. apply Forall_forall. intros k Hk. rewrite make_keys_mem.
  apply existsb_all_false. apply Forall_forall. intros r Hr. apply not_true_iff_false. intros Hq.
  apply in_map_iff in Hk as [q [<- Hq']]. apply Qeq_bool_iff in Hq.
  exact (Hn r q (Permutation_in r (validated_perm s) Hr) Hq' Hq).
Qed.

(** X7: After [extend] with new keys, [setdefault] of a just
    added key raises KeyError (its key map is stale), while [get] of the
    same key finds the element. *)
Theorem setdefault_stale_after_extend : forall {A} s l (dflt : A), sd_inv s ->
  (forall r q, In r (sd_data s) -> In q l -> ~ (key r == key q)%Q) ->
  exists s1, extend l s = (s1, Ok tt) /\ forall q, In q l ->
    setdefault (key q) dflt s1 = (s1, Exc KeyError) /\
    exists r, get (key q) dflt s1 = (validated s1, Ok (inl r)) /\ (key r == key q)%Q.
Proof.
  intros A s l dflt Hi Hn. rewrite (extend_fresh s l Hi Hn). eexists. split; [reflexivity|].
  intros q Hq. split.
  - unfold setdefault. simpl. rewrite od_get_none; [reflexivity|].
    rewrite make_keys_mem. apply existsb_all_false. apply Forall_forall. intros r Hr.
    apply not_true_iff_false. intros Hrq. apply Qeq_bool_iff in Hrq.
    exact (Hn r q (Permutation_in r (validated_perm s) Hr) Hq Hrq).
  - unfold get, sbind, make_valid. simpl.
    set (L := sort_by_key (sd_data (validated s) ++ l)).
    assert (HqL : In q L).
    { apply (Permutation_in q (Permutation_sym (sort_by_key_perm _))). apply in_or_app. right. exact Hq. }
    assert (Hm : od_mem (make_keys L) (key q) = true).
    { rewrite make_keys_mem. apply existsb_exists. exists q. split; [exact HqL | apply Qeq_bool_iff; reflexivity]. }
    destruct (od_get_of_mem _ _ Hm) as [p Hp]. rewrite Hp.
    destruct (make_keys_pos L (key q) p Hp) as [r [Hr Hrq]].
    rewrite (list_get_nat L p r Hr). exists r. split; [reflexivity | exact Hrq].
Qed.

Lemma filter_perm : forall {A} (f : A -> bool) l l', Permutation l l' -> Permutation (filter f l) (filter f l').
Proof.
  intros A f l l' H. induction H; simpl.
  - constructor.
  - destruct (f x); [constructor|]; assumption.
  - destruct (f x), (f y); try constructor; reflexivity.
  - eapply perm_trans; eassumption.
Qed.

Lemma filter_id : forall {A} (f : A -> bool) l, (forall x, In x l -> f x = true) -> filter f l = l.
Proof.
  intros A f l H. induction l as [|a l IH]; simpl; [reflexivity|].
  rewrite (H a (or_introl eq_refl)). f_equal. apply IH. intros x Hx. apply H. right. exact Hx.
Qed.

Lemma sorted_replace : forall d1 r v d2, Sorted key_le (d1 ++ r :: d2) -> (key r == key v)%Q ->
  Sorted key_le (d1 ++ v :: d2).
Proof.
  intros d1 r v d2 H Hq. apply StronglySorted_Sorted.
  apply Sorted_StronglySorted in H; [|exact key_le_trans]. induction d1 as [|a d1 IH]; simpl in *.
  - inversion H as [|? ? Hs Hf]; subst. constructor; [exact Hs|].
    eapply Forall_impl; [|exact Hf]. unfold key_le. intros y Hy. rewrite <- Hq. exact Hy.
  - inversion H as [|? ? Hs Hf]; subst. constructor; [exact (IH Hs)|].
    rewrite Forall_app in Hf |- *. destruct Hf as [Hf1 Hf2]. inversion Hf2 as [|? ? Hr Hf3]; subst.
    split; [exact Hf1|]. constructor; [|exact Hf3]. unfold key_le in *. rewrite <- Hq. exact Hr.
Qed.

Lemma list_set_mid : forall {A} (d1 : list A) r v d2,
  list_set (d1 ++ r :: d2) (Z.of_nat (length d1)) v = Ok (d1 ++ v :: d2).
Proof.
  intros A d1 r v d2. unfold list_set, py_index. rewrite length_app. simpl length.
  destruct (Z.ltb_spec (Z.of_nat (length d1)) 0); [lia|].
  destruct (Z.leb_spec (Z.of_nat (length d1 + S (length d2))) (Z.of_nat (length d1))); [lia|].
  cbn [rbind]. rewrite Nat2Z.id, nth_error_middle, firstn_length_app.
  replace (S (length d1)) with (length (d1 ++ [r])) by (rewrite length_app; simpl; lia).
  replace (d1 ++ r :: d2) with ((d1 ++ [r]) ++ d2) by (rewrite <- app_assoc; reflexivity).
  rewrite skipn_length_app. reflexivity.
Qed.

Lemma validated_idem : forall s, validated (validated s) = validated s.
Proof. intros s. unfold validated at 1. rewrite make_valid_validated. reflexivity. Qed.

Lemma validated_inv : forall s, sd_inv s -> sd_inv (validated s).
Proof. intros s Hi _. split; [exact (validated_sorted s Hi) | exact (validated_keys s Hi)]. Qed.

(** X8: [update] with one element replaces the element of the same
    key, or inserts it when the key is new; afterwards [get] of that key
    returns it and the data is the other elements plus the new one, sorted. *)
Theorem update_single : forall s v, sd_inv s -> keys_distinct (sd_data s) ->
  exists s1, update [v] s = (s1, Ok tt) /\
    (forall (A : Type) (dflt : A), get (key v) dflt s1 = (validated s1, Ok (inl v))) /\
    Sorted key_le (sd_data (validated s1)) /\
    Permutation (sd_data (validated s1))
                (v :: filter (fun r => negb (Qeq_bool (key r) (key v))) (sd_data s)).
Proof.
  intros s v Hi Hd. destruct (validated_spec s Hi Hd) as [Hm [Hv [Hs [Hd' Hk]]]].
  pose proof (validated_perm s) as Hp.
  unfold update. cbn [sfor]. unfold sbind at 1. rewrite Hm. cbv beta iota.
  unfold setitem_float, sbind. rewrite make_valid_validated. cbv beta iota.
  rewrite Hk, od_mem_idx_from.
  destruct (existsb (fun r => Qeq_bool (key r) (key v)) (sd_data (validated s))) eqn:Em.
  - pose proof (od_get_idx_from (key v) (sd_data (validated s))) as Hg.
    destruct (od_get (idx_from 0 (sd_data (validated s))) (key v)) as [p|] eqn:Eg.
    2:{ apply existsb_exists in Em as [r [Hr Hq]]. rewrite Forall_forall in Hg.
        rewrite (Hg r Hr) in Hq. discriminate. }
    destruct Hg as [d1 [r [d2 [HD [-> [Hr _]]]]]]. rewrite HD, list_set_mid. rewrite Hv.
    eexists. split; [reflexivity|].
    assert (Hval : validated (mkSD (d1 ++ v :: d2) (idx_from 0 (d1 ++ r :: d2)) true true)
                   = mkSD (d1 ++ v :: d2) (idx_from 0 (d1 ++ r :: d2)) true true) by reflexivity.
    rewrite Hval. rewrite HD in Eg. split; [|split].
    + intros A dflt. unfold get, sbind, make_valid. simpl. rewrite Eg.
      rewrite (list_get_nat _ _ v (nth_error_middle d1 v d2)). reflexivity.
    + simpl. rewrite HD in Hs. exact (sorted_replace d1 r v d2 Hs Hr).
    + simpl. rewrite <- Permutation_middle. constructor.
      rewrite (filter_perm _ _ _ (Permutation_sym Hp)), HD, filter_app. simpl.
      assert (Hr' : Qeq_bool (key r) (key v) = true) by (apply Qeq_bool_iff; exact Hr).
      rewrite Hr'. simpl. rewrite HD in Hd'.
      rewrite !filter_id; [reflexivity| |];
        intros y Hy; apply negb_true_iff, not_true_iff_false; intros Hq; apply Qeq_bool_iff in Hq;
        apply (distinct_split d1 r d2 Hd' y); try (rewrite Hq; symmetry; exact Hr);
        apply in_or_app; auto.
  - assert (Hn : forall r, In r (sd_data (validated s)) -> ~ (key r == key v)%Q).
    { intros r Hr Hq. apply Qeq_bool_iff in Hq.
      assert (existsb (fun r => Qeq_bool (key r) (key v)) (sd_data (validated s)) = true)
        by (apply existsb_exists; exists r; auto).
      congruence. }
    pose proof (validated_inv s Hi) as Hi'.
    rewrite (append_new (validated s) v Hi' Hd' Hn), validated_idem. cbv beta iota.
    destruct (append_new_inv (validated s) v Hi' Hd' Hn) as [Hinv Hd2]. rewrite validated_idem in Hinv, Hd2.
    eexists. split; [reflexivity|]. split; [|split].
    + intros A dflt. apply get_present; [exact Hinv | exact Hd2 | |reflexivity].
      simpl. apply in_or_app. right. left. reflexivity.
    + exact (proj1 (proj2 (proj2 (validated_spec _ Hinv Hd2)))).
    + eapply perm_trans; [apply validated_perm|]. simpl.
      rewrite filter_id.
      * eapply perm_trans; [apply Permutation_app_tail; exact Hp|].
        apply Permutation_sym, Permutation_cons_append.
      * intros y Hy. apply negb_true_iff, not_true_iff_false. intros Hq. apply Qeq_bool_iff in Hq.
        apply (Hn y); [exact (Permutation_in y (Permutation_sym Hp) Hy) | exact Hq].
Qed.

Lemma nth_error_key_unique : forall d i j a b, keys_distinct d ->
  nth_error d i = Some a -> nth_error d j = Some b -> (key a == key b)%Q -> i = j.
Proof.
  unfold keys_distinct. induction d as [|x d IH]; intros [|i] [|j] a b Hd Ha Hb Hq; simpl in *;
    try discriminate; auto.
  - inversion Ha; subst. inversion Hd as [|? ? Hn]; subst. exfalso. apply Hn.
    apply InA_alt. exists (key b). split; [exact Hq|]. apply in_map. exact (nth_error_In _ _ Hb).
  - inversion Hb; subst. inversion Hd as [|? ? Hn]; subst. exfalso. apply Hn.
    apply InA_alt. exists (key a). split; [symmetry; exact Hq|]. apply in_map. exact (nth_error_In _ _ Ha).
  - inversion Hd; subst. f_equal. exact (IH i j a b H2 Ha Hb Hq).
Qed.

Lemma list_set_spec : forall {A} (l : list A) i v,
  match py_index (length l) i with
  | Ok p => list_set l i v = Ok (firstn p l ++ v :: skipn (S p) l)
  | Exc _ => list_set l i v = Exc IndexError
  end.
Proof.
  intros A l i v. unfold list_set. destruct (py_index (length l) i) as [p|e] eqn:E; simpl.
  - apply py_index_lt in E. destruct (nth_error l p) eqn:Ex; [reflexivity|].
    apply nth_error_None in Ex. lia.
  - apply py_index_exc in E. subst. reflexivity.
Qed.

(** X9: [sd[i] = v] with an integer index raises a mismatch
    ValueError when another position holds the key of [v]; otherwise it
    replaces the element at Python index [i] by [v] and re-sorts, or
    raises IndexError for an index out of range. *)
Theorem setitem_int_spec : forall s i v, sd_inv s -> keys_distinct (sd_data s) ->
  (forall j r, nth_error (sd_data (validated s)) j = Some r -> (key r == key v)%Q -> Z.of_nat j <> i ->
     setitem_int i v s = (validated s, Exc (ValueError_mismatch_at j))) /\
  ((forall j r, nth_error (sd_data (validated s)) j = Some r -> (key r == key v)%Q -> Z.of_nat j = i) ->
     match py_index (length (sd_data (validated s))) i with
     | Ok p => exists s1, setitem_int i v s = (s1, Ok tt) /\ Sorted key_le (sd_data (validated s1)) /\
               Permutation (sd_data (validated s1))
                 (v :: firstn p (sd_data (validated s)) ++ skipn (S p) (sd_data (validated s)))
     | Exc _ => setitem_int i v s = (validated s, Exc IndexError)
     end).
Proof.
  intros s i v Hi Hd. destruct (validated_spec s Hi Hd) as [Hm [_ [_ [Hd' Hk]]]].
  unfold setitem_int, sbind. rewrite Hm. cbv beta iota. rewrite Hk, od_mem_idx_from. split.
  - intros j r Hr Hq Hne.
    replace (existsb (fun r => Qeq_bool (key r) (key v)) (sd_data (validated s))) with true
      by (symmetry; apply existsb_exists; exists r; split;
          [exact (nth_error_In _ _ Hr) | apply Qeq_bool_iff; exact Hq]).
    pose proof (od_get_idx_from (key v) (sd_data (validated s))) as Hg.
    destruct (od_get (idx_from 0 (sd_data (validated s))) (key v)) as [p|].
    + destruct Hg as [e1 [w [e2 [HD [-> [Hw _]]]]]].
      assert (Hj : length e1 = j).
      { apply (nth_error_key_unique (sd_data (validated s)) _ _ w r Hd'); [rewrite HD; apply nth_error_middle | exact Hr |].
        rewrite Hw, Hq. reflexivity. }
      subst j. destruct (Z.eqb_spec i (Z.of_nat (length e1))); [lia | reflexivity].
    + rewrite Forall_forall in Hg. specialize (Hg r (nth_error_In _ _ Hr)).
      apply Qeq_bool_iff in Hq. congruence.
  - intros Hall.
    assert (Hc : (if existsb (fun r => Qeq_bool (key r) (key v)) (sd_data (validated s)) then
                    match od_get (idx_from 0 (sd_data (validated s))) (key v) with
                    | Some p => if Z.eqb i (Z.of_nat p) then None else Some p
                    | None => None
                    end else None) = None).
    { destruct (existsb _ _); [|reflexivity].
      pose proof (od_get_idx_from (key v) (sd_data (validated s))) as Hg.
      destruct (od_get (idx_from 0 (sd_data (validated s))) (key v)) as [p|]; [|reflexivity].
      destruct Hg as [e1 [w [e2 [HD [-> [Hw _]]]]]].
      rewrite (Hall (length e1) w); [rewrite Z.eqb_refl; reflexivity | rewrite HD; apply nth_error_middle | exact Hw]. }
    rewrite Hc. pose proof (list_set_spec (sd_data (validated s)) i v) as Hl.
    destruct (py_index (length (sd_data (validated s))) i) as [p|e]; rewrite Hl; [|reflexivity].
    eexists. split; [reflexivity|]. unfold validated, make_valid. simpl. split; [apply sort_by_key_sorted|].
    eapply perm_trans; [apply sort_by_key_perm|]. apply Permutation_sym, Permutation_middle.
Qed.

Lemma list_slice_suffix : forall {A} (l : list A) b, (b <= length l)%nat ->
  list_slice l (Some (Z.of_nat b)) None None = Ok (skipn b l).
Proof.
  intros A l b Hb. rewrite list_slice_step1. cbv zeta. rewrite slice_adjust_in by exact Hb.
  cbn [slice_adjust]. rewrite Nat2Z.id, firstn_all2; [reflexivity|].
  rewrite length_skipn. lia.
Qed.

Lemma set_is_unique_q_spec : forall src sq,
  set_is_unique_q src sq = true <-> forall k q, In k sq -> In q src -> ~ (k == q)%Q.
Proof.
  intros src sq. unfold set_is_unique_q, first_true.
  destruct (find (fun k => existsb (Qeq_bool k) src) sq) as [k|] eqn:E; split; intros H.
  - discriminate.
  - apply find_some in E as [Hk Hx]. apply existsb_exists in Hx as [q [Hq Hkq]].
    apply Qeq_bool_iff in Hkq. exfalso. exact (H k q Hk Hq Hkq).
  - intros k q Hk Hq Hkq. pose proof (find_none _ _ E k Hk) as Hn. simpl in Hn.
    assert (existsb (Qeq_bool k) src = true)
      by (apply existsb_exists; exists q; split; [exact Hq | apply Qeq_bool_iff; exact Hkq]).
    congruence.
  - reflexivity.
Qed.

Lemma list_slice_upto : forall {A} (l : list A) start,
  list_slice l None start None =
  Ok (firstn (Z.to_nat (slice_adjust (Z.of_nat (length l)) 1 start (Z.of_nat (length l)))) l).
Proof.
  intros A l start. rewrite list_slice_step1. cbv zeta.
  change (slice_adjust (Z.of_nat (length l)) 1 None 0) with 0%Z.
  rewrite Z.sub_0_r. reflexivity.
Qed.

Lemma list_slice_from : forall {A} (l : list A) stop,
  list_slice l stop None None =
  Ok (skipn (Z.to_nat (slice_adjust (Z.of_nat (length l)) 1 stop 0)) l).
Proof.
  intros A l stop. rewrite list_slice_step1. cbv zeta.
  change (slice_adjust (Z.of_nat (length l)) 1 None (Z.of_nat (length l))) with (Z.of_nat (length l)).
  pose proof (slice_adjust_step1 (Z.of_nat (length l)) stop 0) as H.
  rewrite firstn_all2; [reflexivity|]. rewrite length_skipn. lia.
Qed.

(** X10: [sd[start:stop] = value], for any integer bounds (either may be
    None), masks [data[:start] | data[stop:]], where a missing bound selects
    the whole data. When no key of [value] occurs in the mask, the data
    becomes [data[:a] + value + data[max(a,b):]] for the clamped bounds [a]
    and [b] of [list_ass_slice], re-sorted; when one does, it raises the
    not-unique ValueError, after the deferred re-sort only. *)
Theorem setitem_slice_spec : forall s (start stop : option Z) value,
  let D := sd_data (validated s) in
  let n := Z.of_nat (length D) in
  let masked := firstn (Z.to_nat (slice_adjust n 1 start n)) D ++
                skipn (Z.to_nat (slice_adjust n 1 stop 0)) D in
  let a := slice_adjust n 1 start 0 in
  let b := slice_adjust n 1 stop n in
  ((forall r q, In r masked -> In q value -> ~ (key r == key q)%Q) ->
     exists s1, setitem_slice_int start stop value s = (s1, Ok tt) /\
       Sorted key_le (sd_data (validated s1)) /\
       Permutation (sd_data (validated s1))
         (firstn (Z.to_nat a) D ++ value ++ skipn (Z.to_nat (Z.max a b)) D)) /\
  (forall r q, In r masked -> In q value -> (key r == key q)%Q ->
     setitem_slice_int start stop value s = (validated s, Exc ValueError_nonunique)).
Proof.
  intros s start stop value D n masked a b. unfold setitem_slice_int, sbind.
  rewrite make_valid_eq. cbv beta iota.
  rewrite list_slice_upto, list_slice_from. fold D n.
  assert (Hset : list_setslice D start stop value
                 = Ok (firstn (Z.to_nat a) D ++ value ++ skipn (Z.to_nat (Z.max a b)) D))
    by reflexivity.
  fold D. rewrite Hset, <- map_app. fold masked. split.
  - intros Hn. replace (set_is_unique_q _ _) with true.
    + eexists. split; [reflexivity|]. unfold validated, make_valid. simpl.
      split; [apply sort_by_key_sorted | apply sort_by_key_perm].
    + symmetry. apply set_is_unique_q_spec. intros k q Hk Hq Hkq.
      apply in_map_iff in Hk as [x [<- Hx]]. apply in_map_iff in Hq as [y [<- Hy]].
      exact (Hn y x Hy Hx (Qeq_sym _ _ Hkq)).
  - intros r q Hr Hq Hrq. replace (set_is_unique_q _ _) with false; [reflexivity|].
    symmetry. apply not_true_iff_false. rewrite set_is_unique_q_spec. intros H.
    apply (H (key q) (key r)); [apply in_map; exact Hq | apply in_map; exact Hr | symmetry; exact Hrq].
Qed.

(** X11: [sd + l] with new keys gives a collection with the same
    data as [extend l] applied to [sd], and leaves [sd]'s own elements
    unchanged. *)
Theorem concat_as_extend : forall s l, sd_inv s ->
  (forall r q, In r (sd_data s) -> In q l -> ~ (key r == key q)%Q) ->
  exists s1 s2 c, extend l s = (s1, Ok tt) /\ concat l s = (s2, Ok c) /\
    sd_data (validated c) = sd_data (validated s1) /\
    Sorted key_le (sd_data (validated s1)) /\ Permutation (sd_data (validated s1)) (sd_data s ++ l) /\
    snd (iter s2) = Ok (sd_data (validated s)).
Proof.
  intros s l Hi Hn. pose proof (validated_sorted s Hi) as Hs.
  assert (Hc : concat l s = (mkSD (sd_data (validated s)) (make_keys (sd_data (validated s))) false true,
                             Ok (sd_init (sd_data (validated s) ++ l)))).
  { pose proof (extend_fresh s l Hi Hn) as He. unfold extend, concat, sbind in *.
    rewrite make_valid_eq in *. cbv beta iota in *. rewrite (validated_keys s Hi) in *.
    destruct (negb _); [discriminate | reflexivity]. }
  rewrite (extend_fresh s l Hi Hn), Hc. do 3 eexists. split; [reflexivity|]. split; [reflexivity|].
  split; [reflexivity|].
  assert (Hv : forall ks, validated (mkSD (sd_data (validated s) ++ l) ks false true)
                 = mkSD (sort_by_key (sd_data (validated s) ++ l))
                        (make_keys (sort_by_key (sd_data (validated s) ++ l))) true true)
    by reflexivity.
  rewrite Hv. cbn [sd_data]. split; [apply sort_by_key_sorted|]. split.
  - eapply perm_trans; [apply sort_by_key_perm|]. apply Permutation_app_tail. apply validated_perm.
  - apply iter_invalid_sorted. exact Hs.
Qed.

(** X12: [copy] returns a collection that iterates over the same
    elements, in the same order, as the original. *)
Theorem copy_same_items : forall s, sd_inv s ->
  exists c, sd_copy s = (validated s, Ok c) /\ snd (iter c) = snd (iter s).
Proof.
  intros s Hi. unfold sd_copy, sbind. rewrite make_valid_eq. cbv beta iota. eexists. split; [reflexivity|].
  unfold iter, sbind. rewrite (make_valid_eq s). cbv beta iota. unfold sd_init, make_valid. simpl.
  rewrite sort_by_key_sorted_id by exact (validated_sorted s Hi). reflexivity.
Qed.

Lemma map_fst_idx_from : forall d n, map fst (idx_from n d) = map key d.
Proof. induction d as [|r d IH]; intros n; simpl; [reflexivity | rewrite IH; reflexivity]. Qed.

Lemma sorted_strict : forall d, Sorted key_le d -> keys_distinct d -> Sorted Qlt (map key d).
Proof.
  unfold keys_distinct. induction d as [|a d IH]; intros Hs Hd; simpl; [constructor|].
  apply Sorted_inv in Hs as [Hs Hh]. inversion Hd as [|? ? Hn Hd']; subst.
  constructor; [exact (IH Hs Hd')|]. destruct d as [|b d]; simpl; constructor.
  inversion Hh as [|? ? Hab]; subst. unfold key_le in Hab.
  destruct (Qle_lt_or_eq _ _ Hab) as [Hlt | Heq]; [exact Hlt|].
  exfalso. apply Hn. simpl. left. exact Heq.
Qed.

Lemma skipn_nth_error : forall {A} (D : list A) n r l, skipn n D = r :: l -> nth_error D n = Some r.
Proof.
  intros A D. induction D as [|x D IH]; intros [|n] r l H; simpl in *; try discriminate.
  - inversion H; reflexivity.
  - exact (IH n r l H).
Qed.

Lemma mapM_items : forall D l n, skipn n D = l ->
  mapM (fun kp => r <-? list_get D (Z.of_nat (snd kp)) ;; Ok (fst kp, r)) (idx_from n l)
  = Ok (map (fun r => (key r, r)) l).
Proof.
  intros D. induction l as [|r l IH]; intros n Hl; simpl; [reflexivity|].
  assert (Hr : nth_error D n = Some r) by exact (skipn_nth_error D n r l Hl).
  rewrite (list_get_nat D n r Hr). cbn [rbind fst snd]. rewrite (IH (S n)); [reflexivity|].
  change (S n) with (1 + n)%nat. rewrite <- skipn_skipn, Hl. reflexivity.
Qed.

Lemma fold_qd_set : forall {V} (l acc : list (Q * V)), NoDupA Qeq (map fst (acc ++ l)) ->
  fold_left (fun acc kr => qd_set acc (fst kr) (snd kr)) l acc = acc ++ l.
Proof.
  intros V. induction l as [|x l IH]; intros acc H; simpl; [rewrite app_nil_r; reflexivity|].
  assert (Hx : existsb (fun p => Qeq_bool (fst p) (fst x)) acc = false).
  { apply not_true_iff_false. intros He. apply existsb_exists in He as [y [Hy Hq]].
    apply Qeq_bool_iff in Hq. rewrite map_app in H. simpl in H.
    apply (NoDupA_swap (eqA := Qeq)) in H; [|exact Q_Setoid]. inversion H as [|? ? Hn]; subst.
    apply Hn. apply InA_alt. exists (fst y). split; [symmetry; exact Hq|].
    apply in_or_app. left. apply in_map. exact Hy. }
  unfold qd_set at 2. rewrite Hx. destruct x as [k v]. rewrite IH.
  - rewrite <- app_assoc. reflexivity.
  - rewrite <- app_assoc. exact H.
Qed.

(** X13: [keys] returns the keys in strictly ascending order, and
    [items] the pairs (key, element) in the same order. *)
Theorem keys_items_ascending : forall s, sd_inv s -> keys_distinct (sd_data s) ->
  keys s = (validated s, Ok (map key (sd_data (validated s)))) /\
  Sorted Qlt (map key (sd_data (validated s))) /\
  items s = (validated s, Ok (map (fun r => (key r, r)) (sd_data (validated s)))).
Proof.
  intros s Hi Hd. destruct (validated_spec s Hi Hd) as [Hm [_ [Hs [Hd' Hk]]]].
  split; [|split].
  - unfold keys, sbind. rewrite Hm. cbv beta iota. rewrite Hk, map_fst_idx_from. reflexivity.
  - exact (sorted_strict _ Hs Hd').
  - unfold items, sbind. rewrite Hm. cbv beta iota. rewrite Hk.
    rewrite (mapM_items (sd_data (validated s)) (sd_data (validated s)) 0 eq_refl). cbn [rbind].
    rewrite (fold_qd_set _ []); [reflexivity|]. simpl. rewrite map_map. simpl. exact Hd'.
Qed.


Lemma resolve_cons : forall n sh i ix sels x c, resolve (n :: sh) (i :: ix) = Ok sels ->
  sel_locate sels (x :: c) <> None ->
  selected n i x /\ exists sels', resolve sh ix = Ok sels' /\ sel_locate sels' c <> None.
Proof.
  intros n sh i ix sels x c Hr Hl. destruct i as [i|a b st]; simpl in Hr.
  - destruct (py_index n i) as [p|e] eqn:Ep; [|discriminate]. cbn [rbind] in Hr.
    destruct (resolve sh ix) as [r|e] eqn:Er; [|discriminate]. cbn [rbind] in Hr. inversion Hr; subst.
    simpl in Hl. destruct (Nat.eqb_spec x p); [subst|exfalso; apply Hl; reflexivity].
    split; [exact Ep|]. exists r. split; [reflexivity | exact Hl].
  - destruct (slice_indices n a b st) as [l|e] eqn:Es; [|discriminate]. cbn [rbind] in Hr.
    destruct (resolve sh ix) as [r|e] eqn:Er; [|discriminate]. cbn [rbind] in Hr. inversion Hr; subst.
    simpl in Hl. destruct (pos_in x l) as [p|] eqn:Ep; [|exfalso; apply Hl; reflexivity].
    split; [exists l; split; [exact Es | exact (pos_in_In _ _ _ Ep)]|].
    exists r. split; [reflexivity|]. destruct (sel_locate r c); [discriminate | exfalso; apply Hl; reflexivity].
Qed.

Lemma resolve_nil_shape : forall i ix, resolve [] (i :: ix) = Exc IndexError.
Proof. intros [i|a b st] ix; reflexivity. Qed.

Lemma sel_locate_nil : forall sels, sel_locate sels [] <> None -> sels = [].
Proof. intros [|s sels] H; [reflexivity|]. destruct s; exfalso; apply H; reflexivity. Qed.

Lemma resolve_sels_nonnil : forall sh i ix sels, resolve sh (i :: ix) = Ok sels -> sels <> [].
Proof.
  intros [|n sh] i ix sels H; [rewrite resolve_nil_shape in H; discriminate|].
  destruct i as [i|a b st]; simpl in H;
    [destruct (py_index n i) | destruct (slice_indices n a b st)]; try discriminate; cbn [rbind] in H;
    destruct (resolve sh ix); try discriminate; cbn [rbind] in H; inversion H; discriminate.
Qed.

Lemma guard_target : forall g sh i0 i1 i2 i3 sels c,
  resolve sh [i0; i1; i2; i3] = Ok sels -> sel_locate sels c <> None ->
  (forall n1 n2 n3 x1 x2 x3, selected n1 i1 x1 -> selected n2 i2 x2 -> selected n3 i3 x3 ->
     ~ (interior_axis g n1 x1 /\ interior_axis g n2 x2 /\ interior_axis g n3 x3)) ->
  ~ interior_cell g sh c.
Proof.
  intros g sh i0 i1 i2 i3 sels c Hr Hl H.
  destruct sh as [|n0 sh]; [rewrite resolve_nil_shape in Hr; discriminate|].
  destruct c as [|x0 c]; [apply sel_locate_nil in Hl; exfalso; exact (resolve_sels_nonnil _ _ _ _ Hr Hl)|].
  destruct (resolve_cons _ _ _ _ _ _ _ Hr Hl) as [_ [s1 [Hr1 Hl1]]].
  destruct sh as [|n1 sh]; [rewrite resolve_nil_shape in Hr1; discriminate|].
  destruct c as [|x1 c]; [apply sel_locate_nil in Hl1; exfalso; exact (resolve_sels_nonnil _ _ _ _ Hr1 Hl1)|].
  destruct (resolve_cons _ _ _ _ _ _ _ Hr1 Hl1) as [S1 [s2 [Hr2 Hl2]]].
  destruct sh as [|n2 sh]; [rewrite resolve_nil_shape in Hr2; discriminate|].
  destruct c as [|x2 c]; [apply sel_locate_nil in Hl2; exfalso; exact (resolve_sels_nonnil _ _ _ _ Hr2 Hl2)|].
  destruct (resolve_cons _ _ _ _ _ _ _ Hr2 Hl2) as [S2 [s3 [Hr3 Hl3]]].
  destruct sh as [|n3 sh]; [rewrite resolve_nil_shape in Hr3; discriminate|].
  destruct c as [|x3 c]; [apply sel_locate_nil in Hl3; exfalso; exact (resolve_sels_nonnil _ _ _ _ Hr3 Hl3)|].
  destruct (resolve_cons _ _ _ _ _ _ _ Hr3 Hl3) as [S3 _].
  exact (H n1 n2 n3 x1 x2 x3 S1 S2 S3).
Qed.

Lemma sel_mid_fact : forall g n x, selected n (s_mid g) x ->
  (g < 0 \/ (0 < g /\ g <= Z.of_nat x /\ Z.of_nat x + g < Z.of_nat n))%Z.
Proof.
  intros g n x [l [Hs Hx]]. destruct (Z.ltb_spec g 0); [left; assumption|right].
  exact (mid_bounds n g l x H Hs Hx).
Qed.

Lemma sel_hi_fact : forall g n x, selected n (s_hi g) x -> (g <= 0 \/ Z.of_nat n <= Z.of_nat x + g)%Z.
Proof.
  intros g n x [l [Hs Hx]]. destruct (Z.leb_spec g 0); [left; assumption|right].
  exact (hi_bounds n g l x H Hs Hx).
Qed.

Lemma sel_upto_fact : forall k n x, selected n (ISl None (Some k) None) x -> (k < 0 \/ Z.of_nat x < k)%Z.
Proof.
  intros k n x [l [Hs Hx]]. destruct (Z.ltb_spec k 0); [left; assumption|right].
  rewrite slice_indices_step1 in Hs. inversion Hs; subst l. apply in_seq in Hx.
  cbn [slice_adjust] in Hx. destruct (Z.ltb_spec k 0); [lia|].
  destruct (Z.leb_spec (Z.of_nat n) k); lia.
Qed.

Lemma sel_int_fact : forall i n x, selected n (IInt i) x ->
  (i < 0 /\ Z.of_nat x = i + Z.of_nat n \/ 0 <= i /\ Z.of_nat x = i)%Z.
Proof.
  intros i n x H. simpl in H. unfold py_index in H.
  destruct (Z.ltb_spec i 0).
  - destruct (Z.ltb_spec (i + Z.of_nat n) 0); inversion H; subst. left. lia.
  - destruct (Z.leb_spec (Z.of_nat n) i); inversion H; subst. right. lia.
Qed.

Lemma in_range : forall g i, In i (range g) -> (0 <= i < g)%Z.
Proof.
  intros g i H. unfold range in H. apply in_map_iff in H as [k [<- Hk]]. apply in_seq in Hk. lia.
Qed.

Ltac interior_axes :=
  let n1 := fresh "n" in let n2 := fresh "n" in let n3 := fresh "n" in
  let x1 := fresh "x" in let x2 := fresh "x" in let x3 := fresh "x" in
  let S1 := fresh "S" in let S2 := fresh "S" in let S3 := fresh "S" in
  intros n1 n2 n3 x1 x2 x3 S1 S2 S3; unfold interior_axis;
  repeat match goal with
  | H : selected _ (s_mid _) _ |- _ => apply sel_mid_fact in H
  | H : selected _ (s_hi _) _ |- _ => apply sel_hi_fact in H
  | H : selected _ (s_lo _) _ |- _ => apply sel_upto_fact in H
  | H : selected _ (ISl None (Some _) None) _ |- _ => apply sel_upto_fact in H
  | H : selected _ (IInt _) _ |- _ => apply sel_int_fact in H
  | H : selected _ s_all _ |- _ => clear H
  end; lia.

Ltac fill_frames :=
  repeat (frames_step || (apply frames_swhen; intros ?) || unfold velc_face || unfold copy
          || (apply frames_sfor; let i := fresh "i" in let Hi := fresh "Hi" in
              intros i Hi; try apply in_range in Hi));
  let sels := fresh "sels" in let c := fresh "c" in let Hres := fresh "Hres" in let Hloc := fresh "Hloc" in
  intros sels c Hres Hloc; apply (guard_target _ _ _ _ _ _ _ _ Hres Hloc); interior_axes.

Lemma bound_interior_frames : forall geom field sh, (0 <= guards geom)%Z ->
  frames (fun c => ~ interior_cell (guards geom) sh c) sh (bound_cells_from_data geom field).
Proof.
  intros geom field sh Hg. unfold bound_cells_from_data.
  destruct (in_set field velc_fields); [|destruct (String.eqb field "temp"%string);
    [|destruct (in_set field grid_fields); [|destruct (in_set field metric_fields); [|apply frames_ret]]]].
  - unfold bound_cells_from_data_velc. cbv zeta. fill_frames.
  - unfold bound_cells_from_data_temp. cbv zeta. fill_frames.
  - unfold bound_cells_from_data_grid. cbv zeta. fill_frames.
  - unfold bound_cells_from_data_metric. cbv zeta. fill_frames.
Qed.

Lemma guard_interior_frames : forall geom sh, (0 < guards geom)%Z ->
  frames (fun c => ~ interior_cell (guards geom) sh c) sh (guard_cells_from_data geom).
Proof.
  intros geom sh Hg. unfold guard_cells_from_data. apply frames_sfor. intros [b faces] Hin.
  unfold guard_cells_block, diag, lkey. cbv zeta. fill_frames.
Qed.


Lemma fill_guard_frames : forall geom field sh, (0 < guards geom)%Z ->
  frames (fun c => ~ interior_cell (guards geom) sh c) sh (fill_guard geom field).
Proof.
  intros geom field sh Hg. unfold fill_guard. apply frames_bind;
    [apply guard_interior_frames; exact Hg | intros _; apply bound_interior_frames; lia].
Qed.


Lemma pos_in_nth_nodup : forall l j, NoDup l -> (j < length l)%nat -> pos_in (nth j l 0%nat) l = Some j.
Proof.
  induction l as [|y ys IH]; intros j Hnd Hj; simpl in Hj; [lia|].
  inversion Hnd as [|? ? Hy Hys]; subst.
  destruct j as [|j]; simpl; [rewrite Nat.eqb_refl; reflexivity|].
  destruct (Nat.eqb_spec (nth j ys 0%nat) y) as [E|E].
  - exfalso. apply Hy. rewrite <- E. apply nth_In. lia.
  - rewrite IH by (assumption || lia). reflexivity.
Qed.

Lemma sel_locate_cell : forall sels i, Forall sel_nodup sels -> Forall2 lt i (sel_shape sels) ->
  sel_locate sels (sel_cell sels i) = Some i.
Proof.
  induction sels as [|s sels IH]; intros i Hnd Hi; simpl in Hi.
  - inversion Hi; reflexivity.
  - inversion Hnd as [|? ? Hs Hr]; subst. destruct s as [n|l]; simpl.
    + rewrite Nat.eqb_refl. apply IH; assumption.
    + inversion Hi as [|j ? i' ? Hj Hi']; subst. simpl in Hs.
      rewrite pos_in_nth_nodup by assumption. rewrite IH by assumption. reflexivity.
Qed.

Lemma slice_step1_nodup : forall n a b l, slice_indices n a b None = Ok l -> NoDup l.
Proof. intros n a b l H. rewrite slice_indices_step1 in H. inversion H. apply seq_NoDup. Qed.

Lemma resolve_nodup : forall sh ix sels, ix_step1 ix -> resolve sh ix = Ok sels -> Forall sel_nodup sels.
Proof.
  induction sh as [|n sh IH]; intros ix sels Hix H; destruct ix as [|x ix]; simpl in H.
  - inversion H; constructor.
  - discriminate.
  - inversion H; subst. constructor; [apply seq_NoDup|].
    apply Forall_map. apply Forall_forall. intros m _. apply seq_NoDup.
  - inversion Hix as [|? ? Hx Hix']; subst. destruct x as [i|a b st].
    + destruct (py_index n i); simpl in H; [|discriminate].
      destruct (resolve sh ix) eqn:E; simpl in H; [|discriminate].
      inversion H; subst. constructor; [exact I | exact (IH _ _ Hix' E)].
    + simpl in Hx. subst st. destruct (slice_indices n a b None) eqn:Es; simpl in H; [|discriminate].
      destruct (resolve sh ix) eqn:E; simpl in H; [|discriminate].
      inversion H; subst. constructor; [exact (slice_step1_nodup _ _ _ _ Es) | exact (IH _ _ Hix' E)].
Qed.

Lemma interior_ix_step1 : forall g, ix_step1 (interior_ix g).
Proof. intros g. repeat constructor. Qed.

Lemma interior_of_locate : forall g sh sels c, (0 <= g)%Z ->
  resolve sh (interior_ix g) = Ok sels -> sel_locate sels c <> None -> interior_cell g sh c.
Proof.
  intros g sh sels c Hg Hr Hl. unfold interior_ix in Hr.
  destruct sh as [|n0 sh]; [rewrite resolve_nil_shape in Hr; discriminate|].
  destruct c as [|x0 c]; [apply sel_locate_nil in Hl; exfalso; exact (resolve_sels_nonnil _ _ _ _ Hr Hl)|].
  destruct (resolve_cons _ _ _ _ _ _ _ Hr Hl) as [_ [s1 [Hr1 Hl1]]].
  destruct sh as [|n1 sh]; [rewrite resolve_nil_shape in Hr1; discriminate|].
  destruct c as [|x1 c]; [apply sel_locate_nil in Hl1; exfalso; exact (resolve_sels_nonnil _ _ _ _ Hr1 Hl1)|].
  destruct (resolve_cons _ _ _ _ _ _ _ Hr1 Hl1) as [S1 [s2 [Hr2 Hl2]]].
  destruct sh as [|n2 sh]; [rewrite resolve_nil_shape in Hr2; discriminate|].
  destruct c as [|x2 c]; [apply sel_locate_nil in Hl2; exfalso; exact (resolve_sels_nonnil _ _ _ _ Hr2 Hl2)|].
  destruct (resolve_cons _ _ _ _ _ _ _ Hr2 Hl2) as [S2 [s3 [Hr3 Hl3]]].
  destruct sh as [|n3 sh]; [rewrite resolve_nil_shape in Hr3; discriminate|].
  destruct c as [|x3 c]; [apply sel_locate_nil in Hl3; exfalso; exact (resolve_sels_nonnil _ _ _ _ Hr3 Hl3)|].
  destruct (resolve_cons _ _ _ _ _ _ _ Hr3 Hl3) as [S3 _].
  apply sel_mid_fact in S1, S2, S3. cbn [interior_cell]. unfold interior_axis. lia.
Qed.




Lemma wr_ok : forall ix v d d', wr ix v d = (d', Ok tt) ->
  exists sels, resolve (shape d) ix = Ok sels /\ setv d sels v = Ok d'.
Proof.
  intros ix v d d' H. unfold wr in H.
  destruct (resolve (shape d) ix) as [sels|e]; cbn [rbind] in H; [|discriminate].
  destruct (setv d sels v) as [d1|e] eqn:E; inversion H; subst. exists sels. split; [reflexivity | exact E].
Qed.

Lemma setv_ok : forall d sels v d', setv d sels v = Ok d' ->
  shape d' = shape d /\
  forall c, cell d' c = match sel_locate sels c with
                        | Some p => cell v (bidx (shape v) (sel_shape sels) p)
                        | None => cell d c
                        end.
Proof.
  intros d sels v d' H. unfold setv in H.
  destruct (bcast_to_rev (rev (shape v)) (rev (sel_shape sels))); inversion H; subst.
  split; [reflexivity | intros c; reflexivity].
Qed.

(** X16: Setting a field through its property writes the value
    (broadcast) into the interior and changes no other cell; reading the
    property afterwards returns the written value, with the interior's
    shape. *)
Theorem set_get_attr : forall self_guards d value d', (0 <= self_guards)%Z ->
  set_attr self_guards value d = (d', Ok tt) ->
  shape d' = shape d /\
  (forall c, ~ interior_cell (Z.quot self_guards 2) (shape d) c -> cell d' c = cell d c) /\
  exists w0 w, get_attr self_guards d = Ok w0 /\ get_attr self_guards d' = Ok w /\
    shape w = shape w0 /\
    forall i, Forall2 lt i (shape w) -> cell w i = cell value (bidx (shape value) (shape w) i).
Proof.
  intros gs d v d' Hg H. unfold set_attr in H.
  destruct (wr_ok _ _ _ _ H) as [sels [Hr Hs]]. destruct (setv_ok _ _ _ _ Hs) as [Hsh Hc].
  assert (Hg2 : (0 <= Z.quot gs 2)%Z) by (apply Z.quot_pos; lia).
  split; [exact Hsh|]. split.
  - intros c Hn. rewrite Hc. destruct (sel_locate sels c) eqn:E; [|reflexivity].
    exfalso. apply Hn. apply (interior_of_locate _ _ sels c Hg2 Hr). rewrite E. discriminate.
  - exists (view d sels), (view d' sels). unfold get_attr, getv. rewrite Hsh, Hr.
    split; [reflexivity|]. split; [reflexivity|]. split; [reflexivity|].
    intros i Hi. cbn [view shape cell] in *. rewrite Hc.
    rewrite sel_locate_cell; [reflexivity | exact (resolve_nodup _ _ _ (interior_ix_step1 _) Hr) | exact Hi].
Qed.


Lemma load_group_ok : forall geom group file data, load_group geom group file = Ok data ->
  exists sh tgt, pad_shape group (guards geom) (shape file) = Ok sh /\
    load_target (guards geom) group = Some tgt /\
    exists r, (wr tgt file ;;; fill_guard geom group) (zeros sh) = (data, Ok r).
Proof.
  intros geom group file data H. unfold load_group in H.
  destruct (pad_shape group (guards geom) (shape file)) as [sh|e]; cbn [rbind] in H; [|discriminate].
  destruct (load_target (guards geom) group) as [tgt|]; [|discriminate].
  destruct ((wr tgt file ;;; fill_guard geom group) (zeros sh)) as [d [r|e]] eqn:E; [|discriminate].
  destruct (check_nonempty d); cbn [rbind] in H; [|discriminate].
  destruct (getv d (interior_ix (guards geom))); cbn [rbind] in H; [|discriminate].
  destruct (check_nonempty a0); cbn [rbind] in H; [|discriminate].
  inversion H; subst. exists sh, tgt. split; [reflexivity|]. split; [reflexivity|]. exists r. exact E.
Qed.

Lemma load_interior : forall geom group file data, (0 < guards geom)%Z ->
  load_group geom group file = Ok data ->
  exists sh tgt tsels, pad_shape group (guards geom) (shape file) = Ok sh /\
    load_target (guards geom) group = Some tgt /\ resolve sh tgt = Ok tsels /\ shape data = sh /\
    forall c, interior_cell (guards geom) sh c ->
      cell data c = match sel_locate tsels c with
                    | Some p => cell file (bidx (shape file) (sel_shape tsels) p)
                    | None => 0%Q
                    end.
Proof.
  intros geom group file data Hg H.
  destruct (load_group_ok _ _ _ _ H) as [sh [tgt [Hp [Ht [r Hrun]]]]].
  unfold sbind in Hrun. destruct (wr tgt file (zeros sh)) as [d1 [u|e]] eqn:Ew; [|discriminate].
  destruct u. destruct (wr_ok _ _ _ _ Ew) as [tsels [Hr Hs]]. destruct (setv_ok _ _ _ _ Hs) as [Hsh Hc].
  cbn [zeros shape] in Hr, Hsh.
  destruct (fill_guard_frames geom group sh Hg d1 Hsh) as [Fs Fc].
  rewrite Hrun in Fs, Fc. cbn [fst] in Fs, Fc.
  exists sh, tgt, tsels. split; [exact Hp|]. split; [exact Ht|]. split; [exact Hr|]. split; [exact Fs|].
  intros c Hin. rewrite Fc by (intros Hn; exact (Hn Hin)). rewrite Hc. reflexivity.
Qed.

Lemma slice_all_seq : forall n, slice_indices n None None None = Ok (seq 0 n).
Proof. intros n. rewrite slice_indices_step1. cbn [slice_adjust]. rewrite Z.sub_0_r, Nat2Z.id. reflexivity. Qed.

Lemma slice_mid_pad : forall g n, g = 1%Z -> slice_indices (n + 2) (Some g) (Some (- g)%Z) None = Ok (seq 1 n).
Proof.
  intros g n ->. rewrite slice_indices_step1. unfold slice_adjust. zcase; try lia.
  f_equal. f_equal; lia.
Qed.

Lemma slice_mid_face : forall g n, g = 1%Z -> slice_indices (n + 1) (Some g) (Some (- g)%Z) None = Ok (seq 1 (n - 1)).
Proof.
  intros g n ->. rewrite slice_indices_step1. unfold slice_adjust. zcase; try lia;
  f_equal; f_equal; lia.
Qed.

Lemma slice_face_pad : forall g n, g = 1%Z -> slice_indices (n + 1) (Some (g - 1)%Z) (Some (- g)%Z) None = Ok (seq 0 n).
Proof.
  intros g n ->. rewrite slice_indices_step1. unfold slice_adjust. zcase; try lia.
  f_equal. f_equal; lia.
Qed.

Lemma sel_cell_seq4 : forall a0 l0 a1 l1 a2 l2 a3 l3 b z y x,
  (b < l0 -> z < l1 -> y < l2 -> x < l3 ->
  sel_cell [SSl (seq a0 l0); SSl (seq a1 l1); SSl (seq a2 l2); SSl (seq a3 l3)] [b; z; y; x] =
  [a0 + b; a1 + z; a2 + y; a3 + x])%nat.
Proof. intros. cbn [sel_cell]. rewrite !seq_nth by assumption. reflexivity. Qed.

Lemma sel_locate_seq4 : forall a0 l0 a1 l1 a2 l2 a3 l3 c0 c1 c2 c3,
  (a0 <= c0 < a0 + l0 -> a1 <= c1 < a1 + l1 -> a2 <= c2 < a2 + l2 -> a3 <= c3 < a3 + l3 ->
  sel_locate [SSl (seq a0 l0); SSl (seq a1 l1); SSl (seq a2 l2); SSl (seq a3 l3)] [c0; c1; c2; c3] =
  Some [c0 - a0; c1 - a1; c2 - a2; c3 - a3])%nat.
Proof. intros. cbn [sel_locate]. rewrite !pos_in_seq by assumption. reflexivity. Qed.


Lemma resolve_interior1 : forall g nb n1 n2 n3, g = 1%Z ->
  resolve [nb; n1 + 2; n2 + 2; n3 + 2]%nat (interior_ix g) =
  Ok [SSl (seq 0 nb); SSl (seq 1 n1); SSl (seq 1 n2); SSl (seq 1 n3)].
Proof.
  intros g nb n1 n2 n3 Hg. unfold interior_ix, s_all, s_mid. cbn [resolve].
  rewrite slice_all_seq, !(slice_mid_pad _ _ Hg). reflexivity.
Qed.

(** X17: Loading a cell-centred field with one guard layer pads
    each spatial axis by two cells, and reading the field back returns
    exactly the data of the file. *)
Theorem load_get_cell_centred : forall geom group file data nb n1 n2 n3,
  guards geom = 1%Z -> in_set group velc_fields = false ->
  shape file = [nb; n1; n2; n3] -> load_group geom group file = Ok data ->
  shape data = [nb; n1 + 2; n2 + 2; n3 + 2]%nat /\
  exists w, get_attr (blk_guards geom) data = Ok w /\ shape w = shape file /\
    forall b z y x, (b < nb)%nat -> (z < n1)%nat -> (y < n2)%nat -> (x < n3)%nat ->
      cell w [b; z; y; x] = cell file [b; z; y; x].
Proof.
  intros geom group file data nb n1 n2 n3 Hg Hv Hf H.
  destruct (load_interior geom group file data ltac:(lia) H) as [sh [tgt [tsels [Hp [Ht [Hr [Hsh Hc]]]]]]].
  rewrite Hf in Hp. unfold pad_shape in Hp. rewrite Hv in Hp. cbn [negb map] in Hp.
  injection Hp as Hp. rewrite <- Hp in Hr, Hsh, Hc. clear Hp.
  unfold load_target in Ht. rewrite Hv in Ht. cbn [negb] in Ht. inversion Ht; subst tgt. clear Ht.
  rewrite (resolve_interior1 _ _ _ _ _ Hg) in Hr. inversion Hr; subst tsels. clear Hr.
  split; [exact Hsh|].
  exists (view data [SSl (seq 0 nb); SSl (seq 1 n1); SSl (seq 1 n2); SSl (seq 1 n3)]).
  unfold get_attr, getv. change (Z.quot (blk_guards geom) 2) with (guards geom).
  rewrite Hsh, (resolve_interior1 _ _ _ _ _ Hg). cbn [rbind].
  split; [reflexivity|]. split; [cbn [view shape sel_shape]; rewrite !length_seq, Hf; reflexivity|].
  intros b z y x Hb Hz Hy Hx. cbn [view cell]. rewrite sel_cell_seq4 by assumption.
  rewrite Hc.
  2:{ cbn [interior_cell]. unfold interior_axis. rewrite Hg. lia. }
  rewrite sel_locate_seq4 by lia. cbn [sel_shape]. rewrite !length_seq, <- Hf.
  replace (0 + b - 0)%nat with b by lia. replace (1 + z - 1)%nat with z by lia.
  replace (1 + y - 1)%nat with y by lia. replace (1 + x - 1)%nat with x by lia.
  rewrite bidx_id; [reflexivity|]. rewrite Hf. repeat constructor; assumption.
Qed.

Lemma pad_fcx2 : forall g nb n1 n2 n3, g = 1%Z ->
  pad_shape "fcx2" g [nb; n1; n2; n3] = Ok [nb; n1 + 2; n2 + 2; n3 + 1]%nat.
Proof.
  intros g nb n1 n2 n3 ->. simpl.
  rewrite (proj2 (Z.leb_le 0 (Z.of_nat n1 + 2)) ltac:(lia)), (proj2 (Z.leb_le 0 (Z.of_nat n2 + 2)) ltac:(lia)),
    (proj2 (Z.leb_le 0 (Z.of_nat n3 + 1)) ltac:(lia)). simpl.
  repeat f_equal; lia.
Qed.

Lemma resolve_fcx2_target : forall g nb n1 n2 n3, g = 1%Z ->
  resolve [nb; n1 + 2; n2 + 2; n3 + 1]%nat [s_all; s_mid g; s_mid g; s_face g] =
  Ok [SSl (seq 0 nb); SSl (seq 1 n1); SSl (seq 1 n2); SSl (seq 0 n3)].
Proof.
  intros g nb n1 n2 n3 Hg. unfold s_all, s_mid, s_face. cbn [resolve].
  rewrite slice_all_seq, !(slice_mid_pad _ _ Hg), (slice_face_pad _ _ Hg). reflexivity.
Qed.

Lemma resolve_fcx2_interior : forall g nb n1 n2 n3, g = 1%Z ->
  resolve [nb; n1 + 2; n2 + 2; n3 + 1]%nat (interior_ix g) =
  Ok [SSl (seq 0 nb); SSl (seq 1 n1); SSl (seq 1 n2); SSl (seq 1 (n3 - 1))].
Proof.
  intros g nb n1 n2 n3 Hg. unfold interior_ix, s_all, s_mid. cbn [resolve].
  rewrite slice_all_seq, !(slice_mid_pad _ _ Hg), (slice_mid_face _ _ Hg). reflexivity.
Qed.

(** X18: Loading the x-face velocity [fcx2] with one guard layer pads
    the x axis by one cell; reading it back returns the file's faces
    1 to n-1 on that axis, dropping face 0. *)
Theorem load_get_fcx2 : forall geom file data nb n1 n2 n3,
  guards geom = 1%Z -> shape file = [nb; n1; n2; n3] -> load_group geom "fcx2" file = Ok data ->
  shape data = [nb; n1 + 2; n2 + 2; n3 + 1]%nat /\
  exists w, get_attr (blk_guards geom) data = Ok w /\ shape w = [nb; n1; n2; n3 - 1]%nat /\
    forall b z y x, (b < nb)%nat -> (z < n1)%nat -> (y < n2)%nat -> (S x < n3)%nat ->
      cell w [b; z; y; x] = cell file [b; z; y; S x].
Proof.
  intros geom file data nb n1 n2 n3 Hg Hf H.
  destruct (load_interior geom "fcx2" file data ltac:(lia) H) as [sh [tgt [tsels [Hp [Ht [Hr [Hsh Hc]]]]]]].
  rewrite Hf, (pad_fcx2 _ _ _ _ _ Hg) in Hp.
  injection Hp as Hp. rewrite <- Hp in Hr, Hsh, Hc. clear Hp.
  unfold load_target in Ht. cbv [negb in_set velc_fields existsb String.eqb] in Ht. inversion Ht; subst tgt. clear Ht.
  rewrite (resolve_fcx2_target _ _ _ _ _ Hg) in Hr. inversion Hr; subst tsels. clear Hr.
  split; [exact Hsh|].
  exists (view data [SSl (seq 0 nb); SSl (seq 1 n1); SSl (seq 1 n2); SSl (seq 1 (n3 - 1))]).
  unfold get_attr, getv. change (Z.quot (blk_guards geom) 2) with (guards geom).
  rewrite Hsh, (resolve_fcx2_interior _ _ _ _ _ Hg). cbn [rbind].
  split; [reflexivity|]. split; [cbn [view shape sel_shape]; rewrite !length_seq; reflexivity|].
  intros b z y x Hb Hz Hy Hx. cbn [view cell]. rewrite sel_cell_seq4 by lia.
  rewrite Hc.
  2:{ cbn [interior_cell]. unfold interior_axis. rewrite Hg. lia. }
  rewrite sel_locate_seq4 by lia. cbn [sel_shape]. rewrite !length_seq, <- Hf.
  replace (0 + b - 0)%nat with b by lia. replace (1 + z - 1)%nat with z by lia.
  replace (1 + y - 1)%nat with y by lia. replace (1 + x - 0)%nat with (S x) by lia.
  rewrite bidx_id; [reflexivity|]. rewrite Hf. repeat constructor; lia.
Qed.

Lemma slice_ok_step1 : forall n a b, exists l, slice_indices n a b None = Ok l.
Proof. intros n a b. rewrite slice_indices_step1. eexists. reflexivity. Qed.

Lemma mid_len_pad : forall g n, (0 <= g)%Z -> g <> 1%Z -> (2 <= n)%nat ->
  exists l, slice_indices (n + 2) (Some g) (Some (- g)%Z) None = Ok l /\ length l <> n.
Proof.
  intros g n Hg H1 Hn. rewrite slice_indices_step1. eexists. split; [reflexivity|].
  rewrite length_seq. unfold slice_adjust. zcase; lia.
Qed.

(** X19: Loading a cell-centred field fails with a broadcast
    ValueError when the guard count is not one layer per side and the x
    axis has at least two cells. *)
Theorem load_cell_centred_guard_mismatch : forall geom group file nb n1 n2 n3,
  (0 <= guards geom)%Z -> guards geom <> 1%Z -> in_set group velc_fields = false ->
  shape file = [nb; n1; n2; n3] -> (2 <= n3)%nat ->
  load_group geom group file = Exc ValueError_broadcast.
Proof.
  intros geom group file nb n1 n2 n3 Hg H1 Hv Hf Hn.
  unfold load_group. rewrite Hf. unfold pad_shape. rewrite Hv. cbn [negb map rbind].
  unfold load_target. rewrite Hv. cbn [negb].
  unfold sbind, wr. cbn [zeros shape]. unfold interior_ix, s_all, s_mid. cbn [resolve].
  destruct (slice_ok_step1 nb None None) as [l0 E0].
  destruct (slice_ok_step1 (n1 + 2) (Some (guards geom)) (Some (- guards geom)%Z)) as [l1 E1].
  destruct (slice_ok_step1 (n2 + 2) (Some (guards geom)) (Some (- guards geom)%Z)) as [l2 E2].
  destruct (mid_len_pad (guards geom) n3 Hg H1 Hn) as [l3 [E3 L3]].
  rewrite E0, E1, E2, E3. cbn [rbind resolve map]. unfold setv. cbn [sel_shape]. rewrite Hf.
  cbn [rev app bcast_to_rev]. rewrite (proj2 (Nat.eqb_neq n3 (length l3)) (not_eq_sym L3)).
  replace (Nat.eqb n3 1) with false by (symmetry; apply Nat.eqb_neq; lia). reflexivity.
Qed.

Lemma strict_sorted_facts : forall l, Sorted Qlt (map key l) -> Sorted key_le l /\ keys_distinct l.
Proof.
  intros l H. apply Sorted_StronglySorted in H; [|intros a b c; apply Qlt_trans].
  split.
  - induction l as [|a l IH]; [constructor|]. simpl in H. inversion H as [|? ? Hs Hf]; subst.
    constructor; [exact (IH Hs)|]. destruct l as [|b l]; constructor.
    simpl in Hf. inversion Hf; subst. unfold key_le. apply Qlt_le_weak. assumption.
  - unfold keys_distinct. induction (map key l) as [|a m IH]; [constructor|].
    inversion H as [|? ? Hs Hf]; subst. constructor; [|exact (IH Hs)].
    intros Hin. apply InA_alt in Hin as [b [Hab Hb]].
    rewrite Forall_forall in Hf. specialize (Hf b Hb). rewrite Hab in Hf. exact (Qlt_irrefl _ Hf).
Qed.

Lemma strict_before : forall acc v vs r, Sorted Qlt (map key (acc ++ v :: vs)) -> In r acc -> (key r < key v)%Q.
Proof.
  intros acc v vs r H Hr. apply Sorted_StronglySorted in H; [|intros a b c; apply Qlt_trans].
  rewrite map_app in H. cbn [map] in H.
  induction acc as [|a acc IH]; [contradiction|]. simpl in H. inversion H as [|? ? Hs Hf]; subst.
  destruct Hr as [<-|Hr]; [|exact (IH Hs Hr)].
  rewrite Forall_forall in Hf. apply Hf. apply in_or_app. right. left. reflexivity.
Qed.

Lemma append_ascending : forall vs acc, Sorted Qlt (map key (acc ++ vs)) ->
  sfor vs append (mkSD acc (idx_from 0 acc) true true) = (mkSD (acc ++ vs) (idx_from 0 (acc ++ vs)) true true, Ok tt).
Proof.
  induction vs as [|v vs IH]; intros acc H; simpl.
  - rewrite app_nil_r. reflexivity.
  - assert (Hacc : Sorted Qlt (map key acc)).
    { rewrite map_app in H. clear -H. induction (map key acc) as [|a m IHm]; [constructor|].
      simpl in H. apply Sorted_inv in H as [H1 H2]. constructor; [exact (IHm H1)|].
      destruct m; constructor. inversion H2; assumption. }
    destruct (strict_sorted_facts acc Hacc) as [Hs Hd].
    assert (Hinv : sd_inv (mkSD acc (idx_from 0 acc) true true)).
    { intros _. split; [exact Hs|]. symmetry. apply make_keys_distinct. exact Hd. }
    unfold sbind. rewrite (append_new _ v Hinv Hd).
    2:{ intros r Hr Heq. pose proof (strict_before acc v vs r H Hr) as Hlt. cbn [sd_data] in Hr.
        rewrite Heq in Hlt. exact (Qlt_irrefl _ Hlt). }
    assert (Hval : validated (mkSD acc (idx_from 0 acc) true true) = mkSD acc (idx_from 0 acc) true true) by reflexivity.
    rewrite Hval. cbn [sd_data].
    replace (forallb (fun r => Qle_bool (key r) (key v)) acc) with true.
    2:{ symmetry. apply forallb_forall. intros r Hr. apply Qle_bool_iff. apply Qlt_le_weak.
        exact (strict_before acc v vs r H Hr). }
    rewrite IH by (rewrite <- app_assoc; exact H). rewrite <- app_assoc. reflexivity.
Qed.

(** X14: After [clear], appending elements with strictly ascending
    keys one by one builds the same collection as [from_sorted] of those
    elements. *)
Theorem clear_append_ascending : forall s vs, Sorted Qlt (map key vs) ->
  (clear ;;; sfor vs append) s = (from_sorted vs, Ok tt).
Proof.
  intros s vs H. unfold sbind, clear. pose proof (append_ascending vs [] H) as E. cbn [app] in E.
  change (idx_from 0 []) with (@nil (Q * nat)) in E. rewrite E. unfold from_sorted.
  rewrite make_keys_distinct; [reflexivity|].
  apply (strict_sorted_facts vs). exact H.
Qed.

(** X15: Filling guard and boundary cells of a field keeps the
    array's shape and never changes an interior cell, when the geometry
    has at least one guard layer. *)
Theorem fill_guard_keeps_interior : forall geom field d, (0 < guards geom)%Z ->
  shape (fst (fill_guard geom field d)) = shape d /\
  forall c, interior_cell (guards geom) (shape d) c -> cell (fst (fill_guard geom field d)) c = cell d c.
Proof.
  intros geom field d Hg. destruct (fill_guard_frames geom field (shape d) Hg d eq_refl) as [Hs Hc].
  split; [exact Hs|]. intros c Hin. apply Hc. intros Hn. exact (Hn Hin).
Qed.

(** ** Instances *)

Ltac sd_hyps s :=
  assert (Hi : sd_inv s) by (intros Hv; discriminate Hv);
  assert (Hd : keys_distinct (sd_data s)) by (apply distinctb_keys_distinct; vm_compute; reflexivity).

Ltac qneq := intros Hqq; vm_compute in Hqq; discriminate Hqq.

(** X1: an instance of [get_by_key]. *)
Lemma get_by_key_witness :
  let s := sd_init [mkRec 3 []; mkRec 1 []; mkRec 2 []] in
  (sd_inv s /\ keys_distinct (sd_data s)) /\
  get 2 0%nat s = (validated s, Ok (inl (mkRec 2 []))) /\
  get 5 0%nat s = (validated s, Ok (inr 0%nat)).
Proof.
  intros s. sd_hyps s. split; [split; assumption|].
  rewrite !(get_by_key s _ 0%nat Hi Hd). split; reflexivity.
Defined.

(** X2: an instance of [append_fresh]. *)
Lemma append_fresh_witness :
  let s := sd_init [mkRec 3 []; mkRec 1 []; mkRec 2 []] in
  let v := mkRec 5 [] in
  (sd_inv s /\ keys_distinct (sd_data s) /\ forall r, In r (sd_data s) -> ~ (key r == key v)%Q) /\
  exists s1, append v s = (s1, Ok tt) /\ sd_valid s1 = true /\
    get (key v) 0%nat s1 = (validated s1, Ok (inl v)).
Proof.
  intros s v. sd_hyps s.
  assert (Hf : forall r, In r (sd_data s) -> ~ (key r == key v)%Q).
  { intros r Hr. simpl in Hr. destruct Hr as [<-|[<-|[<-|[]]]]; qneq. }
  split; [split; [exact Hi | split; assumption]|].
  destruct (append_fresh s v Hi Hd Hf) as [s1 [Ha [_ [_ [_ [Hv Hg]]]]]].
  exists s1. split; [exact Ha|]. split; [|apply Hg].
  apply Hv. intros r Hr. simpl in Hr. destruct Hr as [<-|[<-|[<-|[]]]]; vm_compute; discriminate.
Defined.

(** X3: an instance of [pop_by_key]. *)
Lemma pop_by_key_witness :
  let s := sd_init [mkRec 3 []; mkRec 1 []; mkRec 2 []] in
  (sd_inv s /\ keys_distinct (sd_data s)) /\
  (exists s1, pop (NFloat 2) (@None nat) s = (s1, Ok (PopKey 2)) /\
              snd (iter s1) = Ok [mkRec 1 []; mkRec 3 []]) /\
  pop (NFloat 5) (@None nat) s = (validated s, Exc KeyError).
Proof.
  intros s. sd_hyps s. split; [split; assumption|].
  destruct (pop_by_key s 2 (@None nat) Hi Hd) as [Hp _].
  destruct (pop_by_key s 5 (@None nat) Hi Hd) as [_ Hn].
  split.
  - apply (Hp [mkRec 1 []] (mkRec 2 []) [mkRec 3 []]); [vm_compute; reflexivity | reflexivity].
  - apply Hn. intros r Hr. simpl in Hr. destruct Hr as [<-|[<-|[<-|[]]]]; qneq.
Defined.

(** X4: an instance of [pop_by_index]. *)
Lemma pop_by_index_witness :
  let s := sd_init [mkRec 3 []; mkRec 1 []; mkRec 2 []] in
  sd_inv s /\
  (exists s1, pop (NInt (-1)) (@None nat) s = (s1, Ok (PopRec (mkRec 3 []))) /\
              snd (iter s1) = Ok [mkRec 1 []; mkRec 2 []]) /\
  (exists s1, pop (NInt 3) (@None nat) s = (s1, Exc IndexError)).
Proof.
  intros s. sd_hyps s. split; [exact Hi|].
  pose proof (pop_by_index s (-1) (@None nat) Hi) as H1.
  pose proof (pop_by_index s 3 (@None nat) Hi) as H2.
  assert (E1 : py_index (length (sd_data (validated s))) (-1) = Ok 2%nat) by (vm_compute; reflexivity).
  assert (E2 : py_index (length (sd_data (validated s))) 3 = Exc IndexError) by (vm_compute; reflexivity).
  rewrite E1 in H1. rewrite E2 in H2. split.
  - destruct H1 as [r [s1 [Hn [Hp Hit]]]]. vm_compute in Hn. inversion Hn; subst r.
    exists s1. split; [exact Hp|]. rewrite Hit. vm_compute. reflexivity.
  - destruct H2 as [s1 [Hp _]]. exists s1. exact Hp.
Defined.

(** X5: an instance of [popitem_last]. *)
Lemma popitem_last_witness :
  let s := sd_init [mkRec 3 []; mkRec 1 []; mkRec 2 []] in
  (sd_inv s /\ keys_distinct (sd_data s)) /\
  (exists d x, popitem s = (mkSD d (idx_from 0 d) true true, Ok (key x, x)) /\
               d ++ [x] = [mkRec 1 []; mkRec 2 []; mkRec 3 []]) /\
  popitem (sd_init []) = (validated (sd_init []), Exc KeyError).
Proof.
  intros s. sd_hyps s. split; [split; assumption|]. split.
  - destruct (popitem_last s Hi Hd) as [_ H2].
    destruct (H2 ltac:(discriminate)) as [d [x [Hs [Hp _]]]].
    exists d, x. split; [exact Hp|]. rewrite <- Hs. vm_compute. reflexivity.
  - apply (popitem_last (sd_init [])); [intros Hv; discriminate Hv | constructor | reflexivity].
Defined.

(** X7: an instance of [setdefault_stale_after_extend]. *)
Lemma setdefault_stale_after_extend_witness :
  let s := sd_init [mkRec 3 []; mkRec 1 []; mkRec 2 []] in
  let l := [mkRec 5 []] in
  (sd_inv s /\ forall r q, In r (sd_data s) -> In q l -> ~ (key r == key q)%Q) /\
  exists s1, extend l s = (s1, Ok tt) /\ setdefault 5 0%nat s1 = (s1, Exc KeyError) /\
    exists r, get 5 0%nat s1 = (validated s1, Ok (inl r)).
Proof.
  intros s l. sd_hyps s.
  assert (Hf : forall r q, In r (sd_data s) -> In q l -> ~ (key r == key q)%Q).
  { intros r q Hr Hq. simpl in Hr, Hq. destruct Hq as [<-|[]]. destruct Hr as [<-|[<-|[<-|[]]]]; qneq. }
  split; [split; assumption|].
  destruct (setdefault_stale_after_extend s l 0%nat Hi Hf) as [s1 [He H]].
  destruct (H (mkRec 5 []) (or_introl eq_refl)) as [Hs [r [Hg _]]].
  exists s1. split; [exact He|]. split; [exact Hs|]. exists r. exact Hg.
Defined.

(** X8: an instance of [update_single]. *)
Lemma update_single_witness :
  let s := sd_init [mkRec 3 []; mkRec 1 []; mkRec 2 []] in
  let v := mkRec 2 [("t"%string, PNum 1)] in
  (sd_inv s /\ keys_distinct (sd_data s)) /\
  exists s1, update [v] s = (s1, Ok tt) /\ get 2 0%nat s1 = (validated s1, Ok (inl v)) /\
    Permutation (sd_data (validated s1)) [v; mkRec 3 []; mkRec 1 []].
Proof.
  intros s v. sd_hyps s. split; [split; assumption|].
  destruct (update_single s v Hi Hd) as [s1 [Hu [Hg [_ Hp]]]].
  exists s1. split; [exact Hu|]. split; [apply Hg|]. exact Hp.
Defined.

(** X9: an instance of [setitem_int_spec]. *)
Lemma setitem_int_spec_witness :
  let s := sd_init [mkRec 3 []; mkRec 1 []; mkRec 2 []] in
  let v := mkRec 2 [("t"%string, PNum 1)] in
  (sd_inv s /\ keys_distinct (sd_data s)) /\
  setitem_int 0 v s = (validated s, Exc (ValueError_mismatch_at 1)) /\
  exists s1, setitem_int 1 v s = (s1, Ok tt) /\
    Permutation (sd_data (validated s1)) [v; mkRec 1 []; mkRec 3 []].
Proof.
  intros s v. sd_hyps s. split; [split; assumption|].
  destruct (setitem_int_spec s 0 v Hi Hd) as [Ha _].
  destruct (setitem_int_spec s 1 v Hi Hd) as [_ Hb].
  split; [apply (Ha 1%nat (mkRec 2 [])); [vm_compute; reflexivity | vm_compute; reflexivity | lia]|].
  assert (E : py_index (length (sd_data (validated s))) 1 = Ok 1%nat) by (vm_compute; reflexivity).
  assert (Hu : forall (j : nat) (r : rec), nth_error (sd_data (validated s)) j = Some r ->
                key r == key v -> Z.of_nat j = 1%Z).
  { intros j r Hn Hq. destruct j as [|[|[|j]]]; vm_compute in Hn;
      [| reflexivity | | destruct j; discriminate Hn];
      inversion Hn; subst r; vm_compute in Hq; discriminate Hq. }
  pose proof (Hb Hu) as H.
  rewrite E in H. destruct H as [s1 [Hs [_ Hp]]]. exists s1. split; [exact Hs|]. exact Hp.
Defined.

(** X10: an instance of [setitem_slice_spec], with negative bounds
    ([sd[-2:-1]]) and with a key of [value] in the mask ([sd[1:2]]). *)
Lemma setitem_slice_spec_witness :
  let s := sd_init [mkRec 3 []; mkRec 1 []; mkRec 2 []] in
  (exists s1, setitem_slice_int (Some (-2)%Z) (Some (-1)%Z) [mkRec (5#2) []] s = (s1, Ok tt) /\
     Permutation (sd_data (validated s1)) [mkRec 1 []; mkRec (5#2) []; mkRec 3 []]) /\
  setitem_slice_int (Some 1%Z) (Some 2%Z) [mkRec 3 []] s = (validated s, Exc ValueError_nonunique).
Proof.
  intros s. split.
  - pose proof (setitem_slice_spec s (Some (-2)%Z) (Some (-1)%Z) [mkRec (5#2) []]) as H.
    cbv zeta in H. destruct H as [Ha _]. destruct Ha as [s1 [Hs [_ Hp]]].
    { intros r q Hr Hq. vm_compute in Hr. simpl in Hq. destruct Hq as [<-|[]].
      destruct Hr as [<-|[<-|[]]]; qneq. }
    exists s1. split; [exact Hs|].
    eapply Permutation_trans; [exact Hp|]. vm_compute. apply Permutation_refl.
  - pose proof (setitem_slice_spec s (Some 1%Z) (Some 2%Z) [mkRec 3 []]) as H.
    cbv zeta in H. destruct H as [_ Hb].
    apply (Hb (mkRec 3 []) (mkRec 3 [])); [vm_compute; tauto | left; reflexivity | reflexivity].
Defined.

(** X11: an instance of [concat_as_extend]. *)
Lemma concat_as_extend_witness :
  let s := sd_init [mkRec 3 []; mkRec 1 []; mkRec 2 []] in
  let l := [mkRec (1#2) []] in
  (sd_inv s /\ forall r q, In r (sd_data s) -> In q l -> ~ (key r == key q)%Q) /\
  exists s1 s2 c, extend l s = (s1, Ok tt) /\ concat l s = (s2, Ok c) /\
    sd_data (validated c) = sd_data (validated s1).
Proof.
  intros s l. sd_hyps s.
  assert (Hf : forall r q, In r (sd_data s) -> In q l -> ~ (key r == key q)%Q).
  { intros r q Hr Hq. simpl in Hr, Hq. destruct Hq as [<-|[]]. destruct Hr as [<-|[<-|[<-|[]]]]; qneq. }
  split; [split; assumption|].
  destruct (concat_as_extend s l Hi Hf) as [s1 [s2 [c [He [Hc [Hv _]]]]]].
  exists s1, s2, c. auto.
Defined.

(** X12: an instance of [copy_same_items]. *)
Lemma copy_same_items_witness :
  let s := sd_init [mkRec 3 []; mkRec 1 []; mkRec 2 []] in
  sd_inv s /\ exists c, sd_copy s = (validated s, Ok c) /\
    snd (iter c) = Ok [mkRec 1 []; mkRec 2 []; mkRec 3 []].
Proof.
  intros s. sd_hyps s. split; [exact Hi|].
  destruct (copy_same_items s Hi) as [c [Hc Hit]]. exists c. split; [exact Hc|].
  rewrite Hit. vm_compute. reflexivity.
Defined.

(** X13: an instance of [keys_items_ascending]. *)
Lemma keys_items_ascending_witness :
  let s := sd_init [mkRec 3 []; mkRec 1 []; mkRec 2 []] in
  (sd_inv s /\ keys_distinct (sd_data s)) /\
  keys s = (validated s, Ok [1; 2; 3]%Q) /\
  items s = (validated s, Ok [(1%Q, mkRec 1 []); (2%Q, mkRec 2 []); (3%Q, mkRec 3 [])]).
Proof.
  intros s. sd_hyps s. split; [split; assumption|].
  destruct (keys_items_ascending s Hi Hd) as [Hk [_ Hit]].
  rewrite Hk, Hit. split; vm_compute; reflexivity.
Defined.

(** X14: an instance of [clear_append_ascending]. *)
Lemma clear_append_ascending_witness :
  Sorted Qlt (map key [mkRec 1 []; mkRec 2 []]) /\
  (clear ;;; sfor [mkRec 1 []; mkRec 2 []] append) (sd_init [mkRec 7 []; mkRec 1 []])
    = (from_sorted [mkRec 1 []; mkRec 2 []], Ok tt).
Proof.
  assert (H : Sorted Qlt (map key [mkRec 1 []; mkRec 2 []])) by (repeat constructor).
  split; [exact H|]. apply clear_append_ascending. exact H.
Defined.

(** X15: an instance of [fill_guard_keeps_interior]. *)
Lemma fill_guard_keeps_interior_witness :
  (0 < guards periodic2x2)%Z /\
  shape (fst (fill_guard periodic2x2 "pres" blocks2x2)) = shape blocks2x2 /\
  cell (fst (fill_guard periodic2x2 "pres" blocks2x2)) [0; 1; 1; 1]%nat = cell blocks2x2 [0; 1; 1; 1]%nat.
Proof.
  assert (Hg : (0 < guards periodic2x2)%Z) by (vm_compute; reflexivity).
  split; [exact Hg|].
  destruct (fill_guard_keeps_interior periodic2x2 "pres" blocks2x2 Hg) as [Hs Hc].
  split; [exact Hs|]. apply Hc.
  change (guards periodic2x2) with 1%Z. cbn [interior_cell shape blocks2x2]. unfold interior_axis. simpl. lia.
Defined.

(** X16: an instance of [set_get_attr]. *)
Lemma set_get_attr_witness :
  let d := mkArr [1; 3; 3; 3]%nat (fun _ => 0) in
  let value := mkArr [1; 1; 1; 1]%nat (fun _ => 7) in
  exists d' w, set_attr 2 value d = (d', Ok tt) /\ get_attr 2 d' = Ok w /\
    cell w [0; 0; 0; 0]%nat = 7 /\ cell d' [0; 0; 0; 0]%nat = 0.
Proof.
  intros d value.
  assert (Hok : match set_attr 2 value d with (_, Ok _) => true | _ => false end = true)
    by (vm_compute; reflexivity).
  destruct (set_attr 2 value d) as [d' [[]|e]] eqn:E; [|discriminate Hok].
  destruct (set_get_attr 2 d value d' ltac:(lia) E) as [Hs [Hn [w0 [w [H0 [Hw [Hsw Hc]]]]]]].
  exists d', w. split; [reflexivity|]. split; [exact Hw|]. split.
  - rewrite Hc; [reflexivity|]. rewrite Hsw. vm_compute in H0. inversion H0. simpl. repeat constructor.
  - apply Hn. change (Z.quot 2 2) with 1%Z. cbn [interior_cell shape d]. unfold interior_axis. simpl. lia.
Defined.

(** X17: an instance of [load_get_cell_centred]. *)
Lemma load_get_cell_centred_witness :
  let file := mkArr [4; 1; 1; 1]%nat (fun c => inject_Z (Z.of_nat (nth 0 c 0%nat))) in
  exists data w, load_group periodic2x2 "pres" file = Ok data /\
    get_attr (blk_guards periodic2x2) data = Ok w /\ shape w = [4; 1; 1; 1]%nat /\
    cell w [3; 0; 0; 0]%nat = 3.
Proof.
  intros file.
  assert (Hok : match load_group periodic2x2 "pres" file with Ok _ => true | Exc _ => false end = true)
    by (vm_compute; reflexivity).
  destruct (load_group periodic2x2 "pres" file) as [data|e] eqn:E; [|discriminate Hok].
  destruct (load_get_cell_centred periodic2x2 "pres" file data 4 1 1 1 ltac:(vm_compute; reflexivity)
              eq_refl eq_refl E) as [_ [w [Hw [Hs Hc]]]].
  exists data, w. split; [reflexivity|]. split; [exact Hw|]. split; [exact Hs|].
  rewrite Hc by lia. reflexivity.
Defined.

(** X18: an instance of [load_get_fcx2]. *)
Lemma load_get_fcx2_witness :
  let file := mkArr [4; 1; 1; 2]%nat (fun c => inject_Z (Z.of_nat (fold_left (fun a v => 10 * a + v) c 0)%nat)) in
  exists data w, load_group periodic2x2 "fcx2" file = Ok data /\
    get_attr (blk_guards periodic2x2) data = Ok w /\ shape w = [4; 1; 1; 1]%nat /\
    cell w [3; 0; 0; 0]%nat = 3001.
Proof.
  intros file.
  assert (Hok : match load_group periodic2x2 "fcx2" file with Ok _ => true | Exc _ => false end = true)
    by (vm_compute; reflexivity).
  destruct (load_group periodic2x2 "fcx2" file) as [data|e] eqn:E; [|discriminate Hok].
  destruct (load_get_fcx2 periodic2x2 file data 4 1 1 2 ltac:(vm_compute; reflexivity) eq_refl E)
    as [_ [w [Hw [Hs Hc]]]].
  exists data, w. split; [reflexivity|]. split; [exact Hw|]. split; [exact Hs|].
  rewrite Hc by lia. reflexivity.
Defined.

(** X19: an instance of [load_cell_centred_guard_mismatch]. *)
Lemma load_cell_centred_guard_mismatch_witness :
  let geom := mkGeom 4 [] 3 [] [] (mkArr [] (fun _ => 0)) in
  load_group geom "pres" (mkArr [1; 8; 8; 8]%nat (fun _ => 1)) = Exc ValueError_broadcast.
Proof.
  intros geom.
  apply (load_cell_centred_guard_mismatch geom "pres" _ 1 8 8 8);
    [vm_compute; discriminate | vm_compute; discriminate | reflexivity | reflexivity | lia].
Defined.
